(** * Bus transport backend: proximity geofencing engine

    A shallow embedding of the parts of [server.js] and
    [routeCacheManager.js] that resolve locations, build and cache route
    paths, gate provider usage and decide which routes pass near a user,
    followed by the properties established about them.

    Conventions of the embedding.
    - A JavaScript number is a [jsnum]: a finite value (an exact rational;
      where the code itself computes coordinates in double precision, in
      [decodePolyline], the results are rounded as binary64 rounds them),
      one of the two infinities, or NaN.  Comparisons follow IEEE 754: every
      comparison that involves NaN is false.
    - Timestamps ([Date.now()]) are integers in milliseconds.
    - Module-level mutable objects ([geocodeCache], [googleUsage], the
      counters, the timer handle) are fields of an explicit state that the
      functions take and return.
    - The network is an environment of reply functions, one per provider
      endpoint; every call is also recorded in a log kept in the state, so
      that "performs no provider call" can be stated.
    - [geolib]'s [getDistance] is a library function outside the repository:
      it is a parameter of the definitions that use it.
    - A path handed to [isPathIntersectsCircle] or [getMinDistanceAlongPath]
      is a JavaScript value: it may be missing, its entries may be [null]
      or [undefined], and the fields of an entry may hold anything.  The
      paths the server builds itself are lists of points. *)

From Stdlib Require Import ZArith QArith Qabs Lia Ascii String List Bool DecimalString.
From Stdlib Require Import Sorting.Sorted.
From stdpp Require Import base option list strings gmap.

Local Open Scope Z_scope.

(* ================================================================== *)
(** * Part I. The embedding                                            *)
(* ================================================================== *)

(** ** JavaScript numbers *)

Inductive jsnum : Type :=
| NaN
| NegInf
| Fin (q : Q)
| PosInf.

Definition isNaN (x : jsnum) : bool :=
  match x with NaN => true | _ => false end.

(** [a <= b] on numbers. *)
Definition num_le (a b : jsnum) : bool :=
  match a, b with
  | NaN, _ | _, NaN => false
  | NegInf, _ => true
  | _, PosInf => true
  | Fin x, Fin y => Qle_bool x y
  | _, _ => false
  end.

(** [a < b] on numbers. *)
Definition num_lt (a b : jsnum) : bool :=
  match a, b with
  | NaN, _ | _, NaN => false
  | NegInf, NegInf => false
  | NegInf, _ => true
  | PosInf, _ => false
  | Fin _, NegInf => false
  | Fin x, Fin y => negb (Qle_bool y x)
  | Fin _, PosInf => true
  end.

(** An integer as a number. *)
Definition num_of_Z (z : Z) : jsnum := Fin (inject_Z z).

(** ** Points *)

(** [{ lat, lng }] with numbers in both fields. *)
Record LatLng : Type := mkLatLng { lat : jsnum; lng : jsnum }.

(** ** Strings

    JavaScript strings are modelled as [string]; the case maps and the
    white-space test are those of the ASCII range. *)

Definition is_upper (c : ascii) : bool :=
  let n := nat_of_ascii c in (65 <=? n)%nat && (n <=? 90)%nat.

Definition is_lower (c : ascii) : bool :=
  let n := nat_of_ascii c in (97 <=? n)%nat && (n <=? 122)%nat.

Definition lower_char (c : ascii) : ascii :=
  if is_upper c then ascii_of_nat (nat_of_ascii c + 32) else c.

Definition upper_char (c : ascii) : ascii :=
  if is_lower c then ascii_of_nat (nat_of_ascii c - 32) else c.

Fixpoint map_chars (f : ascii -> ascii) (s : string) : string :=
  match s with
  | EmptyString => EmptyString
  | String c s' => String (f c) (map_chars f s')
  end.

(** [s.toLowerCase()] and [s.toUpperCase()]. *)
Definition toLowerCase (s : string) : string := map_chars lower_char s.
Definition toUpperCase (s : string) : string := map_chars upper_char s.

(** Tab, line feed, vertical tab, form feed, carriage return, space. *)
Definition is_white (c : ascii) : bool :=
  let n := nat_of_ascii c in ((9 <=? n)%nat && (n <=? 13)%nat) || (n =? 32)%nat.

Fixpoint trimStart (s : string) : string :=
  match s with
  | EmptyString => EmptyString
  | String c s' => if is_white c then trimStart s' else s
  end.

(** [s.trim()]. *)
Definition trim (s : string) : string :=
  String.rev (trimStart (String.rev (trimStart s))).

(** A string is truthy when it is not empty. *)
Definition truthy (s : string) : bool :=
  match s with EmptyString => false | _ => true end.

(** [hay] has [pat] as a substring. *)
Fixpoint contains (pat hay : string) : bool :=
  String.prefix pat hay
  || match hay with
     | EmptyString => false
     | String _ hay' => contains pat hay'
     end.

(** [new RegExp(escaped(pat), 'i').test(hay)]: a literal, case-insensitive
    search. *)
Definition containsCI (pat hay : string) : bool :=
  contains (toLowerCase pat) (toLowerCase hay).

(** [/market|station|bus|stand|center|centre|college/i.test(q)]. *)
Definition looksLikePOI (q : string) : bool :=
  existsb (fun w => containsCI w q)
          ["market"; "station"; "bus"; "stand"; "center"; "centre"; "college"]%string.

(** Decimal digits of a non-negative integer. *)
Definition decimal (z : Z) : string :=
  NilZero.string_of_uint (N.to_uint (Z.to_N z)).

Fixpoint zeros (n : nat) : string :=
  match n with O => EmptyString | S n' => String "0" (zeros n') end.

(** The integer [n] with [n / 10^6] closest to [|q|], the larger one on a
    tie: the rounding of [Number.prototype.toFixed(6)]. *)
Definition round6 (q : Q) : Z :=
  let a := Z.abs (Qnum q) in
  let b := Z.pos (Qden q) in
  (2 * a * 1000000 + b) / (2 * b).

(** [x.toFixed(6)].  (From 1e21 on JavaScript switches to exponent
    notation; coordinates are far below and that range is rendered with
    plain digits here.) *)
Definition toFixed6 (x : jsnum) : string :=
  match x with
  | NaN => "NaN"
  | PosInf => "Infinity"
  | NegInf => "-Infinity"
  | Fin q =>
      let n := round6 q in
      let frac := decimal (n mod 1000000) in
      ((if (Qnum q <? 0)%Z then "-" else "")
         ++ decimal (n / 1000000) ++ "."
         ++ zeros (6 - String.length frac) ++ frac)%string
  end.

(** ** UsageGovernor *)

(** *** Daily provider budget: [googleUsage] *)

Record GoogleUsage : Type := mkGoogleUsage {
  usage_date : string;   (* "YYYY-MM-DD" *)
  usage_count : Z;
  usage_limit : Z
}.

(** [checkAndIncrementGoogleUsage()]; [today] is
    [(new Date()).toISOString().slice(0,10)]. *)
Definition checkAndIncrementGoogleUsage (today : string) (u : GoogleUsage)
  : bool * GoogleUsage :=
  let u1 := if bool_decide (usage_date u = today) then u
            else mkGoogleUsage today 0 (usage_limit u) in
  if usage_limit u1 <=? usage_count u1 then (false, u1)
  else (true, mkGoogleUsage (usage_date u1) (usage_count u1 + 1) (usage_limit u1)).

(** *** Hourly limits of the availability check *)

Record Counter : Type := mkCounter { count : Z; windowStart : Z }.

Record RateLimits : Type := mkRateLimits {
  AVAILABILITY_LIMIT_PER_HOUR : Z;
  AVAILABILITY_LIMIT_PER_CONTACT_PER_HOUR : Z
}.

(** The values used when the environment sets nothing. *)
Definition default_limits : RateLimits := mkRateLimits 200 60.

Record Counters : Type := mkCounters {
  availabilityCounters : gmap string Counter;         (* ip -> counter *)
  availabilityContactCounters : gmap string Counter   (* contact -> counter *)
}.

Definition no_counters : Counters := mkCounters ∅ ∅.

Definition hourWindow : Z := 60 * 60 * 1000.

(** [if (contact)]: [null] and the empty string are falsy. *)
Definition contact_given (contact : option string) : option string :=
  match contact with
  | Some c => if truthy c then Some c else None
  | None => None
  end.

(** The three lines that load, roll over and bump one counter. *)
Definition bump (now : Z) (existing : option Counter) : Counter :=
  let obj := default (mkCounter 0 now) existing in
  let obj := if hourWindow <? now - windowStart obj then mkCounter 0 now else obj in
  mkCounter (count obj + 1) (windowStart obj).

(** [incrementAvailability(ip, contact)] at time [now]; returns
    [{ ipCount, contactCount }] and the new counters. *)
Definition incrementAvailability (now : Z) (ip : string) (contact : option string)
           (st : Counters) : (Z * Z) * Counters :=
  let ipObj := bump now (availabilityCounters st !! ip) in
  let ipMap := <[ip := ipObj]> (availabilityCounters st) in
  match contact_given contact with
  | Some c =>
      let cObj := bump now (availabilityContactCounters st !! c) in
      ((count ipObj, count cObj),
       mkCounters ipMap (<[c := cObj]> (availabilityContactCounters st)))
  | None => ((count ipObj, 0), mkCounters ipMap (availabilityContactCounters st))
  end.

(** [isAvailabilityAllowed(ip, contact)] at time [now].  The source reads
    [Date.now()] only to fill [windowStart] of a placeholder counter, so
    [now] does not influence the answer. *)
Definition isAvailabilityAllowed (lim : RateLimits) (now : Z) (ip : string)
           (contact : option string) (st : Counters) : bool :=
  let ipObj := default (mkCounter 0 now) (availabilityCounters st !! ip) in
  if AVAILABILITY_LIMIT_PER_HOUR lim <=? count ipObj then false
  else
    match contact_given contact with
    | Some c =>
        let cObj := default (mkCounter 0 now) (availabilityContactCounters st !! c) in
        if AVAILABILITY_LIMIT_PER_CONTACT_PER_HOUR lim <=? count cObj then false
        else true
    | None => true
    end.

(** How the handler of [POST /api/check-availability] ends its first
    phase. *)
Inductive GateOutcome : Type :=
| RateLimited    (* 429 *)
| BadRequest     (* 400 *)
| Accepted.      (* counters bumped, the check goes on *)

(** The head of the handler of [POST /api/check-availability]: gate,
    validation, then the increment.  [contact] is
    [req.body.email || req.body.contact || req.body.phone], [wellFormed]
    tells whether the location is present and the contact passes the e-mail
    or phone pattern. *)
Definition availabilityGate (lim : RateLimits) (now : Z) (ip : string)
           (contact : option string) (wellFormed : bool) (st : Counters)
  : GateOutcome * Counters :=
  let contactKey := toLowerCase <$> contact_given contact in
  if negb (isAvailabilityAllowed lim now ip contactKey st) then (RateLimited, st)
  else if negb (bool_decide (is_Some (contact_given contact))) || negb wellFormed
       then (BadRequest, st)
  else (Accepted, snd (incrementAvailability now ip contactKey st)).

(** A request to the availability endpoint, as far as the gate sees it. *)
Record Request : Type := mkRequest {
  req_time : Z;
  req_ip : string;
  req_contact : option string;
  req_wellFormed : bool
}.

(** Serving requests one after the other. *)
Fixpoint serve (lim : RateLimits) (reqs : list Request) (st : Counters)
  : list GateOutcome * Counters :=
  match reqs with
  | [] => ([], st)
  | r :: rest =>
      let '(o, st1) := availabilityGate lim (req_time r) (req_ip r)
                                        (req_contact r) (req_wellFormed r) st in
      let '(os, st2) := serve lim rest st1 in
      (o :: os, st2)
  end.

(** ** Encoded polylines *)

(** The code of a character, [charCodeAt]. *)
Definition charCode (c : ascii) : Z := Z.of_nat (nat_of_ascii c).

(** [ToInt32]: the wrap-around of the 32-bit operators. *)
Definition to_int32 (z : Z) : Z := (z + 2 ^ 31) mod 2 ^ 32 - 2 ^ 31.

(** [x << s] on 32-bit integers: only the low five bits of the shift count
    are used, and the result wraps. *)
Definition shl32 (x s : Z) : Z := to_int32 (Z.shiftl x (s mod 32)).

(** One [do { ... } while (b >= 0x20)] loop of [decodePolyline]: reads the
    groups of one value from the head of [s], returns [result] and the rest
    of the string.  Reading past the end gives [charCodeAt = NaN]: then
    [b & 0x1f] is 0, the test [b >= 0x20] is false and the loop ends.
    ([|] of two 32-bit integers is [Z.lor] of their signed values.) *)
Fixpoint readValue (s : string) (shift result : Z) : Z * string :=
  match s with
  | EmptyString => (result, EmptyString)
  | String c s' =>
      let b := charCode c - 63 in
      let result' := Z.lor result (shl32 (Z.land b 31) shift) in
      if 32 <=? b then readValue s' (shift + 5) result' else (result', s')
  end.

(** [(result & 1) ? ~(result >> 1) : (result >> 1)]. *)
Definition unzigzag (result : Z) : Z :=
  if Z.land result 1 =? 0 then Z.shiftr result 1 else Z.lnot (Z.shiftr result 1).

(** *** Double-precision arithmetic of the decoder

    [lat], [lng] and the products [lat * 1e-5] are binary64 numbers.  A
    sum or product of two of them is the exact result rounded to 53
    significant bits, to nearest, ties to even.  The exponent range plays
    no part: the sums are integers below 2^85 in magnitude for any string
    JavaScript can hold (at most 2^53 - 1 characters, each value below
    2^31), and a product with 1e-5 is zero or at least 2^-17. *)

(** The integer nearest to [a / b], the even one in case of a tie
    ([0 <= a], [0 < b]). *)
Definition round_half_even (a b : Z) : Z :=
  let q := a / b in
  let r := a mod b in
  if 2 * r <? b then q
  else if b <? 2 * r then q + 1
  else if Z.even q then q else q + 1.

(** What binary64 keeps of the integer [z]: [z] rounded to 53 significant
    bits. *)
Definition round53 (z : Z) : Z :=
  let a := Z.abs z in
  let s := Z.log2 a - 52 in
  if s <=? 0 then z
  else Z.sgn z * (round_half_even a (2 ^ s) * 2 ^ s).

(** The literal [1e-5] is the binary64 number
    [5902958103587057 * 2^-69]. *)
Definition mantissa_1e_5 : Z := 5902958103587057.

(** [n * 1e-5] for an integer-valued [n]: the exact product
    [n * 5902958103587057 * 2^-69] rounded to binary64.  Scaling by a power
    of two is exact, so the rounding is the one of the integer
    [n * 5902958103587057]. *)
Definition scale5 (n : Z) : jsnum :=
  Fin (Qred (Qmake (round53 (n * mantissa_1e_5)) (2 ^ 69))).

(** The [while (index < encoded.length)] loop; [s] is the part of the string
    from [index] on, [lat] and [lng] the running sums.  Each round consumes
    at least one character, so [fuel = length] rounds always suffice
    (see [decodeLoop_fuel]). *)
Fixpoint decodeLoop (fuel : nat) (s : string) (lat lng : Z) : list LatLng :=
  match fuel with
  | O => []
  | S fuel' =>
      match s with
      | EmptyString => []
      | _ =>
          let '(r1, s1) := readValue s 0 0 in
          let lat' := round53 (lat + unzigzag r1) in
          let '(r2, s2) := readValue s1 0 0 in
          let lng' := round53 (lng + unzigzag r2) in
          mkLatLng (scale5 lat') (scale5 lng') :: decodeLoop fuel' s2 lat' lng'
      end
  end.

(** [decodePolyline(encoded)]. *)
Definition decodePolyline (encoded : string) : list LatLng :=
  if truthy encoded then decodeLoop (String.length encoded) encoded 0 0 else [].

(** *** The documented encoding

    The encoder belongs to the routing provider; the definitions below
    follow the description of the format in the specification and are only
    used to state that [decodePolyline] inverts it. *)

(** Zig-zag of a signed integer: shift left by one, complement when
    negative. *)
Definition zigzag_spec (v : Z) : Z :=
  if v <? 0 then Z.lnot (Z.shiftl v 1) else Z.shiftl v 1.

(** Five-bit groups, least significant first, every group but the last with
    the continuation bit [0x20], each offset by 63. *)
Fixpoint emitGroups_spec (fuel : nat) (u : Z) : string :=
  match fuel with
  | O => EmptyString
  | S fuel' =>
      if u <? 32 then String (ascii_of_nat (Z.to_nat (u + 63))) EmptyString
      else String (ascii_of_nat (Z.to_nat (Z.lor 32 (Z.land u 31) + 63)))
                  (emitGroups_spec fuel' (Z.shiftr u 5))
  end.

Definition encodeValue_spec (v : Z) : string :=
  let u := zigzag_spec v in
  emitGroups_spec (S (Z.to_nat (Z.log2 u))) u.

(** Coordinates are given in units of 1e-5 degree (the scaling by 1e5
    already applied); each one is encoded as the difference to the previous
    point, starting from (0, 0). *)
Fixpoint encodeFrom_spec (prevLat prevLng : Z) (pts : list (Z * Z)) : string :=
  match pts with
  | [] => EmptyString
  | (a, b) :: rest =>
      (encodeValue_spec (a - prevLat) ++ encodeValue_spec (b - prevLng)
         ++ encodeFrom_spec a b rest)%string
  end.

Definition encodePolyline_spec (pts : list (Z * Z)) : string :=
  encodeFrom_spec 0 0 pts.

(** The coordinate [n * 10^-5] itself, as a rational. *)
Definition e5 (n : Z) : Q := Qmake n 100000.

(** The point with the given coordinates in units of 1e-5 degree, the
    coordinates taken exactly. *)
Definition point_e5 (ab : Z * Z) : LatLng :=
  mkLatLng (Fin (e5 (fst ab))) (Fin (e5 (snd ab))).

(** The number [x] is the coordinate [n * 10^-5] up to the rounding of
    binary64: it is finite and off by at most [|n| * 2^-68] (below 10^-13
    degree for every coordinate on earth, and far below the resolution
    10^-5 of the encoding). *)
Definition close_to_e5 (x : jsnum) (n : Z) : Prop :=
  match x with
  | Fin q => (Qabs (q - e5 n) <= Qmake (Z.abs n) (2 ^ 68))%Q
  | _ => False
  end.

(** The point [p] has the coordinates [ab], given in units of 1e-5 degree,
    up to the rounding of binary64. *)
Definition decodes_to (p : LatLng) (ab : Z * Z) : Prop :=
  close_to_e5 (lat p) (fst ab) /\ close_to_e5 (lng p) (snd ab).

(** Latitudes within [-90, 90] and longitudes within [-180, 180]. *)
Definition wgs84_e5 (ab : Z * Z) : Prop :=
  -9000000 <= fst ab <= 9000000 /\ -18000000 <= snd ab <= 18000000.

(** Both coordinates are integers that binary64 holds exactly. *)
Definition exact_e5 (ab : Z * Z) : Prop :=
  Z.abs (fst ab) < 2 ^ 53 /\ Z.abs (snd ab) < 2 ^ 53.

(** Every coordinate of [pts] differs from the one of the point before it
    (from [prevLat], [prevLng] for the first point) by less than 2^29
    units, so that its zig-zag form fits the 32-bit integers the decoder
    works with. *)
Fixpoint small_steps (prevLat prevLng : Z) (pts : list (Z * Z)) : Prop :=
  match pts with
  | [] => True
  | (a, b) :: rest =>
      - 2 ^ 29 <= a - prevLat < 2 ^ 29
      /\ - 2 ^ 29 <= b - prevLng < 2 ^ 29
      /\ small_steps a b rest
  end.

(** The points that [decodeLoop] builds from the coordinates [ab]. *)
Definition decoded_point (ab : Z * Z) : LatLng :=
  mkLatLng (scale5 (fst ab)) (scale5 (snd ab)).


(** ** Records of the data model and of the provider replies *)

(** [{ lat, lng, formatted_address }], the result of forward geocoding. *)
Record GeoResult : Type := mkGeoResult {
  geo_lat : jsnum;
  geo_lng : jsnum;
  formatted_address : string
}.

Inductive Period : Type := MORNING | EVENING.

Global Instance Period_eq_dec : EqDecision Period.
Proof. solve_decision. Defined.

(** A stop row of the database. *)
Record Stop : Type := mkStop {
  stop_name : string;
  stop_lat : jsnum;
  stop_lng : jsnum;
  stop_period : Period;
  stop_order : Z
}.

(** [{ lat: s.lat, lng: s.lng }]. *)
Definition stop_point (s : Stop) : LatLng := mkLatLng (stop_lat s) (stop_lng s).

Record Bus : Type := mkBus { bus_id : Z; bus_stops : list Stop }.

(** [{ morningRoute, eveningRoute }], a value of [routePolylinesCache]; a
    field that is absent in the persisted JSON is the empty list (the
    readers test [.length > 0]). *)
Record BusRoutes : Type := mkBusRoutes {
  morningRoute : list LatLng;
  eveningRoute : list LatLng
}.

(** What an HTTPS request came to: the ['error'] event, a body that
    [JSON.parse] or a property access chokes on, or a parsed body. *)
Inductive HttpReply (A : Type) : Type :=
| NetError
| Unparsable
| Body (j : A).
Arguments NetError {A}.
Arguments Unparsable {A}.
Arguments Body {A} j.

Record AddressComponent : Type := mkAddressComponent {
  long_name : string;
  component_types : list string
}.

(** One entry of [j.results] of the Google geocoding reply. *)
Record GeocodeCandidate : Type := mkGeocodeCandidate {
  address_components : list AddressComponent;
  geometry_location : LatLng;
  candidate_address : string
}.

Record GeocodeBody : Type := mkGeocodeBody {
  gc_status : string;
  gc_results : list GeocodeCandidate
}.

(** The query of the Google geocoding request (before URL encoding). *)
Record GeocodeRequest : Type := mkGeocodeRequest {
  rq_address : string;
  rq_components : list string;
  rq_region : string
}.

(** The first element of a Nominatim search reply, with [parseFloat]
    applied to its coordinates. *)
Record NominatimHit : Type := mkNominatimHit {
  nom_lat : jsnum;
  nom_lon : jsnum;
  display_name : string
}.

(** [j.results[0]] of the Google reverse geocoding reply; a missing field is
    [None]. *)
Record ReverseHit : Type := mkReverseHit {
  rh_address : option string;
  rh_location : option LatLng
}.

Record ReverseBody : Type := mkReverseBody {
  rv_status : string;
  rv_results : list ReverseHit
}.

(** Google Directions: [j.status] and
    [j.routes[0].overview_polyline.points] when that chain exists. *)
Record DirectionsBody : Type := mkDirectionsBody {
  dir_status : string;
  overview_polyline : option string
}.

Record DirectionsRequest : Type := mkDirectionsRequest {
  dr_origin : LatLng;
  dr_destination : LatLng;
  dr_waypoints : list LatLng
}.

(** The requests that leave the process. *)
Inductive ProviderCall : Type :=
| GoogleGeocodeCall (rq : GeocodeRequest)
| NominatimSearchCall (q : string)
| GoogleReverseCall (p : LatLng)
| NominatimReverseCall (p : LatLng)
| GoogleDirectionsCall (rq : DirectionsRequest).

(** The errors the functions throw or reject with. *)
Inductive Error : Type :=
| InvalidLocation            (* 'Invalid location for geocoding' *)
| UsageLimitExceeded         (* 'Google Maps daily usage limit exceeded' *)
| GeocodeFailed (st : string)(* `Geocode failed: ${j.status || 'NO_RESULTS'}` *)
| KeyNotConfigured           (* 'Google Maps API key not configured' *)
| InvalidLatLng              (* 'Invalid lat/lng' *)
| ResponseUnreadable         (* exception while reading a reply *)
| NetworkFailure             (* the request's 'error' event *)
| TypeError.                 (* reading a property of [null] or [undefined] *)

Inductive Result (A : Type) : Type :=
| Ok (a : A)
| Err (e : Error).
Arguments Ok {A} a.
Arguments Err {A} e.

(** ** Environment and state *)

(** Configuration, clock and network, fixed during one call. *)
Record Env : Type := mkEnv {
  GOOGLE_MAPS_KEY : option string;
  GEOCODE_STATE : string;
  GEOCODE_CITY : string;
  GEOCODE_COUNTRY : string;
  GEOCODE_REGION : string;
  today : string;
  googleGeocodeApi : GeocodeRequest -> HttpReply GeocodeBody;
  nominatimSearchApi : string -> HttpReply (list NominatimHit);
  googleReverseApi : LatLng -> HttpReply ReverseBody;
  (** the reply's [display_name], empty when absent *)
  nominatimReverseApi : LatLng -> HttpReply string;
  googleDirectionsApi : DirectionsRequest -> HttpReply DirectionsBody;
  (** conversion of a number to a string in a template literal *)
  numberToString : jsnum -> string
}.

(** The module-level mutable objects, and the log of provider calls. *)
Record World : Type := mkWorld {
  geocodeCache : gmap string GeoResult;
  reverseGeocodeCache : gmap string (option string);
  googleUsage : GoogleUsage;
  routePolylinesCache : gmap Z BusRoutes;
  providerCalls : list ProviderCall
}.

Definition set_geocodeCache (f : gmap string GeoResult -> gmap string GeoResult)
           (w : World) : World :=
  mkWorld (f (geocodeCache w)) (reverseGeocodeCache w) (googleUsage w)
          (routePolylinesCache w) (providerCalls w).

Definition set_reverseGeocodeCache
           (f : gmap string (option string) -> gmap string (option string))
           (w : World) : World :=
  mkWorld (geocodeCache w) (f (reverseGeocodeCache w)) (googleUsage w)
          (routePolylinesCache w) (providerCalls w).

Definition set_googleUsage (u : GoogleUsage) (w : World) : World :=
  mkWorld (geocodeCache w) (reverseGeocodeCache w) u
          (routePolylinesCache w) (providerCalls w).

Definition log_call (c : ProviderCall) (w : World) : World :=
  mkWorld (geocodeCache w) (reverseGeocodeCache w) (googleUsage w)
          (routePolylinesCache w) (providerCalls w ++ [c]).

(** Computations that read and update the state and may throw. *)
Definition M (A : Type) : Type := World -> Result A * World.

Definition ret {A} (a : A) : M A := fun w => (Ok a, w).
Definition throw {A} (e : Error) : M A := fun w => (Err e, w).
Definition bind {A B} (m : M A) (k : A -> M B) : M B :=
  fun w => match m w with
           | (Ok a, w') => k a w'
           | (Err e, w') => (Err e, w')
           end.
(** [try { m } catch (e) { h e }]; the state changes made before the throw
    stay. *)
Definition try_catch {A} (m : M A) (h : Error -> M A) : M A :=
  fun w => match m w with
           | (Ok a, w') => (Ok a, w')
           | (Err e, w') => h e w'
           end.
Definition get_world : M World := fun w => (Ok w, w).

(** A computation that leaves the state alone. *)
Definition lift {A} (r : Result A) : M A := fun w => (r, w).
Definition modify (f : World -> World) : M unit := fun w => (Ok tt, f w).

Notation "'do' x <- m ; k" := (bind m (fun x => k))
  (at level 10, x name, m at level 100, k at level 200).
Notation "m ;; k" := (bind m (fun _ => k))
  (at level 100, k at level 200, right associativity).

(** [checkAndIncrementGoogleUsage()] on the state. *)
Definition consumeGoogleCall (env : Env) : M bool :=
  fun w => let '(ok, u) := checkAndIncrementGoogleUsage (today env) (googleUsage w) in
           (Ok ok, set_googleUsage u w).

(** Sending a request: the call is logged, the environment answers. *)
Definition request {A} (c : ProviderCall) (reply : HttpReply A) : M (HttpReply A) :=
  modify (log_call c) ;; ret reply.

(** ** GeocodeResolver *)

(** The cache key of forward geocoding: [locationName.trim().toLowerCase()]. *)
Definition geocodeKey (locationName : string) : string :=
  toLowerCase (trim locationName).

(** [nominatimGeocode(locationName)]: resolves with the first hit (which it
    also caches), with [null] when there is none, and rejects when the
    request or the parsing fails. *)
Definition nominatimGeocode (env : Env) (locationName : string)
  : M (option GeoResult) :=
  do reply <- request (NominatimSearchCall locationName)
                      (nominatimSearchApi env locationName);
  match reply with
  | NetError => throw NetworkFailure
  | Unparsable => throw ResponseUnreadable
  | Body [] => ret None
  | Body (first :: _) =>
      let out := mkGeoResult (nom_lat first) (nom_lon first) (display_name first) in
      modify (set_geocodeCache <[geocodeKey locationName := out]>) ;;
      ret (Some out)
  end.

(** The query sent to Google: the trimmed text, with the preferred state
    appended when absent, and the preferred city appended when absent and
    the text looks like a point of interest. *)
Definition augmentQuery (env : Env) (locationName : string) : string :=
  let statePref := GEOCODE_STATE env in
  let cityPref := GEOCODE_CITY env in
  let q0 := trim locationName in
  let q1 := if truthy statePref && negb (containsCI statePref q0)
            then (q0 ++ ", " ++ statePref)%string else q0 in
  if truthy cityPref && negb (containsCI cityPref q1) && looksLikePOI q1
  then (q1 ++ ", " ++ cityPref)%string else q1.

Definition geocodeRequest (env : Env) (locationName : string) : GeocodeRequest :=
  let country := GEOCODE_COUNTRY env in
  let statePref := GEOCODE_STATE env in
  let cityPref := GEOCODE_CITY env in
  mkGeocodeRequest
    (augmentQuery env locationName)
    ((if truthy country then [String.append "country:" country] else [])
       ++ (if truthy statePref
           then [String.append "administrative_area:" statePref] else [])
       ++ (if truthy cityPref then [String.append "locality:" cityPref] else []))
    (GEOCODE_REGION env).

(** [compNames.includes(x)]. *)
Definition includes (x : string) (l : list string) : bool :=
  existsb (fun y => bool_decide (x = y)) l.

(** The [for (const r of j.results)] loop that picks a candidate; returning
    at once stands for [break]. *)
Fixpoint chooseLoop (stateNorm cityNorm : string) (results : list GeocodeCandidate)
         (chosen : option GeocodeCandidate) : option GeocodeCandidate :=
  match results with
  | [] => chosen
  | r :: rest =>
      let compNames := map (fun c => toLowerCase (long_name c)) (address_components r) in
      let wantState := truthy stateNorm in
      let wantCity := truthy cityNorm in
      let hasState := wantState && includes stateNorm compNames in
      let hasCity := wantCity && includes cityNorm compNames in
      let unchosen := negb (bool_decide (is_Some chosen)) in
      if unchosen
         || (wantState && wantCity && hasState && hasCity)
         || (wantState && hasState && negb wantCity)
         || (wantCity && hasCity && negb wantState)
      then
        if wantState && wantCity then
          if hasState && hasCity then Some r
          else chooseLoop stateNorm cityNorm rest chosen
        else if wantState && hasState then Some r
        else if wantCity && hasCity then Some r
        else if negb wantState && negb wantCity && unchosen
             then chooseLoop stateNorm cityNorm rest (Some r)
        else if unchosen then chooseLoop stateNorm cityNorm rest (Some r)
        else chooseLoop stateNorm cityNorm rest chosen
      else chooseLoop stateNorm cityNorm rest chosen
  end.

(** The candidate kept from a non-empty result list [first :: others]. *)
Definition chooseCandidate (env : Env) (first : GeocodeCandidate)
           (others : list GeocodeCandidate) : GeocodeCandidate :=
  default first (chooseLoop (toLowerCase (GEOCODE_STATE env))
                            (toLowerCase (GEOCODE_CITY env))
                            (first :: others) None).

(** [j.status || 'NO_RESULTS']. *)
Definition statusOrNoResults (st : string) : string :=
  if truthy st then st else "NO_RESULTS"%string.

(** [geocodeLocation(locationName)]. *)
Definition geocodeLocation (env : Env) (locationName : string)
  : M (option GeoResult) :=
  if negb (truthy locationName) then throw InvalidLocation
  else
    let key := geocodeKey locationName in
    do w <- get_world;
    match geocodeCache w !! key with
    | Some hit => ret (Some hit)
    | None =>
        match GOOGLE_MAPS_KEY env with
        | None => nominatimGeocode env locationName
        | Some _ =>
            do allowed <- consumeGoogleCall env;
            if negb allowed then throw UsageLimitExceeded
            else
              let rq := geocodeRequest env locationName in
              do reply <- request (GoogleGeocodeCall rq) (googleGeocodeApi env rq);
              match reply with
              | NetError => throw NetworkFailure
              | Unparsable => throw ResponseUnreadable
              | Body j =>
                  match bool_decide (gc_status j = "OK"%string), gc_results j with
                  | true, first :: others =>
                      let chosen := chooseCandidate env first others in
                      let loc := geometry_location chosen in
                      let out := mkGeoResult (lat loc) (lng loc)
                                             (candidate_address chosen) in
                      modify (set_geocodeCache <[key := out]>) ;;
                      ret (Some out)
                  | _, _ =>
                      let failed := GeocodeFailed (statusOrNoResults (gc_status j)) in
                      try_catch
                        (do resGeo <- nominatimGeocode env locationName;
                         match resGeo with
                         | Some out => ret (Some out)
                         | None => throw failed
                         end)
                        (fun _ => throw failed)
                  end
              end
        end
    end.

(** The cache key of reverse geocoding:
    [`${Number(lat).toFixed(6)},${Number(lng).toFixed(6)}`]. *)
Definition reverseKey (lat lng : jsnum) : string :=
  (toFixed6 lat ++ "," ++ toFixed6 lng)%string.

(** [nominatimReverse(lat, lng)]: the display name, or [null]. *)
Definition nominatimReverse (env : Env) (lat lng : jsnum) : M (option string) :=
  let p := mkLatLng lat lng in
  do reply <- request (NominatimReverseCall p) (nominatimReverseApi env p);
  match reply with
  | NetError => throw NetworkFailure
  | Unparsable => throw ResponseUnreadable
  | Body name => ret (if truthy name then Some name else None)
  end.

(** [reverseGeocode(lat, lng)]: an address, or [null]/[undefined] ([None]). *)
Definition reverseGeocode (env : Env) (lat lng : jsnum) : M (option string) :=
  let key := reverseKey lat lng in
  do w <- get_world;
  match reverseGeocodeCache w !! key with
  | Some hit => ret hit
  | None =>
      match GOOGLE_MAPS_KEY env with
      | None =>
          try_catch
            (do addr <- nominatimReverse env lat lng;
             match addr with
             | Some a =>
                 modify (set_reverseGeocodeCache <[key := Some a]>) ;;
                 ret (Some a)
             | None => throw KeyNotConfigured
             end)
            (fun _ => throw KeyNotConfigured)
      | Some _ =>
          do allowed <- consumeGoogleCall env;
          if negb allowed then throw UsageLimitExceeded
          else
            let p := mkLatLng lat lng in
            do reply <- request (GoogleReverseCall p) (googleReverseApi env p);
            match reply with
            | Body j =>
                match bool_decide (rv_status j = "OK"%string), rv_results j with
                | true, first :: _ =>
                    let addr := rh_address first in
                    modify (set_reverseGeocodeCache <[key := addr]>) ;;
                    ret addr
                | _, _ => ret None
                end
            | _ => ret None
            end
      end
  end.

(** [`${nLat}, ${nLng}`], the address made of the raw coordinates. *)
Definition coordinateLabel (env : Env) (nLat nLng : jsnum) : string :=
  (numberToString env nLat ++ ", " ++ numberToString env nLng)%string.

(** [addr || `${nLat}, ${nLng}`]. *)
Definition orLabel (env : Env) (addr : option string) (nLat nLng : jsnum) : string :=
  match addr with
  | Some a => if truthy a then a else coordinateLabel env nLat nLng
  | None => coordinateLabel env nLat nLng
  end.

(** [geocodeLatLng(lat, lng)]: [{ formatted_address, lat, lng }]. *)
Definition geocodeLatLng (env : Env) (nLat nLng : jsnum) : M GeoResult :=
  if isNaN nLat || isNaN nLng then throw InvalidLatLng
  else
    let viaNominatim : M GeoResult :=
      try_catch
        (do addr <- nominatimReverse env nLat nLng;
         ret (mkGeoResult nLat nLng (orLabel env addr nLat nLng)))
        (fun _ => ret (mkGeoResult nLat nLng (coordinateLabel env nLat nLng))) in
    match GOOGLE_MAPS_KEY env with
    | Some _ =>
        do allowed <- consumeGoogleCall env;
        if negb allowed then throw UsageLimitExceeded
        else
          let p := mkLatLng nLat nLng in
          do reply <- request (GoogleReverseCall p) (googleReverseApi env p);
          match reply with
          | NetError => viaNominatim
          | Unparsable => throw ResponseUnreadable
          | Body j =>
              match bool_decide (rv_status j = "OK"%string), rv_results j with
              | true, r :: _ =>
                  let loc := default p (rh_location r) in
                  ret (mkGeoResult (lat loc) (lng loc)
                                   (orLabel env (rh_address r) nLat nLng))
              | _, _ => viaNominatim
              end
          end
    | None => viaNominatim
    end.

(** Google's reverse lookup gives no address: the request fails, or the
    reply is not ["OK"] or has no result. *)
Definition reverseLookupEmpty (reply : HttpReply ReverseBody) : Prop :=
  match reply with
  | NetError => True
  | Unparsable => False
  | Body j => ~ (rv_status j = "OK"%string /\ rv_results j <> [])
  end.

(** Nominatim's reverse lookup gives no address. *)
Definition nominatimReverseFails (reply : HttpReply string) : Prop :=
  match reply with
  | Body name => truthy name = false
  | _ => True
  end.

(** ** RoutePathBuilder *)

(** [[o, ...wpList, d].map(p => ({ lat: +p.lat, lng: +p.lng }))]: the
    coordinates are numbers already, on which unary [+] is the identity. *)
Definition straightLine (o d : LatLng) (wpList : list LatLng) : list LatLng :=
  [o] ++ wpList ++ [d].

(** [getRoutePath(origin, destination, waypoints)], for points given as
    [{ lat, lng }] (none of the callers passes a [coords] field).  It never
    rejects: every failure resolves with the straight line.  A reply whose
    [overview_polyline] has no [points] decodes like the empty string. *)
Definition getRoutePath (env : Env) (o d : LatLng) (wpList : list LatLng)
  : M (list LatLng) :=
  match GOOGLE_MAPS_KEY env with
  | None => ret (straightLine o d wpList)
  | Some _ =>
      do allowed <- consumeGoogleCall env;
      if negb allowed then ret (straightLine o d wpList)
      else
        let rq := mkDirectionsRequest o d wpList in
        do reply <- request (GoogleDirectionsCall rq) (googleDirectionsApi env rq);
        match reply with
        | Body j =>
            match bool_decide (dir_status j = "OK"%string), overview_polyline j with
            | true, Some points => ret (decodePolyline points)
            | _, _ => ret (straightLine o d wpList)
            end
        | _ => ret (straightLine o d wpList)
        end
  end.

(** [stopsArr.slice(1, -1)]. *)
Definition slice_inner {A} (l : list A) : list A := removelast (tail l).

(** [buildForStops(stopsArr)] of [buildRouteForBus]. *)
Definition buildForStops (env : Env) (stopsArr : list Stop) : M (list LatLng) :=
  match stopsArr with
  | [] => ret []
  | [s] => ret [stop_point s]
  | first :: _ =>
      let origin := stop_point first in
      let destination := stop_point (List.last stopsArr first) in
      let waypoints := map stop_point (slice_inner stopsArr) in
      try_catch (getRoutePath env origin destination waypoints)
                (fun _ => ret (map stop_point stopsArr))
  end.

(** Insertion by [order], ahead of the stops of equal order: folded from the
    right it is the stable [.sort((x, y) => x.order - y.order)]. *)
Fixpoint insertByOrder (s : Stop) (l : list Stop) : list Stop :=
  match l with
  | [] => [s]
  | x :: rest =>
      if stop_order s <=? stop_order x then s :: l else x :: insertByOrder s rest
  end.

Definition sortByOrder (l : list Stop) : list Stop :=
  fold_right insertByOrder [] l.

(** [b.stops.filter(s => s.period === p).sort(...)]. *)
Definition stopsOf (p : Period) (stops : list Stop) : list Stop :=
  sortByOrder (List.filter (fun s => bool_decide (stop_period s = p)) stops).

(** [buildRouteForBus(b)]. *)
Definition buildRouteForBus (env : Env) (b : Bus) : M BusRoutes :=
  do morning <- buildForStops env (stopsOf MORNING (bus_stops b));
  do evening <- buildForStops env (stopsOf EVENING (bus_stops b));
  ret (mkBusRoutes morning evening).

(** The governor refuses the next Google call:
    [checkAndIncrementGoogleUsage()] would return [false]. *)
Definition budget_exhausted (env : Env) (w : World) : Prop :=
  fst (checkAndIncrementGoogleUsage (today env) (googleUsage w)) = false.

(** A Directions reply from which no polyline can be taken. *)
Definition noRoute (reply : HttpReply DirectionsBody) : Prop :=
  match reply with
  | Body j => ~ (dir_status j = "OK"%string /\ is_Some (overview_polyline j))
  | _ => True
  end.

(** No road path can be had: no key, no budget, or a failing provider. *)
Definition routing_unavailable (env : Env) (w : World) : Prop :=
  GOOGLE_MAPS_KEY env = None
  \/ budget_exhausted env w
  \/ forall rq, noRoute (googleDirectionsApi env rq).

(** ** Geofence: point-wise intersection (server.js, STEP 5) *)

(** *** Paths as JavaScript hands them over *)

(** What a property holds, as far as [Number()] tells values apart.  The
    values are those of plain data: what JSON can carry (the cache file,
    the database, a request body) and [undefined]. *)
Inductive JsValue : Type :=
| JsUndefined                   (* also: the property is missing *)
| JsNull
| JsBoolean (b : bool)
| JsNumber (x : jsnum)
| JsOther (asNumber : jsnum).   (* a string, an array or an object, with the
                                   number that [Number()] makes of it: NaN
                                   for "abc" and for {}, 12 for "12" and
                                   for [12], 0 for the empty string *)

(** [Number(v)]. *)
Definition toNumber (v : JsValue) : jsnum :=
  match v with
  | JsUndefined => NaN
  | JsNull => num_of_Z 0
  | JsBoolean b => num_of_Z (if b then 1 else 0)
  | JsNumber x => x
  | JsOther n => n
  end.

(** An element [path[i]].  Reading a property of [undefined] (a hole of
    the array) or of [null] throws a TypeError; every other value has the
    properties [lat] and [lng], [JsUndefined] where it has none. *)
Inductive PathEntry : Type :=
| EntryUndefined
| EntryNull
| Entry (latValue lngValue : JsValue).

(** The argument [path]. *)
Inductive JsPath : Type :=
| PathMissing                            (* [null], [undefined], another falsy value *)
| PathArrayLike (entries : list PathEntry)
                                         (* a truthy value that is not an array: what
                                            indexing gives below its [length], nothing
                                            when it has no [length] *)
| PathArray (entries : list PathEntry).

(** A point as an element of a path, and a list of points as a path. *)
Definition entry_of_point (p : LatLng) : PathEntry :=
  Entry (JsNumber (lat p)) (JsNumber (lng p)).

Definition path_of_points (pts : list LatLng) : JsPath :=
  PathArray (map entry_of_point pts).

(** [{ lat: Number(p.lat), lng: Number(p.lng) }] for [p = path[i]]. *)
Definition readEntry (e : PathEntry) : Result LatLng :=
  match e with
  | EntryUndefined | EntryNull => Err TypeError
  | Entry la lo => Ok (mkLatLng (toNumber la) (toNumber lo))
  end.

(** The entry is neither [null] nor [undefined]. *)
Definition readable (e : PathEntry) : Prop :=
  match e with
  | Entry _ _ => True
  | _ => False
  end.

(** The entry [e] is a vertex, at [p]: it can be read and both of its
    coordinates are numbers after [Number()]. *)
Definition vertex_at (e : PathEntry) (p : LatLng) : Prop :=
  match e with
  | Entry la lo =>
      p = mkLatLng (toNumber la) (toNumber lo)
      /\ isNaN (toNumber la) = false /\ isNaN (toNumber lo) = false
  | _ => False
  end.


Record MinDist : Type := mkMinDist { minDist : jsnum; minIndex : Z }.


Section Geofence.

(** [getDistance(a, b)] of geolib, in meters. *)
Variable getDistance : LatLng -> LatLng -> jsnum.

(** The guard [Number.isNaN(lat) || Number.isNaN(lng)] that makes the
    loops [continue]. *)
Definition skipped (p : LatLng) : bool := isNaN (lat p) || isNaN (lng p).

(** The [for] loop of [isPathIntersectsCircle].  [minDist] and [minIndex]
    of the source only feed the debug log and are left out. *)
Fixpoint intersectsLoop (center : LatLng) (radiusMeters : jsnum)
         (path : list PathEntry) : Result bool :=
  match path with
  | [] => Ok false
  | e :: rest =>
      match readEntry e with
      | Err err => Err err
      | Ok p =>
          if skipped p then intersectsLoop center radiusMeters rest
          else
            let d := getDistance p center in
            if num_le d radiusMeters then Ok true
            else intersectsLoop center radiusMeters rest
      end
  end.

(** [isPathIntersectsCircle(userLocation, path, radiusMeters)]. *)
Definition isPathIntersectsCircle (userLocation : LatLng)
           (path : JsPath) (radiusMeters : jsnum) : Result bool :=
  match path with
  | PathMissing => Ok false
  | PathArrayLike [] | PathArray [] => Ok false
  | PathArrayLike entries | PathArray entries =>
      intersectsLoop userLocation radiusMeters entries
  end.

(** The [for] loop of [getMinDistanceAlongPath], from index [i] on. *)
Fixpoint minDistLoop (center : LatLng) (path : list PathEntry) (i : Z)
         (acc : MinDist) : Result MinDist :=
  match path with
  | [] => Ok acc
  | e :: rest =>
      match readEntry e with
      | Err err => Err err
      | Ok p =>
          if skipped p then minDistLoop center rest (i + 1) acc
          else
            let d := getDistance p center in
            let acc' := if num_lt d (minDist acc) then mkMinDist d i else acc in
            minDistLoop center rest (i + 1) acc'
      end
  end.

(** [getMinDistanceAlongPath(userLocation, path)]: only an array is looked
    at ([Array.isArray]). *)
Definition getMinDistanceAlongPath (userLocation : LatLng)
           (path : JsPath) : Result MinDist :=
  let init := mkMinDist PosInf (-1) in
  match path with
  | PathArray (e :: rest) => minDistLoop userLocation (e :: rest) 0 init
  | _ => Ok init
  end.

(** [m] is the smallest distance from [center] to a vertex of [path]: [m]
    is a number, no vertex is closer than [m], and [m] is the distance of
    one of them, or [Infinity] when none is below it. *)
Definition is_min_vertex_distance (center : LatLng) (path : list PathEntry)
           (m : jsnum) : Prop :=
  isNaN m = false
  /\ (forall e p, e ∈ path -> vertex_at e p -> num_lt (getDistance p center) m = false)
  /\ (m = PosInf
      \/ exists e p, e ∈ path /\ vertex_at e p /\ getDistance p center = m).

(** Some vertex of [path] lies within [r] of [center]. *)
Definition some_vertex_within (center : LatLng) (r : jsnum)
           (path : list PathEntry) : Prop :=
  exists e p, e ∈ path /\ vertex_at e p /\ num_le (getDistance p center) r = true.

End Geofence.

(** ** ProximityMatcher *)

Record CheckResult : Type := mkCheckResult {
  intersects : bool;
  stopCount : Z;
  routePath : list LatLng
}.

Section ProximityMatcher.

Variable getDistance : LatLng -> LatLng -> jsnum.

(** The [reduce] that counts the stops within the radius. *)
Definition countStopsWithin (userLocation : LatLng) (radiusMeters : jsnum)
           (stopsArr : list Stop) : Z :=
  fold_left (fun acc s =>
               acc + (if num_le (getDistance userLocation (stop_point s)) radiusMeters
                      then 1 else 0))
            stopsArr 0.

(** The polyline of one direction of a cached entry. *)
Definition cachedRoute (routeType : Period) (c : BusRoutes) : list LatLng :=
  match routeType with
  | MORNING => morningRoute c
  | EVENING => eveningRoute c
  end.

(** [checkRouteStops(stopsArr, routeType)] inside [findNearbyBusesDb], for
    the bus with id [busId]. *)
Definition checkRouteStops (env : Env) (userLocation : LatLng)
           (radiusMeters : jsnum) (busId : Z)
           (stopsArr : list Stop) (routeType : Period) : M CheckResult :=
  match stopsArr with
  | [] => ret (mkCheckResult false 0 [])
  | [s] =>
      let dist := getDistance userLocation (stop_point s) in
      if num_le dist radiusMeters
      then ret (mkCheckResult true 1 [stop_point s])
      else ret (mkCheckResult false 0 [stop_point s])
  | first :: _ =>
      do path <-
        try_catch
          (do w <- get_world;
           match cachedRoute routeType <$> routePolylinesCache w !! busId with
           | Some (p :: ps) => ret (p :: ps)
           | _ =>
               let origin := stop_point first in
               let destination := stop_point (List.last stopsArr first) in
               let waypoints := map stop_point (slice_inner stopsArr) in
               getRoutePath env origin destination waypoints
           end)
          (fun _ => ret (map stop_point stopsArr));
      do nearest <- lift (getMinDistanceAlongPath getDistance userLocation
                                                  (path_of_points path));
      let m := minDist nearest in
      if num_le m radiusMeters
      then ret (mkCheckResult true
                              (countStopsWithin userLocation radiusMeters stopsArr)
                              path)
      else ret (mkCheckResult false 0 path)
  end.

End ProximityMatcher.

(** ** RoutePolylineCache *)

(** *** The debounced rebuild scheduler *)

Record Scheduler : Type := mkScheduler {
  lastRouteBuildTs : Z;              (* [_lastRouteBuildTs] *)
  routeRebuildTimer : option Z;      (* [_routeRebuildTimer]: when it fires *)
  builds : list Z                    (* when [buildAllRoutePolylines] started *)
}.

(** The state at start-up: no build yet, no timer. *)
Definition scheduler_init : Scheduler := mkScheduler 0 None [].

(** [scheduleRouteCacheRebuild(immediate)] at time [now]: a pending timer is
    cleared and a new one set. *)
Definition scheduleRouteCacheRebuild (cooldown : Z) (immediate : bool) (now : Z)
           (s : Scheduler) : Scheduler :=
  let since := now - lastRouteBuildTs s in
  let delay := if immediate then 0 else Z.max 0 (cooldown - since) in
  mkScheduler (lastRouteBuildTs s) (Some (now + delay)) (builds s).

(** The timer callback, run at time [now]. *)
Definition timerFires (now : Z) (s : Scheduler) : Scheduler :=
  mkScheduler now None (builds s ++ [now]).

(** Letting the clock reach [now], the time of the next signal: a timer set
    for an earlier time has fired, at the time it was set for.  A signal
    that arrives at the very time the timer is set for comes first (as do
    the calls made one after the other in one turn of the event loop, which
    clear each other's timers). *)
Definition advance (now : Z) (s : Scheduler) : Scheduler :=
  match routeRebuildTimer s with
  | Some fireAt => if fireAt <? now then timerFires fireAt s else s
  | None => s
  end.

(** Letting the clock run until nothing is pending. *)
Definition settle (s : Scheduler) : Scheduler :=
  match routeRebuildTimer s with
  | Some fireAt => timerFires fireAt s
  | None => s
  end.

(** A rebuild signal: the time it arrives and its [immediate] flag. *)
Record Signal : Type := mkSignal { sig_time : Z; sig_immediate : bool }.

(** Signals arriving in the order of the list, the clock advancing to each
    one, and finally running until nothing is pending. *)
Fixpoint runSignals (cooldown : Z) (sigs : list Signal) (s : Scheduler) : Scheduler :=
  match sigs with
  | [] => settle s
  | sg :: rest =>
      runSignals cooldown rest
                 (scheduleRouteCacheRebuild cooldown (sig_immediate sg) (sig_time sg)
                                            (advance (sig_time sg) s))
  end.

(** The timer, if any, is not set for earlier than [t]. *)
Definition pending_after (t : Z) (s : Scheduler) : Prop :=
  forall fireAt, routeRebuildTimer s = Some fireAt -> t <= fireAt.

(** The default of [ROUTE_BUILD_COOLDOWN_MS]: five minutes. *)
Definition ROUTE_BUILD_COOLDOWN_MS : Z := 300000.

(** *** The persisted cache (routeCacheManager.js) *)

Definition ROUTE_CACHE_REFRESH_HOURS : Z := 2.

(** Two hours, in milliseconds. *)
Definition TTL_MS : Z := 7200000.

(** A row of the [routeCache] table. *)
Record RouteCacheRow (Data : Type) : Type := mkRouteCacheRow {
  routeData : Data;
  updatedAt : Z
}.
Arguments mkRouteCacheRow {Data} routeData updatedAt.
Arguments routeData {Data} r.
Arguments updatedAt {Data} r.

(** The table, keyed by [(busId, period)]; [DbDown] when the query throws. *)
Inductive RouteCacheDb (Data : Type) : Type :=
| DbDown
| DbUp (rows : gmap (Z * string) (RouteCacheRow Data)).
Arguments DbDown {Data}.
Arguments DbUp {Data} rows.

(** [getRouteFromCache(busId, period)] at time [now]; [busId] is the value of
    [parseInt(busId)]. *)
Definition getRouteFromCache {Data} (db : RouteCacheDb Data) (now : Z)
           (busId : Z) (period : string) : option Data :=
  match db with
  | DbDown => None
  | DbUp rows =>
      match rows !! (busId, toUpperCase period) with
      | None => None
      | Some cached =>
          let cacheAge := now - updatedAt cached in
          let maxAge := ROUTE_CACHE_REFRESH_HOURS * 60 * 60 * 1000 in
          if maxAge <? cacheAge then None else Some (routeData cached)
      end
  end.

(** [saveRouteToCache(busId, period, routeData)] at time [now]. *)
Definition saveRouteToCache {Data} (db : RouteCacheDb Data) (now : Z)
           (busId : Z) (period : string) (data : Data) : RouteCacheDb Data :=
  match db with
  | DbDown => DbDown
  | DbUp rows => DbUp (<[(busId, toUpperCase period) := mkRouteCacheRow data now]> rows)
  end.

(** [clearExpiredCache()] at time [now]: rows with [updatedAt < now - maxAge]
    are deleted. *)
Definition clearExpiredCache {Data} (db : RouteCacheDb Data) (now : Z)
  : RouteCacheDb Data :=
  match db with
  | DbDown => DbDown
  | DbUp rows =>
      let expiryTime := now - ROUTE_CACHE_REFRESH_HOURS * 60 * 60 * 1000 in
      DbUp (filter (fun kv => ¬ (updatedAt (snd kv) < expiryTime)) rows)
  end.

(** ** Fixtures used by the examples *)

(** A stand-in for geolib's distance on small examples: 111 km per degree
    along each axis, summed. *)
Definition sample_getDistance (a b : LatLng) : jsnum :=
  match lat a, lng a, lat b, lng b with
  | Fin x1, Fin y1, Fin x2, Fin y2 =>
      Fin (111000 * (Qabs (x1 - x2) + Qabs (y1 - y2)))%Q
  | _, _, _, _ => NaN
  end.


(** No API key, and every request fails: no provider is available. *)
Definition offline_env : Env :=
  mkEnv None "" "" "" "" "2025-01-01"
        (fun _ => NetError) (fun _ => NetError) (fun _ => NetError)
        (fun _ => NetError) (fun _ => NetError)
        (fun x => toFixed6 x).

(** A Google key is configured, yet every request fails. *)
Definition keyed_env : Env :=
  mkEnv (Some "key"%string) "" "" "" "" "2025-01-01"
        (fun _ => NetError) (fun _ => NetError) (fun _ => NetError)
        (fun _ => NetError) (fun _ => NetError)
        (fun x => toFixed6 x).

(** No API key; Nominatim knows one place and one address. *)
Definition nominatim_only_env : Env :=
  mkEnv None "" "" "" "" "2025-01-01"
        (fun _ => NetError)
        (fun _ => Body [mkNominatimHit (Fin (165 # 10)) (Fin (8065 # 100))
                                       "Benz Circle, Vijayawada"])
        (fun _ => NetError)
        (fun _ => Body "Benz Circle, Vijayawada"%string)
        (fun _ => NetError)
        (fun x => toFixed6 x).

(** Empty caches, nothing logged, [used] of [limit] daily calls consumed. *)
Definition world_with_usage (used limit : Z) : World :=
  mkWorld ∅ ∅ (mkGoogleUsage "2025-01-01" used limit) ∅ [].

Definition fresh_world : World := world_with_usage 0 1000.

Definition stop_at (name : string) (la lo : Z) (p : Period) (order : Z) : Stop :=
  mkStop name (num_of_Z la) (num_of_Z lo) p order.

(** ** Further parts of the server *)

(** *** Runs of the daily budget *)

(** Calls of [checkAndIncrementGoogleUsage()] made one after the other, the
    k-th one on the day [days !! k]. *)
Fixpoint consumeCalls (days : list string) (u : GoogleUsage) : list bool * GoogleUsage :=
  match days with
  | [] => ([], u)
  | d :: rest =>
      let '(ok, u1) := checkAndIncrementGoogleUsage d u in
      let '(oks, u2) := consumeCalls rest u1 in
      (ok :: oks, u2)
  end.

(** *** The state of one client of the availability check *)

(** Both counters of the client (address [ip], contact key [key]) stand at
    [k], in the window that started at [t0]. *)
Definition client_at (st : Counters) (ip key : string) (k t0 : Z) : Prop :=
  availabilityCounters st !! ip = Some (mkCounter k t0)
  /\ availabilityContactCounters st !! key = Some (mkCounter k t0).

(** The lower of the two hourly caps. *)
Definition lowerCap (lim : RateLimits) : Z :=
  Z.min (AVAILABILITY_LIMIT_PER_HOUR lim) (AVAILABILITY_LIMIT_PER_CONTACT_PER_HOUR lim).

(** The well-formed checks of one client at the given times. *)
Definition checksAt (ip contact : string) (times : list Z) : list Request :=
  map (fun t => mkRequest t ip (Some contact) true) times.

(** *** Login attempts (the head of [POST /api/admin/login]) *)

Record LoginRecord : Type := mkLoginRecord { attempts : Z; firstTs : Z }.

Record LoginLimits : Type := mkLoginLimits {
  LOGIN_MAX_ATTEMPTS : Z;
  LOGIN_WINDOW_MS : Z
}.

(** Six attempts per quarter of an hour, unless the environment says
    otherwise. *)
Definition default_login_limits : LoginLimits := mkLoginLimits 6 (15 * 60 * 1000).

(** [cleanStaleLoginAttempts()] at time [now]. *)
Definition cleanStaleLoginAttempts (lim : LoginLimits) (now : Z)
           (loginAttempts : gmap string LoginRecord) : gmap string LoginRecord :=
  filter (fun kv => ~ (LOGIN_WINDOW_MS lim < now - firstTs (snd kv))) loginAttempts.

Inductive LoginGate : Type :=
| TooManyAttempts (attemptsUsed retryAfterSeconds : Z)   (* 429 *)
| Proceed.                                               (* credentials are looked at *)

(** [retryMs > 0 ? Math.ceil(retryMs / 1000) : 0]. *)
Definition retryAfter (retryMs : Z) : Z :=
  if 0 <? retryMs then (retryMs + 999) / 1000 else 0.

(** The rate limit at the head of the login handler, at time [now] for the
    address [ip]: the attempt is counted first, then judged. *)
Definition loginAttempt (lim : LoginLimits) (now : Z) (ip : string)
           (loginAttempts : gmap string LoginRecord)
  : LoginGate * gmap string LoginRecord :=
  let rec0 := default (mkLoginRecord 0 now) (loginAttempts !! ip) in
  let rec1 := if LOGIN_WINDOW_MS lim <? now - firstTs rec0
              then mkLoginRecord 0 now else rec0 in
  let rec2 := mkLoginRecord (attempts rec1 + 1) (firstTs rec1) in
  let m := <[ip := rec2]> loginAttempts in
  if LOGIN_MAX_ATTEMPTS lim <? attempts rec2
  then (TooManyAttempts (attempts rec2 - 1)
                        (retryAfter (firstTs rec2 + LOGIN_WINDOW_MS lim - now)), m)
  else (Proceed, m).

(** Attempts from one address at the times of the list. *)
Fixpoint loginAttempts_run (lim : LoginLimits) (ip : string) (times : list Z)
         (m : gmap string LoginRecord) : list LoginGate * gmap string LoginRecord :=
  match times with
  | [] => ([], m)
  | t :: rest =>
      let '(o, m1) := loginAttempt lim t ip m in
      let '(os, m2) := loginAttempts_run lim ip rest m1 in
      (o :: os, m2)
  end.

(** *** Provider requests in the log *)

Definition isGoogleCall (c : ProviderCall) : bool :=
  match c with
  | GoogleGeocodeCall _ | GoogleReverseCall _ | GoogleDirectionsCall _ => true
  | NominatimSearchCall _ | NominatimReverseCall _ => false
  end.

(** How many of the calls went to Google. *)
Definition googleCalls (calls : list ProviderCall) : nat :=
  length (List.filter isGoogleCall calls).

(** What an operation did to the daily budget and to the network, from [w]
    to [w']: either it left the budget alone and asked Google nothing, or it
    asked the governor, which refused, and then it sent nothing at all, or
    the governor granted one unit and exactly one request went to Google.
    [new] are the requests it sent. *)
Definition budget_respected (env : Env) (w w' : World) (new : list ProviderCall) : Prop :=
  providerCalls w' = providerCalls w ++ new
  /\ ((googleUsage w' = googleUsage w /\ googleCalls new = 0%nat)
      \/ (is_Some (GOOGLE_MAPS_KEY env) /\ budget_exhausted env w /\ new = []
          /\ googleUsage w' = snd (checkAndIncrementGoogleUsage (today env) (googleUsage w)))
      \/ (is_Some (GOOGLE_MAPS_KEY env) /\ ~ budget_exhausted env w
          /\ googleCalls new = 1%nat
          /\ googleUsage w' = snd (checkAndIncrementGoogleUsage (today env) (googleUsage w)))).

(** The configured preferences that a candidate satisfies: every preference
    that is set occurs among the candidate's component names. *)
Definition matchesPreferences (stateNorm cityNorm : string) (r : GeocodeCandidate) : bool :=
  let compNames := map (fun c => toLowerCase (long_name c)) (address_components r) in
  (negb (truthy stateNorm) || includes stateNorm compNames)
  && (negb (truthy cityNorm) || includes cityNorm compNames).

(** *** Rebuilding the in-memory route cache *)

(** [routePolylinesCache.set(id, routes)]. *)
Definition set_routePolylinesCache (f : gmap Z BusRoutes -> gmap Z BusRoutes)
           (w : World) : World :=
  mkWorld (geocodeCache w) (reverseGeocodeCache w) (googleUsage w)
          (f (routePolylinesCache w)) (providerCalls w).

(** The [for (const b of buses)] loop of [buildAllRoutePolylines]: a bus
    whose build throws is passed over. *)
Fixpoint buildAllLoop (env : Env) (buses : list Bus) (w : World) : World :=
  match buses with
  | [] => w
  | b :: rest =>
      match buildRouteForBus env b w with
      | (Ok routes, w1) =>
          buildAllLoop env rest (set_routePolylinesCache <[bus_id b := routes]> w1)
      | (Err _, w1) => buildAllLoop env rest w1
      end
  end.

(** [buildAllRoutePolylines()]: [buses] is what [prisma.bus.findMany]
    returned, [None] when it threw; [diskWritable] tells whether
    [saveRouteCacheToDisk] could write.  Returns the new state and the
    snapshot written to disk, if any (the JSON object, its keys being the
    bus ids). *)
Definition buildAllRoutePolylines (env : Env) (buses : option (list Bus))
           (diskWritable : bool) (w : World) : World * option (gmap Z BusRoutes) :=
  match buses with
  | None => (w, None)
  | Some bs =>
      let w' := buildAllLoop env bs w in
      (w', if diskWritable then Some (routePolylinesCache w') else None)
  end.

(** *** [findNearbyBusesDb] *)

(** [x * 1000] on numbers. *)
Definition times1000 (x : jsnum) : jsnum :=
  match x with
  | Fin q => Fin (q * 1000)%Q
  | other => other
  end.

(** A row of the [Bus] table with its stops, as far as [findNearbyBusesDb]
    reads it. *)
Record BusRow : Type := mkBusRow {
  row_bus : Bus;
  bus_number : string;
  bus_name : string;
  bus_location : string
}.

(** [{ name, lat, lng }]. *)
Record StopInfo : Type := mkStopInfo { si_name : string; si_lat : jsnum; si_lng : jsnum }.

Definition stop_info (s : Stop) : StopInfo :=
  mkStopInfo (stop_name s) (stop_lat s) (stop_lng s).

(** One element of the result of [findNearbyBusesDb]; the two fields of
    [routeDetails] are [None] when the direction does not intersect. *)
Record NearbyBus : Type := mkNearbyBus {
  nb_busNumber : string;
  nb_busName : string;
  nb_location : string;
  totalNearbyStops : Z;
  nb_morningStops : list StopInfo;
  nb_eveningStops : list StopInfo;
  details_morningRoute : option (list LatLng);
  details_eveningRoute : option (list LatLng)
}.

(** The local variables [intersects], [nearbyStopCount], [routeDetails] of
    the loop body. *)
Record BusTally : Type := mkBusTally {
  t_intersects : bool;
  t_nearbyStopCount : Z;
  t_morningRoute : option (list LatLng);
  t_eveningRoute : option (list LatLng)
}.

Definition tally_init : BusTally := mkBusTally false 0 None None.

Definition tally_morning (c : CheckResult) (t : BusTally) : BusTally :=
  if intersects c
  then mkBusTally true (t_nearbyStopCount t + stopCount c) (Some (routePath c))
                  (t_eveningRoute t)
  else t.

Definition tally_evening (c : CheckResult) (t : BusTally) : BusTally :=
  if intersects c
  then mkBusTally true (t_nearbyStopCount t + stopCount c) (t_morningRoute t)
                  (Some (routePath c))
  else t.

Section FindNearbyBuses.

Variable getDistance : LatLng -> LatLng -> jsnum.

(** The [catch] block of the loop body: the stops of both directions that
    lie within the radius are counted. *)
Definition tally_fallback (userLocation : LatLng) (radiusMeters : jsnum)
           (morning evening : list Stop) (t : BusTally) : BusTally :=
  let fallbackCount := countStopsWithin getDistance userLocation radiusMeters
                                        (morning ++ evening) in
  if 0 <? fallbackCount
  then mkBusTally true fallbackCount (t_morningRoute t) (t_eveningRoute t)
  else t.

(** The body of the [for (const b of buses)] loop up to the decision: both
    directions are checked; should a check throw, the [catch] block takes
    over with what the [try] block had set so far. *)
Definition tallyBus (env : Env) (userLocation : LatLng) (radiusMeters : jsnum)
           (b : BusRow) : World -> BusTally * World :=
  fun w =>
    let morning := stopsOf MORNING (bus_stops (row_bus b)) in
    let evening := stopsOf EVENING (bus_stops (row_bus b)) in
    let id := bus_id (row_bus b) in
    match checkRouteStops getDistance env userLocation radiusMeters id morning MORNING w with
    | (Err _, w1) =>
        (tally_fallback userLocation radiusMeters morning evening tally_init, w1)
    | (Ok morningCheck, w1) =>
        let t1 := tally_morning morningCheck tally_init in
        match checkRouteStops getDistance env userLocation radiusMeters id
                              evening EVENING w1 with
        | (Err _, w2) =>
            (tally_fallback userLocation radiusMeters morning evening t1, w2)
        | (Ok eveningCheck, w2) => (tally_evening eveningCheck t1, w2)
        end
    end.

(** The element pushed for a bus whose tally says it intersects. *)
Definition nearbyBus (b : BusRow) (t : BusTally) : NearbyBus :=
  mkNearbyBus (bus_number b) (bus_name b) (bus_location b) (t_nearbyStopCount t)
              (map stop_info (stopsOf MORNING (bus_stops (row_bus b))))
              (map stop_info (stopsOf EVENING (bus_stops (row_bus b))))
              (t_morningRoute t) (t_eveningRoute t).

Fixpoint nearbyLoop (env : Env) (userLocation : LatLng) (radiusMeters : jsnum)
         (buses : list BusRow) (w : World) : list NearbyBus * World :=
  match buses with
  | [] => ([], w)
  | b :: rest =>
      let '(t, w1) := tallyBus env userLocation radiusMeters b w in
      let '(found, w2) := nearbyLoop env userLocation radiusMeters rest w1 in
      (if t_intersects t then nearbyBus b t :: found else found, w2)
  end.

(** [findNearbyBusesDb(userLocation, radiusKm)], given the rows that
    [prisma.bus.findMany] returned. *)
Definition findNearbyBusesDb (env : Env) (userLocation : LatLng) (radiusKm : jsnum)
           (buses : list BusRow) (w : World) : list NearbyBus * World :=
  nearbyLoop env userLocation (times1000 radiusKm) buses w.

End FindNearbyBuses.

(** *** More of routeCacheManager.js *)

(** [getAllRoutesForBus(busId)]: [{ morningRoute, eveningRoute }], each
    [routeData || null]; [falsy] tells which stored values JavaScript takes
    for false. *)
Definition getAllRoutesForBus {Data} (falsy : Data -> bool) (db : RouteCacheDb Data)
           (busId : Z) : option Data * option Data :=
  match db with
  | DbDown => (None, None)
  | DbUp rows =>
      let pick (period : string) :=
        match rows !! (busId, period) with
        | Some r => if falsy (routeData r) then None else Some (routeData r)
        | None => None
        end in
      (pick "MORNING"%string, pick "EVENING"%string)
  end.

(** *** More fixtures *)

(** No API key, and Nominatim knows nothing. *)
Definition nominatim_empty_env : Env :=
  mkEnv None "" "" "" "" "2025-01-01"
        (fun _ => NetError) (fun _ => Body []) (fun _ => NetError)
        (fun _ => Body ""%string) (fun _ => NetError)
        (fun x => toFixed6 x).

(** A key is configured and Directions answers with the polyline of the
    format's documentation. *)
Definition directions_env : Env :=
  mkEnv (Some "key"%string) "" "" "" "" "2025-01-01"
        (fun _ => NetError) (fun _ => NetError) (fun _ => NetError)
        (fun _ => NetError)
        (fun _ => Body (mkDirectionsBody "OK" (Some "_p~iF~ps|U_ulLnnqC_mqNvxq`@"%string)))
        (fun x => toFixed6 x).

(** *** Gaps between builds *)

(** Each time of [l] comes at least [gap] after the one before it, the first
    one at least [gap] after [prev]. *)
Fixpoint spaced (gap prev : Z) (l : list Z) : Prop :=
  match l with
  | [] => True
  | x :: rest => prev + gap <= x /\ spaced gap x rest
  end.


(* ================================================================== *)
(** * Part II. Properties                                              *)
(* ================================================================== *)

(** ** Order facts on numbers *)

Lemma num_lt_not_nan a b : num_lt a b = true -> isNaN a = false /\ isNaN b = false.
Proof. destruct a, b; simpl; intros H; try discriminate; auto. Qed.

Lemma num_le_not_nan a b : num_le a b = true -> isNaN a = false /\ isNaN b = false.
Proof. destruct a, b; simpl; intros H; try discriminate; auto. Qed.

Lemma num_lt_irrefl a : num_lt a a = false.
Proof.
  destruct a; simpl; auto.
  apply negb_false_iff, Qle_bool_iff, Qle_refl.
Qed.

Lemma Qlt_bool_spec x y : negb (Qle_bool y x) = true <-> (x < y)%Q.
Proof.
  rewrite negb_true_iff. split.
  - intros H. apply Qnot_le_lt. intros Hle. apply Qle_bool_iff in Hle. congruence.
  - intros H. destruct (Qle_bool y x) eqn:E; auto.
    apply Qle_bool_iff in E. exfalso. eapply Qlt_not_le; eauto.
Qed.

Lemma num_lt_trans a b c : num_lt a b = true -> num_lt b c = true -> num_lt a c = true.
Proof.
  destruct a, b, c; simpl; intros H1 H2; try discriminate; auto.
  apply Qlt_bool_spec. apply Qlt_bool_spec in H1, H2. eapply Qlt_trans; eauto.
Qed.

Lemma num_le_trans a b c : num_le a b = true -> num_le b c = true -> num_le a c = true.
Proof.
  destruct a, b, c; simpl; intros H1 H2; try discriminate; auto.
  apply Qle_bool_iff. apply Qle_bool_iff in H1, H2. eapply Qle_trans; eauto.
Qed.

(** Numbers other than NaN are totally ordered. *)
Lemma num_not_lt_le a b :
  isNaN a = false -> isNaN b = false -> num_lt a b = false -> num_le b a = true.
Proof.
  destruct a, b; simpl; intros Ha Hb H; try discriminate; auto.
  apply negb_false_iff in H. exact H.
Qed.

Lemma num_le_PosInf_l r : num_le PosInf r = true -> r = PosInf.
Proof. destruct r; simpl; intros H; try discriminate; auto. Qed.

(** Raising the bound keeps [d <= r] true. *)
Lemma num_le_mono_r d r1 r2 :
  num_le r1 r2 = true -> num_le d r1 = true -> num_le d r2 = true.
Proof. intros H1 H2. eapply num_le_trans; eauto. Qed.

(** ** Running computations *)

Lemma bind_ok {A B} (m : M A) (k : A -> M B) w a w' :
  m w = (Ok a, w') -> bind m k w = k a w'.
Proof. unfold bind. by intros ->. Qed.

Lemma bind_err {A B} (m : M A) (k : A -> M B) w e w' :
  m w = (Err e, w') -> bind m k w = (Err e, w').
Proof. unfold bind. by intros ->. Qed.

(** ** The point-wise intersection decision *)

Section GeofenceProperties.

Variable getDistance : LatLng -> LatLng -> jsnum.

(** *** Reading entries *)

Lemma readEntry_point p : readEntry (entry_of_point p) = Ok p.
Proof. by destruct p. Qed.

Lemma readable_points pts : Forall readable (map entry_of_point pts).
Proof. induction pts; by constructor. Qed.

Lemma vertex_at_point q p :
  vertex_at (entry_of_point q) p
  <-> p = q /\ isNaN (lat q) = false /\ isNaN (lng q) = false.
Proof. destruct q as [la lo]. simpl. tauto. Qed.

(** The guard of the loops passes exactly the vertices. *)
Lemma vertex_at_iff e p :
  vertex_at e p <-> readEntry e = Ok p /\ skipped p = false.
Proof.
  destruct e as [| |la lo]; simpl; [split; [tauto | intros [[=] _]] ..|].
  unfold skipped. split.
  - intros (-> & Hla & Hlo). simpl. by rewrite Hla, Hlo.
  - intros [[= <-] Hs]. simpl in Hs. apply orb_false_iff in Hs. tauto.
Qed.


Lemma readEntry_readable e : readable e <-> exists p, readEntry e = Ok p.
Proof.
  destruct e as [| |la lo]; simpl.
  - split; [tauto | intros [p [=]]].
  - split; [tauto | intros [p [=]]].
  - split; [eauto | tauto].
Qed.


(** *** The loop of [isPathIntersectsCircle] *)

Lemma intersectsLoop_cons center r e rest p :
  readEntry e = Ok p ->
  intersectsLoop getDistance center r (e :: rest)
  = if skipped p then intersectsLoop getDistance center r rest
    else if num_le (getDistance p center) r then Ok true
         else intersectsLoop getDistance center r rest.
Proof. intros H. cbn [intersectsLoop]. by rewrite H. Qed.

(** An intersection is always due to a vertex within the radius. *)
Lemma intersectsLoop_true center r path :
  intersectsLoop getDistance center r path = Ok true ->
  some_vertex_within getDistance center r path.
Proof.
  unfold some_vertex_within. induction path as [|e rest IH]; [discriminate|].
  destruct (readEntry e) as [p|err] eqn:He; [|cbn [intersectsLoop]; by rewrite He].
  rewrite (intersectsLoop_cons _ _ _ _ _ He).
  destruct (skipped p) eqn:Hs.
  - intros H. destruct (IH H) as (e' & p' & Hin & Hv & Hd).
    exists e', p'. split; [by right | done].
  - destruct (num_le (getDistance p center) r) eqn:Hd.
    + intros _. exists e, p. split; [by left|]. split; [|done]. by apply vertex_at_iff.
    + intros H. destruct (IH H) as (e' & p' & Hin & Hv & Hd').
      exists e', p'. split; [by right | done].
Qed.

(** Without a vertex within the radius the loop does not answer [true]. *)
Lemma intersectsLoop_within center r path b :
  intersectsLoop getDistance center r path = Ok b ->
  some_vertex_within getDistance center r path -> b = true.
Proof.
  unfold some_vertex_within. induction path as [|e rest IH].
  - intros _ (e & p & Hin & _). inversion Hin.
  - destruct (readEntry e) as [p|err] eqn:He; [|cbn [intersectsLoop]; by rewrite He].
    rewrite (intersectsLoop_cons _ _ _ _ _ He).
    intros Hloop (e' & p' & Hin & Hv & Hd).
    apply elem_of_cons in Hin as [->|Hin].
    + apply vertex_at_iff in Hv as [Hr Hs]. rewrite He in Hr. injection Hr as ->.
      rewrite Hs, Hd in Hloop. congruence.
    + destruct (skipped p); [by eauto 6|].
      destruct (num_le (getDistance p center) r); [congruence | by eauto 6].
Qed.

(** On entries that can all be read the loop answers. *)
Lemma intersectsLoop_readable center r path :
  Forall readable path ->
  exists b, intersectsLoop getDistance center r path = Ok b.
Proof.
  induction 1 as [|e rest He _ [b IH]]; [by exists false|].
  apply readEntry_readable in He as [p He].
  rewrite (intersectsLoop_cons _ _ _ _ _ He).
  destruct (skipped p); [by eauto|]. destruct (num_le _ _); by eauto.
Qed.



(** *** The loop of [getMinDistanceAlongPath] *)

Lemma minDistLoop_cons center e rest i acc p :
  readEntry e = Ok p ->
  minDistLoop getDistance center (e :: rest) i acc
  = if skipped p then minDistLoop getDistance center rest (i + 1) acc
    else minDistLoop getDistance center rest (i + 1)
           (if num_lt (getDistance p center) (minDist acc)
            then mkMinDist (getDistance p center) i else acc).
Proof. intros H. cbn [minDistLoop]. by rewrite H. Qed.

(** The loop answers exactly on the paths whose entries can all be read;
    the only error is the TypeError. *)
Lemma minDistLoop_readable center path : forall i acc,
  Forall readable path ->
  exists md, minDistLoop getDistance center path i acc = Ok md.
Proof.
  induction path as [|e rest IH]; intros i acc Hall; [by eauto|].
  inversion Hall as [|? ? He Hrest]; subst.
  apply readEntry_readable in He as [p He].
  rewrite (minDistLoop_cons _ _ _ _ _ _ He).
  destruct (skipped p); by apply IH.
Qed.


(** The running minimum only goes down. *)
Lemma minDistLoop_below center path : forall i acc md x,
  minDistLoop getDistance center path i acc = Ok md ->
  num_lt x (minDist md) = true ->
  num_lt x (minDist acc) = true.
Proof.
  induction path as [|e rest IH]; intros i acc md x Hloop H.
  - by injection Hloop as <-.
  - destruct (readEntry e) as [p|err] eqn:He;
      [|cbn [minDistLoop] in Hloop; by rewrite He in Hloop].
    rewrite (minDistLoop_cons _ _ _ _ _ _ He) in Hloop.
    destruct (skipped p); [by eapply IH|].
    eapply IH in H; [|exact Hloop].
    destruct (num_lt (getDistance p center) (minDist acc)) eqn:E; [|done].
    simpl in H. eapply num_lt_trans; eauto.
Qed.

Lemma minDistLoop_not_nan center path : forall i acc md,
  minDistLoop getDistance center path i acc = Ok md ->
  isNaN (minDist acc) = false ->
  isNaN (minDist md) = false.
Proof.
  induction path as [|e rest IH]; intros i acc md Hloop H.
  - by injection Hloop as <-.
  - destruct (readEntry e) as [p|err] eqn:He;
      [|cbn [minDistLoop] in Hloop; by rewrite He in Hloop].
    rewrite (minDistLoop_cons _ _ _ _ _ _ He) in Hloop.
    destruct (skipped p); [by eapply IH|].
    eapply IH; [exact Hloop|].
    destruct (num_lt (getDistance p center) (minDist acc)) eqn:E; [|done].
    simpl. by apply num_lt_not_nan in E as [? _].
Qed.

Lemma minDistLoop_lower_bound center path : forall i acc md e p,
  minDistLoop getDistance center path i acc = Ok md ->
  e ∈ path -> vertex_at e p ->
  num_lt (getDistance p center) (minDist md) = false.
Proof.
  induction path as [|e0 rest IH]; intros i acc md e p Hloop Hin Hv; [inversion Hin|].
  destruct (readEntry e0) as [p0|err] eqn:He;
    [|cbn [minDistLoop] in Hloop; by rewrite He in Hloop].
  rewrite (minDistLoop_cons _ _ _ _ _ _ He) in Hloop.
  apply elem_of_cons in Hin as [->|Hin].
  - apply vertex_at_iff in Hv as [Hr Hs]. rewrite He in Hr. injection Hr as ->.
    rewrite Hs in Hloop.
    destruct (num_lt (getDistance p center) (minDist md)) eqn:E; [|done].
    apply (minDistLoop_below _ _ _ _ _ _ Hloop) in E.
    destruct (num_lt (getDistance p center) (minDist acc)) eqn:E'; simpl in E.
    + by rewrite num_lt_irrefl in E.
    + congruence.
  - destruct (skipped p0); by eapply IH.
Qed.

Lemma minDistLoop_attained center path : forall i acc md,
  minDistLoop getDistance center path i acc = Ok md ->
  minDist md = minDist acc
  \/ exists e p, e ∈ path /\ vertex_at e p /\ getDistance p center = minDist md.
Proof.
  induction path as [|e0 rest IH]; intros i acc md Hloop.
  - left. by injection Hloop as <-.
  - destruct (readEntry e0) as [p0|err] eqn:He;
      [|cbn [minDistLoop] in Hloop; by rewrite He in Hloop].
    rewrite (minDistLoop_cons _ _ _ _ _ _ He) in Hloop.
    destruct (skipped p0) eqn:Hs.
    + destruct (IH _ _ _ Hloop) as [H | (e & p & Hin & Hv & Hd)]; [by left|].
      right. exists e, p. split; [by right | done].
    + destruct (IH _ _ _ Hloop) as [H | (e & p & Hin & Hv & Hd)].
      * destruct (num_lt (getDistance p0 center) (minDist acc)) eqn:E; simpl in H.
        -- right. exists e0, p0. split; [by left|]. split; [|done].
           by apply vertex_at_iff.
        -- by left.
      * right. exists e, p. split; [by right | done].
Qed.



(** *** The two functions *)

Lemma isPathIntersectsCircle_array center r path :
  isPathIntersectsCircle getDistance center (PathArray path) r
  = intersectsLoop getDistance center r path.
Proof. by destruct path. Qed.

Lemma getMinDistanceAlongPath_array center path :
  getMinDistanceAlongPath getDistance center (PathArray path)
  = minDistLoop getDistance center path 0 (mkMinDist PosInf (-1)).
Proof. by destruct path. Qed.

(** [getMinDistanceAlongPath] returns the minimum over the vertices. *)
Lemma getMinDistanceAlongPath_is_min center path md :
  getMinDistanceAlongPath getDistance center (PathArray path) = Ok md ->
  is_min_vertex_distance getDistance center path (minDist md).
Proof.
  rewrite getMinDistanceAlongPath_array. intros Hloop. split; [|split].
  - by apply (minDistLoop_not_nan _ _ _ _ _ Hloop).
  - intros e p Hin Hv. by eapply minDistLoop_lower_bound.
  - destruct (minDistLoop_attained _ _ _ _ _ Hloop) as [H | H]; [left; exact H | by right].
Qed.

(** Below an infinite radius, "the minimum is within [r]" and "some vertex
    is within [r]" are the same. *)
Lemma min_within_iff_vertex_within center r path m :
  is_min_vertex_distance getDistance center path m ->
  r <> PosInf ->
  num_le m r = true <-> some_vertex_within getDistance center r path.
Proof.
  intros (Hnan & Hlow & Hatt) Hr. split.
  - intros Hm. destruct Hatt as [Hinf | (e & p & Hin & Hv & Hd)].
    + rewrite Hinf in Hm. by apply num_le_PosInf_l in Hm.
    + exists e, p. by rewrite Hd.
  - intros (e & p & Hin & Hv & Hd).
    eapply num_le_trans; [|exact Hd].
    apply num_not_lt_le; eauto.
    by apply num_le_not_nan in Hd as [? _].
Qed.

(** On a list of points both functions answer. *)
Lemma getMinDistanceAlongPath_points center pts :
  exists md, getMinDistanceAlongPath getDistance center (path_of_points pts) = Ok md.
Proof.
  unfold path_of_points. rewrite getMinDistanceAlongPath_array.
  apply minDistLoop_readable, readable_points.
Qed.

(** The two functions agree on every list of points, for a radius other
    than [Infinity]: the path intersects exactly when the minimum over its
    vertices is within the radius, that is when some vertex is. *)
Lemma decision_on_points center r pts :
  exists nearest,
    getMinDistanceAlongPath getDistance center (path_of_points pts) = Ok nearest
    /\ is_min_vertex_distance getDistance center (map entry_of_point pts)
                              (minDist nearest)
    /\ (r <> PosInf ->
        (num_le (minDist nearest) r = true
         <-> some_vertex_within getDistance center r (map entry_of_point pts))
        /\ isPathIntersectsCircle getDistance center (path_of_points pts) r
           = Ok (num_le (minDist nearest) r)).
Proof.
  destruct (getMinDistanceAlongPath_points center pts) as [md Hmd].
  pose proof (getMinDistanceAlongPath_is_min _ _ _ Hmd) as Hmin.
  exists md. split; [exact Hmd|]. split; [exact Hmin|].
  intros Hr.
  pose proof (min_within_iff_vertex_within _ _ _ _ Hmin Hr) as Hiff.
  split; [exact Hiff|].
  unfold path_of_points. rewrite isPathIntersectsCircle_array.
  destruct (intersectsLoop_readable center r (map entry_of_point pts)
              (readable_points pts)) as [b Hb].
  rewrite Hb. f_equal.
  destruct b.
  - symmetry. apply Hiff. by apply intersectsLoop_true.
  - destruct (num_le (minDist md) r) eqn:Hm; [|done].
    apply (intersectsLoop_within _ _ _ _ Hb). by apply Hiff.
Qed.

(** [getRoutePath] always resolves. *)
Lemma getRoutePath_total env o d wps w :
  exists path w', getRoutePath env o d wps w = (Ok path, w').
Proof.
  unfold getRoutePath, bind, consumeGoogleCall, request, modify, ret.
  destruct (GOOGLE_MAPS_KEY env); [|by eauto].
  destruct (checkAndIncrementGoogleUsage _ _) as [[|] u]; simpl; [|by eauto].
  destruct (googleDirectionsApi env _) as [| |j]; [by eauto..|].
  destruct (bool_decide _), (overview_polyline j); by eauto.
Qed.

(** Looking up the path of a route with several stops always yields one:
    the cached polyline, the provider's, or the straight line. *)
Lemma route_lookup_total env w busId routeType s1 s2 rest :
  exists path w',
    try_catch
      (do w0 <- get_world;
       match cachedRoute routeType <$> routePolylinesCache w0 !! busId with
       | Some (p :: ps) => ret (p :: ps)
       | _ => getRoutePath env (stop_point s1)
                           (stop_point (List.last (s1 :: s2 :: rest) s1))
                           (map stop_point (slice_inner (s1 :: s2 :: rest)))
       end)
      (fun _ => ret (map stop_point (s1 :: s2 :: rest))) w = (Ok path, w').
Proof.
  unfold try_catch, bind, get_world.
  destruct (cachedRoute routeType <$> routePolylinesCache w !! busId) as [[|p ps]|].
  - destruct (getRoutePath_total env (stop_point s1)
               (stop_point (List.last (s1 :: s2 :: rest) s1))
               (map stop_point (slice_inner (s1 :: s2 :: rest))) w)
      as (path & w' & ->). by eauto.
  - unfold ret. by eauto.
  - destruct (getRoutePath_total env (stop_point s1)
               (stop_point (List.last (s1 :: s2 :: rest) s1))
               (map stop_point (slice_inner (s1 :: s2 :: rest))) w)
      as (path & w' & ->). by eauto.
Qed.

(** The same, with where the path comes from: a non-empty cached path of
    the direction is taken as it is and the state stays the same;
    otherwise the path is the one of [getRoutePath]. *)
Lemma route_lookup_spec env w busId routeType s1 s2 rest :
  exists path w',
    try_catch
      (do w0 <- get_world;
       match cachedRoute routeType <$> routePolylinesCache w0 !! busId with
       | Some (p :: ps) => ret (p :: ps)
       | _ => getRoutePath env (stop_point s1)
                           (stop_point (List.last (s1 :: s2 :: rest) s1))
                           (map stop_point (slice_inner (s1 :: s2 :: rest)))
       end)
      (fun _ => ret (map stop_point (s1 :: s2 :: rest))) w = (Ok path, w')
    /\ match cachedRoute routeType <$> routePolylinesCache w !! busId with
       | Some (p :: ps) => path = p :: ps /\ w' = w
       | _ => getRoutePath env (stop_point s1)
                           (stop_point (List.last (s1 :: s2 :: rest) s1))
                           (map stop_point (slice_inner (s1 :: s2 :: rest))) w
              = (Ok path, w')
       end.
Proof.
  unfold try_catch, bind, get_world.
  destruct (cachedRoute routeType <$> routePolylinesCache w !! busId) as [[|p ps]|].
  - destruct (getRoutePath_total env (stop_point s1)
               (stop_point (List.last (s1 :: s2 :: rest) s1))
               (map stop_point (slice_inner (s1 :: s2 :: rest))) w)
      as (path & w' & ->). by eauto.
  - unfold ret. by eauto.
  - destruct (getRoutePath_total env (stop_point s1)
               (stop_point (List.last (s1 :: s2 :: rest) s1))
               (map stop_point (slice_inner (s1 :: s2 :: rest))) w)
      as (path & w' & ->). by eauto.
Qed.

(** What [checkRouteStops] makes of the path of a route with several
    stops. *)
Lemma checkRouteStops_several
      env w userLocation radiusMeters busId s1 s2 rest routeType path w' md :
  try_catch
    (do w0 <- get_world;
     match cachedRoute routeType <$> routePolylinesCache w0 !! busId with
     | Some (p :: ps) => ret (p :: ps)
     | _ => getRoutePath env (stop_point s1)
                         (stop_point (List.last (s1 :: s2 :: rest) s1))
                         (map stop_point (slice_inner (s1 :: s2 :: rest)))
     end)
    (fun _ => ret (map stop_point (s1 :: s2 :: rest))) w = (Ok path, w') ->
  getMinDistanceAlongPath getDistance userLocation (path_of_points path) = Ok md ->
  checkRouteStops getDistance env userLocation radiusMeters busId (s1 :: s2 :: rest)
                  routeType w
  = (Ok (if num_le (minDist md) radiusMeters
         then mkCheckResult true
                (countStopsWithin getDistance userLocation radiusMeters (s1 :: s2 :: rest))
                path
         else mkCheckResult false 0 path), w').
Proof.
  intros Hpath Hmd. unfold checkRouteStops.
  rewrite (bind_ok _ _ _ _ _ Hpath).
  assert (Hlift : lift (getMinDistanceAlongPath getDistance userLocation
                                                 (path_of_points path)) w' = (Ok md, w')).
  { unfold lift. by rewrite Hmd. }
  rewrite (bind_ok _ _ _ _ _ Hlift).
  unfold ret. by destruct (num_le (minDist md) radiusMeters).
Qed.

(** No error ever comes out of [checkRouteStops]. *)
Lemma checkRouteStops_never_fails env w userLocation radiusMeters busId stopsArr routeType :
  exists res w',
    checkRouteStops getDistance env userLocation radiusMeters busId stopsArr routeType w
    = (Ok res, w').
Proof.
  destruct stopsArr as [|s1 [|s2 rest]].
  - unfold checkRouteStops, ret. by eauto.
  - unfold checkRouteStops, ret. destruct (num_le _ _); by eauto.
  - destruct (route_lookup_total env w busId routeType s1 s2 rest) as (path & w' & Hpath).
    destruct (getMinDistanceAlongPath_points userLocation path) as [md Hmd].
    rewrite (checkRouteStops_several _ _ _ _ _ _ _ _ _ _ _ _ Hpath Hmd). by eauto.
Qed.

(** A non-empty cached path of the direction is decided on as it is, and
    the state stays as it was. *)
Lemma checkRouteStops_cached env w userLocation radiusMeters busId stopsArr routeType c :
  routePolylinesCache w !! busId = Some c ->
  cachedRoute routeType c <> [] ->
  (2 <= length stopsArr)%nat ->
  exists res,
    checkRouteStops getDistance env userLocation radiusMeters busId stopsArr routeType w
    = (Ok res, w)
    /\ routePath res = cachedRoute routeType c.
Proof.
  intros Hc Hne Hlen.
  destruct stopsArr as [|s1 [|s2 rest]]; simpl in Hlen; [lia..|].
  destruct (route_lookup_spec env w busId routeType s1 s2 rest)
    as (path & w' & Hpath & Hfrom).
  rewrite Hc in Hfrom. cbn [fmap option_fmap option_map] in Hfrom.
  destruct (cachedRoute routeType c) as [|p ps] eqn:Hroute; [done|].
  destruct Hfrom as [-> ->].
  destruct (getMinDistanceAlongPath_points userLocation (p :: ps)) as [md Hmd].
  rewrite (checkRouteStops_several _ _ _ _ _ _ _ _ _ _ _ _ Hpath Hmd).
  destruct (num_le (minDist md) radiusMeters); by eexists.
Qed.

(** C1. The intersection decision is point-wise.  On every list of
    points [getMinDistanceAlongPath] returns [m], the minimum over the
    vertices of the distance to the user: no vertex is closer than [m] and
    [m] is the distance of one of the vertices (or [Infinity]); no point
    between two vertices is looked at.  For a route with several stops
    [checkRouteStops] decides on the non-empty cached path of the bus and
    direction, or else on the path that [getRoutePath] resolves with, and
    reports the route as intersecting exactly when the [m] of that path is
    at most [radiusMeters].  For a radius other than [Infinity] this is the
    same as some vertex lying within the radius, which is what
    [isPathIntersectsCircle] answers. *)
Theorem C1_intersection_is_pointwise_minimum
        env w userLocation radiusMeters busId stopsArr routeType :
  (2 <= length stopsArr)%nat ->
  (forall pts,
      exists nearest,
        getMinDistanceAlongPath getDistance userLocation (path_of_points pts)
        = Ok nearest
        /\ is_min_vertex_distance getDistance userLocation (map entry_of_point pts)
                                  (minDist nearest)
        /\ (radiusMeters <> PosInf ->
            (num_le (minDist nearest) radiusMeters = true
             <-> some_vertex_within getDistance userLocation radiusMeters
                                    (map entry_of_point pts))
            /\ isPathIntersectsCircle getDistance userLocation (path_of_points pts)
                                      radiusMeters
               = Ok (num_le (minDist nearest) radiusMeters)))
  /\ exists path w' nearest,
      (match cachedRoute routeType <$> routePolylinesCache w !! busId with
       | Some (p :: ps) => path = p :: ps /\ w' = w
       | _ => exists first,
                List.head stopsArr = Some first
                /\ getRoutePath env (stop_point first)
                                (stop_point (List.last stopsArr first))
                                (map stop_point (slice_inner stopsArr)) w
                   = (Ok path, w')
       end)
      /\ getMinDistanceAlongPath getDistance userLocation (path_of_points path)
         = Ok nearest
      /\ checkRouteStops getDistance env userLocation radiusMeters busId stopsArr
                         routeType w
         = (Ok (mkCheckResult
                  (num_le (minDist nearest) radiusMeters)
                  (if num_le (minDist nearest) radiusMeters
                   then countStopsWithin getDistance userLocation radiusMeters stopsArr
                   else 0)
                  path), w').
Proof.
  intros Hlen. split; [intros pts; apply decision_on_points|].
  destruct stopsArr as [|s1 [|s2 rest]]; simpl in Hlen; [lia..|].
  destruct (route_lookup_spec env w busId routeType s1 s2 rest)
    as (path & w' & Hpath & Hfrom).
  destruct (getMinDistanceAlongPath_points userLocation path) as [md Hmd].
  exists path, w', md.
  split.
  { destruct (cachedRoute routeType <$> routePolylinesCache w !! busId) as [[|p ps]|];
      [by exists s1 | done | by exists s1]. }
  split; [exact Hmd|].
  rewrite (checkRouteStops_several _ _ _ _ _ _ _ _ _ _ _ _ Hpath Hmd).
  by destruct (num_le (minDist md) radiusMeters).
Qed.


End GeofenceProperties.

(** A two-stop route along the equator without a cached path and without
    a provider: a user standing at its first stop is within the radius, a
    user five degrees away is not; a cached path is decided on instead of
    the stops. *)
Lemma C1_intersection_is_pointwise_minimum_witness :
  let A := mkLatLng (num_of_Z 0) (num_of_Z 0) in
  let B := mkLatLng (num_of_Z 0) (num_of_Z 1) in
  let far := mkLatLng (num_of_Z 5) (num_of_Z 5) in
  let stopsArr := [stop_at "A" 0 0 MORNING 1; stop_at "B" 0 1 MORNING 2] in
  let radiusMeters := num_of_Z 1500 in
  let cached := mkWorld ∅ ∅ (mkGoogleUsage "2025-01-01" 0 1000)
                        {[ 1 := mkBusRoutes [far; far] [] ]} [] in
  (2 <= length stopsArr)%nat
  /\ checkRouteStops sample_getDistance offline_env A radiusMeters 1 stopsArr MORNING
                     fresh_world
     = (Ok (mkCheckResult true 1 [A; B]), fresh_world)
  /\ checkRouteStops sample_getDistance offline_env far radiusMeters 1 stopsArr MORNING
                     fresh_world
     = (Ok (mkCheckResult false 0 [A; B]), fresh_world)
  /\ checkRouteStops sample_getDistance offline_env A radiusMeters 1 stopsArr MORNING
                     cached
     = (Ok (mkCheckResult false 0 [far; far]), cached)
  /\ getMinDistanceAlongPath sample_getDistance far (path_of_points [A; B])
     = Ok (mkMinDist (Fin (111000 * (5 + 4))) 1)
  /\ isPathIntersectsCircle sample_getDistance A (path_of_points [far; B; A]) radiusMeters
     = Ok true
  /\ (exists nearest,
        getMinDistanceAlongPath sample_getDistance A (path_of_points [far; B; A])
        = Ok nearest
        /\ is_min_vertex_distance sample_getDistance A (map entry_of_point [far; B; A])
                                  (minDist nearest))
  /\ exists path w' nearest,
       getRoutePath offline_env A B [] fresh_world = (Ok path, w')
       /\ getMinDistanceAlongPath sample_getDistance A (path_of_points path) = Ok nearest
       /\ checkRouteStops sample_getDistance offline_env A radiusMeters 1 stopsArr MORNING
                          fresh_world
          = (Ok (mkCheckResult
                   (num_le (minDist nearest) radiusMeters)
                   (if num_le (minDist nearest) radiusMeters
                    then countStopsWithin sample_getDistance A radiusMeters stopsArr
                    else 0)
                   path), w').
Proof.
  intros A B far stopsArr radiusMeters cached.
  assert (Hlen : (2 <= length stopsArr)%nat) by (simpl; lia).
  split; [exact Hlen|].
  split; [vm_compute; reflexivity|].
  split; [vm_compute; reflexivity|].
  split; [vm_compute; reflexivity|].
  split; [vm_compute; reflexivity|].
  split; [vm_compute; reflexivity|].
  destruct (C1_intersection_is_pointwise_minimum sample_getDistance offline_env fresh_world
              A radiusMeters 1 stopsArr MORNING Hlen)
    as [Hpts (path & w' & nearest & Hfrom & Hmd & Hcheck)].
  split.
  { destruct (Hpts [far; B; A]) as (m & Hm & Hmin & _). by exists m. }
  exists path, w', nearest.
  split; [|by split].
  destruct Hfrom as (first & Hfirst & Hroute).
  injection Hfirst as <-. exact Hroute.
Defined.



(** ** The hourly limits of the availability check *)

(** The gate never looks at the clock. *)
Lemma isAvailabilityAllowed_ignores_time lim now now' ip contact st :
  isAvailabilityAllowed lim now ip contact st
  = isAvailabilityAllowed lim now' ip contact st.
Proof.
  unfold isAvailabilityAllowed.
  destruct (availabilityCounters st !! ip); simpl;
    destruct (contact_given contact); try done;
    destruct (availabilityContactCounters st !! s); done.
Qed.

(** A rejected request leaves the counters as they are, so a client that is
    rejected once is rejected at every later time. *)
Lemma availabilityGate_rejection_is_permanent lim now ip contact wf st st' :
  availabilityGate lim now ip contact wf st = (RateLimited, st') ->
  st' = st
  /\ forall now' wf', availabilityGate lim now' ip contact wf' st = (RateLimited, st).
Proof.
  unfold availabilityGate. intros H.
  destruct (isAvailabilityAllowed lim now ip _ st) eqn:E; simpl in H.
  - destruct (negb (bool_decide _) || negb wf); inversion H.
  - inversion H; subst. split; [done|]. intros now' wf'.
    by rewrite (isAvailabilityAllowed_ignores_time lim now' now), E.
Qed.

(** C2. With the default limits (200 per address, 60 per contact), one
    client without history sends 62 well-formed checks: 60 within one
    minute, one more a second later, and a last one two hours after the
    first.  The first 60 are accepted and the 61st is rejected; the 62nd,
    sent after the hour has rolled over, is rejected as well. *)
Theorem C2_rate_limit_does_not_roll_over :
  let check (t : Z) := mkRequest t "203.0.113.7" (Some "Rider@Example.com"%string) true in
  let firstHour := map (fun k => check (Z.of_nat k * 1000)) (seq 0 60) in
  fst (serve default_limits
             (firstHour ++ [check 61000; check (2 * hourWindow)])
             no_counters)
  = replicate 60 Accepted ++ [RateLimited; RateLimited].
Proof. vm_compute. reflexivity. Qed.

(** ** The debounced scheduler *)

(** Within the cooldown that follows the last build, a signal sets the timer
    to the end of that cooldown, whatever was pending. *)
Lemma schedule_within_cooldown cooldown now s :
  now < lastRouteBuildTs s + cooldown ->
  scheduleRouteCacheRebuild cooldown false now s
  = mkScheduler (lastRouteBuildTs s) (Some (lastRouteBuildTs s + cooldown)) (builds s).
Proof.
  intros H. unfold scheduleRouteCacheRebuild. do 2 f_equal. lia.
Qed.

Lemma advance_not_due t s : pending_after t s -> advance t s = s.
Proof.
  unfold pending_after, advance. intros H.
  destruct (routeRebuildTimer s) as [f|]; [|done].
  specialize (H f eq_refl). by destruct (Z.ltb_spec f t); [lia|].
Qed.

Lemma runSignals_coalesce cooldown : forall ts L B,
  Forall (fun t => t < L + cooldown) ts ->
  runSignals cooldown (map (fun t => mkSignal t false) ts)
             (mkScheduler L (Some (L + cooldown)) B)
  = mkScheduler (L + cooldown) None (B ++ [L + cooldown]).
Proof.
  induction ts as [|t ts IH]; intros L B Hts; [done|].
  inversion Hts as [|? ? Ht Hrest]; subst.
  cbn [runSignals map sig_time sig_immediate].
  rewrite advance_not_due by (intros f [= <-]; lia).
  rewrite schedule_within_cooldown by (simpl; lia).
  cbn [builds lastRouteBuildTs]. by apply IH.
Qed.

(** C3, as amended.  For a burst of N >= 1 (non-immediate) rebuild signals
    that all arrive within the cooldown following the last build, exactly
    one build results, and it starts when that cooldown ends: at the time of
    the last build plus the cooldown, wherever in the window the last
    signal fell.  Every signal replaces the pending timer by one set for
    that same time. *)
Theorem C3_burst_coalesces_to_cooldown_after_last_build cooldown s t ts :
  pending_after t s ->
  Forall (fun t' => t' < lastRouteBuildTs s + cooldown) (t :: ts) ->
  let s' := runSignals cooldown (map (fun t' => mkSignal t' false) (t :: ts)) s in
  builds s' = builds s ++ [lastRouteBuildTs s + cooldown]
  /\ lastRouteBuildTs s' = lastRouteBuildTs s + cooldown
  /\ routeRebuildTimer s' = None
  /\ forall t', t' < lastRouteBuildTs s + cooldown ->
       routeRebuildTimer (scheduleRouteCacheRebuild cooldown false t' s)
       = Some (lastRouteBuildTs s + cooldown).
Proof.
  intros Hpend Hts s'. subst s'.
  inversion Hts as [|? ? Ht Hrest]; subst.
  cbn [runSignals map sig_time sig_immediate].
  rewrite advance_not_due by done.
  rewrite schedule_within_cooldown by done.
  rewrite runSignals_coalesce by done.
  cbn [builds lastRouteBuildTs routeRebuildTimer].
  split; [done|]. split; [done|]. split; [done|].
  intros t' Ht'. by rewrite schedule_within_cooldown.
Qed.

Lemma C3_burst_coalesces_to_cooldown_after_last_build_witness :
  let s := mkScheduler 1000000 None [1000000] in
  let cooldown := ROUTE_BUILD_COOLDOWN_MS in
  pending_after 1000010 s
  /\ Forall (fun t' => t' < lastRouteBuildTs s + cooldown) [1000010; 1000020; 1200000]
  /\ let s' := runSignals cooldown
                 (map (fun t' => mkSignal t' false) [1000010; 1000020; 1200000]) s in
     builds s' = builds s ++ [lastRouteBuildTs s + cooldown]
     /\ lastRouteBuildTs s' = lastRouteBuildTs s + cooldown
     /\ routeRebuildTimer s' = None
     /\ forall t', t' < lastRouteBuildTs s + cooldown ->
          routeRebuildTimer (scheduleRouteCacheRebuild cooldown false t' s)
          = Some (lastRouteBuildTs s + cooldown).
Proof.
  intros s cooldown.
  assert (Hp : pending_after 1000010 s) by (intros f Hf; discriminate Hf).
  assert (Ht : Forall (fun t' => t' < lastRouteBuildTs s + cooldown)
                      [1000010; 1000020; 1200000]).
  { repeat constructor; vm_compute; reflexivity. }
  split; [exact Hp|]. split; [exact Ht|].
  exact (C3_burst_coalesces_to_cooldown_after_last_build cooldown s 1000010
           [1000020; 1200000] Hp Ht).
Defined.

(** C3, as stated, fails.  After a long idle period three signals arrive
    within 20 ms.  The first one finds the cooldown elapsed and its timer
    fires at once; the other two are coalesced into a second build, which
    starts one cooldown after the first build, not one cooldown after the
    last signal.  So the burst causes two builds, none of them at "last
    signal + cooldown". *)
Lemma C3_counterexample :
  let burst := [mkSignal 1000000 false; mkSignal 1000010 false; mkSignal 1000020 false] in
  let s' := runSignals ROUTE_BUILD_COOLDOWN_MS burst scheduler_init in
  builds s' = [1000000; 1300000]
  /\ builds s' <> [1000020 + ROUTE_BUILD_COOLDOWN_MS].
Proof. split; [reflexivity | discriminate]. Qed.

(** When no build ran during the last cooldown and nothing is pending, a
    signal is served at once. *)
Lemma signal_after_cooldown_fires_at_once cooldown s t :
  routeRebuildTimer s = None ->
  lastRouteBuildTs s + cooldown <= t ->
  builds (runSignals cooldown [mkSignal t false] s) = builds s ++ [t].
Proof.
  intros Hidle Hlate. simpl. unfold advance. rewrite Hidle.
  unfold scheduleRouteCacheRebuild, settle. simpl.
  do 2 f_equal. lia.
Qed.

(** At start-up the module calls the scheduler four times in a row, within
    one turn of the event loop: the calls clear each other's timers and one
    build follows, at once. *)
Example startup_calls_one_build :
  let t := 1700000000000 in
  builds (runSignals ROUTE_BUILD_COOLDOWN_MS
                     [mkSignal t false; mkSignal t false; mkSignal t false;
                      mkSignal t false]
                     scheduler_init)
  = [t].
Proof. reflexivity. Qed.

(** ** The persisted route cache *)

(** C4, as amended.  The two reads of cached routes differ.
    [getRouteFromCache], the read of the persisted cache, returns the
    stored entry exactly when its age [now - updatedAt] is at most two
    hours (an entry aged exactly two hours is still returned) and treats an
    older entry, a missing entry and a failing database as absent, for
    every bus id and period: an entry saved at [t0] is returned at
    [t0 + 1h59m] and absent at [t0 + 2h01m].  The read of
    [routePolylinesCache] in [checkRouteStops] applies no age limit: the
    entries carry no time, and whatever the environment and the date, a
    non-empty cached path of the bus and direction is the path that is
    decided on. *)
Theorem C4_cache_entry_returned_up_to_ttl {Data} :
  (forall (rows : gmap (Z * string) (RouteCacheRow Data)) now busId period data,
      getRouteFromCache (DbUp rows) now busId period = Some data
      <-> exists row, rows !! (busId, toUpperCase period) = Some row
                      /\ routeData row = data
                      /\ now - updatedAt row <= TTL_MS)
  /\ (forall now busId period,
         getRouteFromCache (DbDown : RouteCacheDb Data) now busId period = None)
  /\ (forall (rows : gmap (Z * string) (RouteCacheRow Data)) t0 busId period data,
         let db := saveRouteToCache (DbUp rows) t0 busId period data in
         getRouteFromCache db (t0 + 119 * 60000) busId period = Some data
         /\ getRouteFromCache db (t0 + TTL_MS) busId period = Some data
         /\ getRouteFromCache db (t0 + 121 * 60000) busId period = None)
  /\ (forall getDistance env w userLocation radiusMeters busId stopsArr routeType c,
         routePolylinesCache w !! busId = Some c ->
         cachedRoute routeType c <> [] ->
         (2 <= length stopsArr)%nat ->
         exists res,
           checkRouteStops getDistance env userLocation radiusMeters busId stopsArr
                           routeType w = (Ok res, w)
           /\ routePath res = cachedRoute routeType c).
Proof.
  split; [|split; [|split]].
  - intros rows now busId period data. unfold getRouteFromCache, TTL_MS.
    destruct (rows !! (busId, toUpperCase period)) as [row|] eqn:E.
    + destruct (Z.ltb_spec (ROUTE_CACHE_REFRESH_HOURS * 60 * 60 * 1000)
                           (now - updatedAt row)) as [Hold | Hfresh].
      * split; [discriminate|]. intros (row' & [= <-] & _ & Hage).
        unfold ROUTE_CACHE_REFRESH_HOURS in Hold. lia.
      * split.
        -- intros [= <-]. exists row. unfold ROUTE_CACHE_REFRESH_HOURS in Hfresh.
           split; [done|]. split; [done|lia].
        -- intros (row' & [= <-] & <- & _). done.
    + split; [discriminate|]. intros (row' & Hrow & _). discriminate.
  - done.
  - intros rows t0 busId period data db. subst db.
    unfold saveRouteToCache, getRouteFromCache, TTL_MS, ROUTE_CACHE_REFRESH_HOURS.
    rewrite lookup_insert_eq. cbn [updatedAt routeData].
    repeat split.
    + by destruct (Z.ltb_spec (2 * 60 * 60 * 1000) (t0 + 119 * 60000 - t0)); [lia|].
    + by destruct (Z.ltb_spec (2 * 60 * 60 * 1000) (t0 + 7200000 - t0)); [lia|].
    + by destruct (Z.ltb_spec (2 * 60 * 60 * 1000) (t0 + 121 * 60000 - t0)); [|lia].
  - intros getDistance env w userLocation radiusMeters busId stopsArr routeType c.
    apply checkRouteStops_cached.
Qed.

(** C4, as stated, fails for both reads.  The persisted cache returns an
    entry that is exactly two hours old, although [now - builtAt < TTL]
    does not hold.  The in-memory cache knows no age: a path built from
    the provider's polyline on 2025-01-01 is still the path decided on two
    days later, when no provider is available and a new look-up would give
    the straight line between the stops. *)
Lemma C4_counterexample :
  let t0 := 1700000000000 in
  let rows : gmap (Z * string) (RouteCacheRow (list LatLng)) :=
    {[ (7, "MORNING"%string) := mkRouteCacheRow [mkLatLng (num_of_Z 0) (num_of_Z 1)] t0 ]} in
  let now := t0 + TTL_MS in
  let stopsArr := [stop_at "A" 0 0 MORNING 1; stop_at "B" 0 1 MORNING 2] in
  let built := fst (buildAllRoutePolylines directions_env (Some [mkBus 7 stopsArr]) true
                                           fresh_world) in
  let later := mkEnv None "" "" "" "" "2025-01-03"
                     (fun _ => NetError) (fun _ => NetError) (fun _ => NetError)
                     (fun _ => NetError) (fun _ => NetError) (fun x => toFixed6 x) in
  (getRouteFromCache (DbUp rows) now 7 "morning"
   = Some [mkLatLng (num_of_Z 0) (num_of_Z 1)]
   /\ ~ (now - t0 < TTL_MS))
  /\ today directions_env = "2025-01-01"%string
  /\ checkRouteStops sample_getDistance later (mkLatLng (num_of_Z 0) (num_of_Z 0))
                     (num_of_Z 1500) 7 stopsArr MORNING built
     = (Ok (mkCheckResult false 0 (decodePolyline "_p~iF~ps|U_ulLnnqC_mqNvxq`@")), built)
  /\ checkRouteStops sample_getDistance later (mkLatLng (num_of_Z 0) (num_of_Z 0))
                     (num_of_Z 1500) 7 stopsArr MORNING fresh_world
     = (Ok (mkCheckResult true 1 (map stop_point stopsArr)), fresh_world).
Proof.
  split; [split; [reflexivity | vm_compute; discriminate]|].
  split; [reflexivity|]. split; vm_compute; reflexivity.
Qed.

(** ** The route path builder *)

Lemma straightLine_of_stops first second rest :
  let stopsArr := first :: second :: rest in
  straightLine (stop_point first) (stop_point (List.last stopsArr first))
               (map stop_point (slice_inner stopsArr))
  = map stop_point stopsArr.
Proof.
  unfold straightLine, slice_inner. cbn [tail app map]. f_equal.
  revert second. induction rest as [|third rest IH]; intros second; [done|].
  change (List.last (first :: second :: third :: rest) first)
    with (List.last (first :: third :: rest) first).
  change (removelast (second :: third :: rest))
    with (second :: removelast (third :: rest)).
  cbn [map app]. f_equal. apply IH.
Qed.

(** Without key, without budget or with a failing provider, [getRoutePath]
    resolves with the straight line. *)
Lemma getRoutePath_fallback env w o d wps :
  routing_unavailable env w ->
  exists w', getRoutePath env o d wps w = (Ok (straightLine o d wps), w').
Proof.
  unfold routing_unavailable, budget_exhausted, getRoutePath.
  unfold bind, consumeGoogleCall, request, modify, ret.
  intros Hun.
  destruct (GOOGLE_MAPS_KEY env) as [k|]; [|by eauto].
  destruct (checkAndIncrementGoogleUsage _ _) as [[|] u] eqn:Hu; simpl; [|by eauto].
  destruct Hun as [Hk | [Hb | Hfail]]; [done | done |].
  specialize (Hfail (mkDirectionsRequest o d wps)).
  destruct (googleDirectionsApi env _) as [| |j]; [by eauto..|].
  simpl in Hfail.
  destruct (bool_decide (dir_status j = "OK"%string)) eqn:Hs; [|by eauto].
  destruct (overview_polyline j) as [pts|]; [|by eauto].
  apply bool_decide_eq_true in Hs. exfalso. apply Hfail. by split.
Qed.

(** C5. The path builder returns the empty path for no stop and the single
    point for one stop; for two stops or more, when the routing provider is
    not configured, out of budget or failing, it returns exactly the stops'
    coordinates in the order of the stops: origin, waypoints, destination,
    and nothing in between. *)
Theorem C5_path_builder_degenerate_cases_and_fallback env w :
  buildForStops env [] w = (Ok [], w)
  /\ (forall s, buildForStops env [s] w = (Ok [stop_point s], w))
  /\ (forall stopsArr,
         (2 <= length stopsArr)%nat ->
         routing_unavailable env w ->
         exists w', buildForStops env stopsArr w = (Ok (map stop_point stopsArr), w')).
Proof.
  split; [done|]. split; [done|].
  intros stopsArr Hlen Hun.
  destruct stopsArr as [|first [|second rest]]; simpl in Hlen; [lia..|].
  unfold buildForStops, try_catch.
  destruct (getRoutePath_fallback env w (stop_point first)
              (stop_point (List.last (first :: second :: rest) first))
              (map stop_point (slice_inner (first :: second :: rest))) Hun)
    as (w' & ->).
  exists w'. by rewrite straightLine_of_stops.
Qed.

(** Stops (0,0) and (0,1), no routing provider: the path is exactly
    [(0,0), (0,1)]. *)
Lemma C5_path_builder_degenerate_cases_and_fallback_witness :
  let stopsArr := [stop_at "A" 0 0 MORNING 1; stop_at "B" 0 1 MORNING 2] in
  (2 <= length stopsArr)%nat
  /\ routing_unavailable offline_env fresh_world
  /\ exists w', buildForStops offline_env stopsArr fresh_world
                = (Ok [mkLatLng (num_of_Z 0) (num_of_Z 0);
                       mkLatLng (num_of_Z 0) (num_of_Z 1)], w').
Proof.
  intros stopsArr.
  assert (Hlen : (2 <= length stopsArr)%nat) by (simpl; lia).
  assert (Hun : routing_unavailable offline_env fresh_world) by (left; reflexivity).
  split; [exact Hlen|]. split; [exact Hun|].
  exact (proj2 (proj2 (C5_path_builder_degenerate_cases_and_fallback
                         offline_env fresh_world)) stopsArr Hlen Hun).
Defined.

(** ** Provider budget and errors *)

(** What a refused call leaves behind: only the usage record may change (the
    date rolls over), nothing is requested. *)
Lemma consumeGoogleCall_denied env w :
  budget_exhausted env w ->
  exists u, consumeGoogleCall env w = (Ok false, set_googleUsage u w).
Proof.
  unfold budget_exhausted, consumeGoogleCall.
  destruct (checkAndIncrementGoogleUsage _ _) as [ok u]. simpl. intros ->. by eauto.
Qed.

(** C6, as amended.  When a Google key is configured and the usage governor
    refuses the call, the route path builder takes its local fallback, the
    straight line, without any request, and the proximity matcher's route
    check never fails.  The geocoding operations do not fall back: on a
    cache miss [geocodeLocation], [reverseGeocode] and [geocodeLatLng] fail
    with the "daily usage limit exceeded" error, without trying the free
    provider, and this error reaches their caller. *)
Theorem C6_denied_budget_falls_back_for_routes_only env w :
  is_Some (GOOGLE_MAPS_KEY env) ->
  budget_exhausted env w ->
  (forall o d wps,
      exists w', getRoutePath env o d wps w = (Ok (straightLine o d wps), w')
                 /\ providerCalls w' = providerCalls w)
  /\ (forall getDistance userLocation radiusMeters busId stopsArr routeType,
         exists res w',
           checkRouteStops getDistance env userLocation radiusMeters busId
                           stopsArr routeType w = (Ok res, w'))
  /\ (forall locationName,
         truthy locationName = true ->
         geocodeCache w !! geocodeKey locationName = None ->
         exists w', geocodeLocation env locationName w = (Err UsageLimitExceeded, w')
                    /\ providerCalls w' = providerCalls w)
  /\ (forall lat lng,
         reverseGeocodeCache w !! reverseKey lat lng = None ->
         exists w', reverseGeocode env lat lng w = (Err UsageLimitExceeded, w')
                    /\ providerCalls w' = providerCalls w)
  /\ (forall lat lng,
         isNaN lat = false -> isNaN lng = false ->
         exists w', geocodeLatLng env lat lng w = (Err UsageLimitExceeded, w')
                    /\ providerCalls w' = providerCalls w).
Proof.
  intros [k Hk] Hden.
  destruct (consumeGoogleCall_denied env w Hden) as (u & Hu).
  split; [|split; [|split; [|split]]].
  - intros o d wps. unfold getRoutePath. rewrite Hk.
    rewrite (bind_ok _ _ _ _ _ Hu). simpl. unfold ret. by eauto.
  - intros. apply checkRouteStops_never_fails.
  - intros locationName Hne Hmiss. unfold geocodeLocation. rewrite Hne. simpl.
    unfold bind at 1. unfold get_world. rewrite Hmiss, Hk.
    rewrite (bind_ok _ _ _ _ _ Hu). simpl. unfold throw. by eauto.
  - intros lat lng Hmiss. unfold reverseGeocode.
    unfold bind at 1. unfold get_world. rewrite Hmiss, Hk.
    rewrite (bind_ok _ _ _ _ _ Hu). simpl. unfold throw. by eauto.
  - intros lat lng Hlat Hlng. unfold geocodeLatLng. rewrite Hlat, Hlng, Hk. simpl.
    rewrite (bind_ok _ _ _ _ _ Hu). simpl. unfold throw. by eauto.
Qed.

Lemma C6_denied_budget_falls_back_for_routes_only_witness :
  let env := keyed_env in
  let w := world_with_usage 1000 1000 in
  is_Some (GOOGLE_MAPS_KEY env)
  /\ budget_exhausted env w
  /\ (forall o d wps,
         exists w', getRoutePath env o d wps w = (Ok (straightLine o d wps), w')
                    /\ providerCalls w' = providerCalls w)
  /\ (forall locationName,
         truthy locationName = true ->
         geocodeCache w !! geocodeKey locationName = None ->
         exists w', geocodeLocation env locationName w = (Err UsageLimitExceeded, w')
                    /\ providerCalls w' = providerCalls w).
Proof.
  intros env w.
  assert (Hk : is_Some (GOOGLE_MAPS_KEY env)) by (eexists; reflexivity).
  assert (Hd : budget_exhausted env w) by reflexivity.
  split; [exact Hk|]. split; [exact Hd|].
  pose proof (C6_denied_budget_falls_back_for_routes_only env w Hk Hd) as H.
  split; [exact (proj1 H) | exact (proj1 (proj2 (proj2 H)))].
Defined.

(** C6, as stated, fails for geocoding: with a key configured and the daily
    budget used up, [geocodeLocation] rejects with the usage-limit error; the
    free provider is not asked. *)
Lemma C6_counterexample :
  let w := world_with_usage 1000 1000 in
  geocodeLocation keyed_env "Benz Circle" w = (Err UsageLimitExceeded, w)
  /\ budget_exhausted keyed_env w.
Proof. split; reflexivity. Qed.

(** ** Forward geocoding and its cache *)

Lemma nominatimGeocode_caches env locationName w out w1 :
  nominatimGeocode env locationName w = (Ok (Some out), w1) ->
  geocodeCache w1 !! geocodeKey locationName = Some out.
Proof.
  unfold nominatimGeocode, bind, request, modify, ret, throw. simpl.
  destruct (nominatimSearchApi env locationName) as [| |[|first rest]]; intros [= <- <-].
  simpl. apply lookup_insert_eq.
Qed.

(** A cached key is answered from the cache: same result, same state. *)
Lemma geocodeLocation_hit env locationName w out :
  truthy locationName = true ->
  geocodeCache w !! geocodeKey locationName = Some out ->
  geocodeLocation env locationName w = (Ok (Some out), w).
Proof.
  intros Hne Hhit. unfold geocodeLocation. rewrite Hne. simpl.
  unfold bind, get_world. by rewrite Hhit.
Qed.

(** Every successful resolution leaves its result in the cache, under the
    normalized key. *)
Lemma geocodeLocation_success_cached env locationName w out w1 :
  geocodeLocation env locationName w = (Ok (Some out), w1) ->
  geocodeCache w1 !! geocodeKey locationName = Some out.
Proof.
  unfold geocodeLocation.
  destruct (truthy locationName); simpl; [|discriminate].
  unfold bind at 1. unfold get_world.
  destruct (geocodeCache w !! geocodeKey locationName) as [hit|] eqn:Hc.
  { intros [= <- <-]. exact Hc. }
  destruct (GOOGLE_MAPS_KEY env) as [k|]; [|apply nominatimGeocode_caches].
  unfold bind at 1.
  destruct (consumeGoogleCall env w) as [[[|]|e] w0]; simpl; try discriminate.
  unfold bind at 1.
  destruct (request _ _ w0) as [[reply|e] w2]; [|discriminate].
  destruct reply as [| |j]; try discriminate.
  destruct (bool_decide (gc_status j = "OK"%string)), (gc_results j) as [|first others].
  - unfold try_catch, bind.
    destruct (nominatimGeocode env locationName w2) as [[[o|]|e] w3] eqn:Hn;
      try discriminate.
    intros [= <- <-]. by eapply nominatimGeocode_caches.
  - unfold bind, modify, ret. simpl. intros [= <- <-]. simpl. apply lookup_insert_eq.
  - unfold try_catch, bind.
    destruct (nominatimGeocode env locationName w2) as [[[o|]|e] w3] eqn:Hn;
      try discriminate.
    intros [= <- <-]. by eapply nominatimGeocode_caches.
  - unfold try_catch, bind.
    destruct (nominatimGeocode env locationName w2) as [[[o|]|e] w3] eqn:Hn;
      try discriminate.
    intros [= <- <-]. by eapply nominatimGeocode_caches.
Qed.

(** C7. When a forward geocoding call has succeeded, a following call whose
    (non-empty) text has the same normalized form, trimmed and lower-cased,
    returns the same result and leaves the state as it is: the log of
    provider calls does not grow and the daily budget is not touched.  This
    holds whatever the configuration and the providers do at the second
    call. *)
Theorem C7_geocode_second_call_served_from_cache
        env locationName w out w1 env' locationName' :
  geocodeLocation env locationName w = (Ok (Some out), w1) ->
  truthy locationName' = true ->
  geocodeKey locationName' = geocodeKey locationName ->
  geocodeLocation env' locationName' w1 = (Ok (Some out), w1)
  /\ forall res w2, geocodeLocation env' locationName' w1 = (res, w2) ->
                    res = Ok (Some out)
                    /\ providerCalls w2 = providerCalls w1
                    /\ googleUsage w2 = googleUsage w1.
Proof.
  intros Hfirst Hne Hkey.
  apply geocodeLocation_success_cached in Hfirst. rewrite <- Hkey in Hfirst.
  pose proof (geocodeLocation_hit env' locationName' w1 out Hne Hfirst) as Hhit.
  split; [exact Hhit|].
  intros res w2 H. rewrite Hhit in H. by inversion H.
Qed.

Lemma C7_geocode_second_call_served_from_cache_witness :
  let out := mkGeoResult (Fin (165 # 10)) (Fin (8065 # 100)) "Benz Circle, Vijayawada" in
  let w1 := snd (geocodeLocation nominatim_only_env "  Benz Circle " fresh_world) in
  geocodeLocation nominatim_only_env "  Benz Circle " fresh_world = (Ok (Some out), w1)
  /\ truthy "benz circle" = true
  /\ geocodeKey "benz circle" = geocodeKey "  Benz Circle "
  /\ geocodeLocation offline_env "benz circle" w1 = (Ok (Some out), w1)
  /\ forall res w2, geocodeLocation offline_env "benz circle" w1 = (res, w2) ->
                    res = Ok (Some out)
                    /\ providerCalls w2 = providerCalls w1
                    /\ googleUsage w2 = googleUsage w1.
Proof.
  intros out w1.
  assert (H1 : geocodeLocation nominatim_only_env "  Benz Circle " fresh_world
               = (Ok (Some out), w1)) by reflexivity.
  assert (H2 : truthy "benz circle" = true) by reflexivity.
  assert (H3 : geocodeKey "benz circle" = geocodeKey "  Benz Circle ") by reflexivity.
  split; [exact H1|]. split; [exact H2|]. split; [exact H3|].
  exact (C7_geocode_second_call_served_from_cache
           nominatim_only_env "  Benz Circle " fresh_world out w1
           offline_env "benz circle" H1 H2 H3).
Defined.

(** ** Reverse geocoding *)

(** [round6 q / 10^6] is a nearest multiple of 1e-6 to [|q|]: written with
    [q = a/b], twice the error [2 * (n * b - a * 10^6)] lies in [(-b, b]]. *)
Lemma round6_nearest q :
  let a := Z.abs (Qnum q) in
  let b := Z.pos (Qden q) in
  - b < 2 * (round6 q * b - a * 1000000) <= b.
Proof.
  intros a b. unfold round6. fold a b.
  assert (Hb : 0 < 2 * b) by (unfold b; lia).
  pose proof (Z.mul_div_le (2 * a * 1000000 + b) (2 * b) Hb).
  pose proof (Z.mul_succ_div_gt (2 * a * 1000000 + b) (2 * b) Hb).
  lia.
Qed.

(** The key only depends on the six-decimal rendering of the coordinates. *)
Lemma reverseKey_same_rendering lat lng lat' lng' :
  toFixed6 lat' = toFixed6 lat -> toFixed6 lng' = toFixed6 lng ->
  reverseKey lat' lng' = reverseKey lat lng.
Proof. unfold reverseKey. by intros -> ->. Qed.

Lemma reverseGeocode_hit env lat lng w hit :
  reverseGeocodeCache w !! reverseKey lat lng = Some hit ->
  reverseGeocode env lat lng w = (Ok hit, w).
Proof. intros H. unfold reverseGeocode, bind, get_world. by rewrite H. Qed.

Lemma nominatimReverse_fails env lat lng w :
  nominatimReverseFails (nominatimReverseApi env (mkLatLng lat lng)) ->
  exists w', (nominatimReverse env lat lng w = (Ok None, w')
              \/ exists e, nominatimReverse env lat lng w = (Err e, w'))
             /\ reverseGeocodeCache w' = reverseGeocodeCache w.
Proof.
  unfold nominatimReverseFails, nominatimReverse, bind, request, modify, ret, throw.
  simpl. destruct (nominatimReverseApi env _) as [| |name]; intros H.
  - eexists. split; [right; eexists; reflexivity | done].
  - eexists. split; [right; eexists; reflexivity | done].
  - rewrite H. eexists. split; [left; reflexivity | done].
Qed.

(** The Nominatim leg of [geocodeLatLng], when Nominatim gives nothing: the
    address is the label made of the raw coordinates. *)
Lemma nominatim_fallback_label env lat lng w :
  nominatimReverseFails (nominatimReverseApi env (mkLatLng lat lng)) ->
  exists w',
    try_catch
      (do addr <- nominatimReverse env lat lng;
       ret (mkGeoResult lat lng (orLabel env addr lat lng)))
      (fun _ => ret (mkGeoResult lat lng (coordinateLabel env lat lng))) w
    = (Ok (mkGeoResult lat lng (coordinateLabel env lat lng)), w').
Proof.
  intros Hn. unfold try_catch.
  destruct (nominatimReverse_fails env lat lng w Hn) as (w' & [H | [e H]] & _).
  - rewrite (bind_ok _ _ _ _ _ H). unfold ret. simpl. by eauto.
  - rewrite (bind_err _ _ _ _ _ H). unfold ret. by eauto.
Qed.

(** C8, as amended.  [reverseGeocode] keys its cache with the coordinates
    rendered with six decimals: a call whose coordinates render like those
    of a cached entry is answered from the cache, and every address it
    returns is stored under that key.  On total failure it does not make up
    an address: without a Google key, when Nominatim gives nothing, it fails
    with an error; with a key, when Google gives nothing, it returns [null].
    The address made of the raw coordinates comes from the other, uncached
    operation [geocodeLatLng], when its call is not refused by the usage
    governor, Google gives nothing (or no key is set) and Nominatim gives
    nothing. *)
Theorem C8_reverse_geocode_key_and_total_failure env w lat lng :
  reverseKey lat lng = (toFixed6 lat ++ "," ++ toFixed6 lng)%string
  /\ (forall lat' lng' hit,
         toFixed6 lat' = toFixed6 lat -> toFixed6 lng' = toFixed6 lng ->
         reverseGeocodeCache w !! reverseKey lat lng = Some hit ->
         reverseGeocode env lat' lng' w = (Ok hit, w))
  /\ (forall addr w',
         reverseGeocode env lat lng w = (Ok (Some addr), w') ->
         reverseGeocodeCache w' !! reverseKey lat lng = Some (Some addr))
  /\ (reverseGeocodeCache w !! reverseKey lat lng = None ->
      GOOGLE_MAPS_KEY env = None ->
      nominatimReverseFails (nominatimReverseApi env (mkLatLng lat lng)) ->
      exists w', reverseGeocode env lat lng w = (Err KeyNotConfigured, w'))
  /\ (reverseGeocodeCache w !! reverseKey lat lng = None ->
      is_Some (GOOGLE_MAPS_KEY env) ->
      ~ budget_exhausted env w ->
      reverseLookupEmpty (googleReverseApi env (mkLatLng lat lng)) ->
      exists w', reverseGeocode env lat lng w = (Ok None, w'))
  /\ (isNaN lat = false -> isNaN lng = false ->
      GOOGLE_MAPS_KEY env = None
      \/ (~ budget_exhausted env w
          /\ reverseLookupEmpty (googleReverseApi env (mkLatLng lat lng))) ->
      nominatimReverseFails (nominatimReverseApi env (mkLatLng lat lng)) ->
      exists w', geocodeLatLng env lat lng w
                 = (Ok (mkGeoResult lat lng (coordinateLabel env lat lng)), w')).
Proof.
  split; [done|]. split; [|split; [|split; [|split]]].
  - intros lat' lng' hit Hlat Hlng Hhit. apply reverseGeocode_hit.
    by rewrite (reverseKey_same_rendering lat lng lat' lng').
  - intros addr w'. unfold reverseGeocode. unfold bind at 1. unfold get_world.
    destruct (reverseGeocodeCache w !! reverseKey lat lng) as [hit|] eqn:Hc.
    { intros [= -> <-]. exact Hc. }
    destruct (GOOGLE_MAPS_KEY env) as [k|].
    + unfold bind at 1.
      destruct (consumeGoogleCall env w) as [[[|]|e] w0]; simpl; try discriminate.
      unfold bind, request, modify, ret. simpl.
      destruct (googleReverseApi env _) as [| |j]; try discriminate.
      destruct (bool_decide (rv_status j = "OK"%string)); [|discriminate].
      destruct (rv_results j) as [|first rest]; [discriminate|].
      intros [= Ha <-]. simpl. rewrite Ha. apply lookup_insert_eq.
    + unfold try_catch, bind at 1.
      destruct (nominatimReverse env lat lng w) as [[[a|]|e] w0]; try discriminate.
      unfold bind, modify, ret. simpl. intros [= <- <-]. simpl. apply lookup_insert_eq.
  - intros Hmiss Hk Hnom. unfold reverseGeocode. unfold bind at 1. unfold get_world.
    rewrite Hmiss, Hk. unfold try_catch.
    destruct (nominatimReverse_fails env lat lng w Hnom) as (w' & [H | [e H]] & _).
    + rewrite (bind_ok _ _ _ _ _ H). unfold throw. by eauto.
    + rewrite (bind_err _ _ _ _ _ H). unfold throw. by eauto.
  - intros Hmiss [k Hk] Hbud Hg. unfold reverseGeocode. unfold bind at 1. unfold get_world.
    rewrite Hmiss, Hk. unfold bind at 1.
    unfold budget_exhausted in Hbud. unfold consumeGoogleCall.
    destruct (checkAndIncrementGoogleUsage _ _) as [[|] u]; simpl in *; [|done].
    unfold bind, request, modify, ret. simpl.
    destruct (googleReverseApi env _) as [| |j]; [by eauto..|].
    simpl in Hg.
    destruct (bool_decide (rv_status j = "OK"%string)) eqn:Hs; [|by eauto].
    destruct (rv_results j) as [|first rest] eqn:Hr; [by eauto|].
    apply bool_decide_eq_true in Hs. exfalso. apply Hg. split; [done | by rewrite ?Hr].
  - intros Hlat Hlng Hroute Hnom. unfold geocodeLatLng. rewrite Hlat, Hlng. simpl.
    pose proof (fun w0 => nominatim_fallback_label env lat lng w0 Hnom) as Hvia.
    destruct (GOOGLE_MAPS_KEY env) as [k|] eqn:Hk.
    + destruct Hroute as [Hnone | [Hbud Hg]]; [discriminate|].
      unfold bind at 1. unfold budget_exhausted in Hbud. unfold consumeGoogleCall.
      destruct (checkAndIncrementGoogleUsage _ _) as [[|] u]; simpl in *; [|done].
      unfold bind at 1. unfold request, bind, modify, ret. simpl.
      destruct (googleReverseApi env _) as [| |j]; [apply Hvia | done |].
      simpl in Hg.
      destruct (bool_decide (rv_status j = "OK"%string)) eqn:Hs; [|apply Hvia].
      destruct (rv_results j) as [|first rest] eqn:Hr; [apply Hvia|].
      apply bool_decide_eq_true in Hs. exfalso. apply Hg. split; [done | by rewrite ?Hr].
    + apply Hvia.
Qed.

(** Coordinates that differ beyond the sixth decimal share one key. *)
Example reverseKey_rounds :
  reverseKey (Fin (165062004 # 10000000)) (Fin (806479996 # 10000000))
  = "16.506200,80.648000"%string
  /\ reverseKey (Fin (165062 # 10000)) (Fin (80648 # 1000))
     = "16.506200,80.648000"%string.
Proof. split; reflexivity. Qed.

Lemma C8_reverse_geocode_key_and_total_failure_witness :
  let lat := Fin (165 # 10) in
  let lng := Fin (8065 # 100) in
  (exists w', reverseGeocode offline_env lat lng fresh_world = (Err KeyNotConfigured, w'))
  /\ (exists w', geocodeLatLng offline_env lat lng fresh_world
                 = (Ok (mkGeoResult lat lng "16.500000, 80.650000"), w')).
Proof.
  intros lat lng.
  pose proof (C8_reverse_geocode_key_and_total_failure offline_env fresh_world lat lng)
    as (_ & _ & _ & Hrev & _ & Hlabel).
  split.
  - apply Hrev; [reflexivity | reflexivity | exact I].
  - apply Hlabel; [reflexivity | reflexivity | left; reflexivity | exact I].
Defined.

(** C8, as stated, fails for [reverseGeocode]: when every provider fails it
    rejects (no key configured) or resolves with [null] (key configured);
    in neither case does its caller get an address made of the
    coordinates. *)
Lemma C8_counterexample :
  let lat := Fin (165 # 10) in
  let lng := Fin (8065 # 100) in
  fst (reverseGeocode offline_env lat lng fresh_world) = Err KeyNotConfigured
  /\ fst (reverseGeocode keyed_env lat lng fresh_world) = Ok None.
Proof. split; reflexivity. Qed.

(** ** Decoding polylines *)

Lemma five_bits x :
  0 <= x < 32 ->
  Z.lor 32 x = 32 + x /\ Z.land (32 + x) 31 = x /\ Z.land x 31 = x.
Proof.
  intros H. destruct x as [|p|p]; [done | | lia].
  do 6 (try (destruct p as [p|p|]; try lia; try done)).
Qed.

Lemma charCode_ascii z : 0 <= z < 256 -> charCode (ascii_of_nat (Z.to_nat z)) = z.
Proof.
  intros H. unfold charCode. rewrite nat_ascii_embedding by lia. lia.
Qed.

Lemma to_int32_id z : - 2 ^ 31 <= z < 2 ^ 31 -> to_int32 z = z.
Proof. intros H. unfold to_int32. rewrite Z.mod_small; lia. Qed.

Lemma shl32_small x s :
  0 <= s < 32 -> 0 <= x -> x * 2 ^ s < 2 ^ 31 -> shl32 x s = Z.shiftl x s.
Proof.
  intros Hs Hx Hb. unfold shl32. rewrite (Z.mod_small s 32) by lia.
  rewrite Z.shiftl_mul_pow2 by lia. apply to_int32_id.
  split; [|done]. pose proof (Z.pow_pos_nonneg 2 s). nia.
Qed.

(** The low five bits and the rest make up the number. *)
Lemma split_low_five u :
  Z.lor (Z.land u 31) (Z.shiftl (Z.shiftr u 5) 5) = u.
Proof.
  apply Z.bits_inj'. intros n Hn.
  rewrite Z.lor_spec, Z.land_spec.
  change 31 with (Z.ones 5).
  destruct (Z.lt_ge_cases n 5) as [Hlt | Hge].
  - rewrite Z.shiftl_spec_low by lia.
    rewrite Z.ones_spec_low by lia. by rewrite andb_true_r, orb_false_r.
  - rewrite Z.shiftl_spec by lia. rewrite Z.shiftr_spec by lia.
    rewrite Z.ones_spec_high by lia. rewrite andb_false_r. simpl.
    f_equal. lia.
Qed.

Lemma land_31_bounds u : 0 <= Z.land u 31 < 32.
Proof.
  change 31 with (Z.ones 5). rewrite Z.land_ones by lia.
  apply Z.mod_pos_bound. lia.
Qed.

Lemma land_31_le u : 0 <= u -> Z.land u 31 <= u.
Proof.
  intros H. change 31 with (Z.ones 5). rewrite Z.land_ones by lia.
  apply Z.mod_le; lia.
Qed.

Lemma shiftr_5_bounds u : 0 <= u -> 0 <= Z.shiftr u 5 /\ 32 * Z.shiftr u 5 <= u.
Proof.
  intros H. rewrite Z.shiftr_div_pow2 by lia. change (2 ^ 5) with 32.
  split; [apply Z.div_pos; lia | apply Z.mul_div_le; lia].
Qed.

Lemma append_cons c s t : String.append (String c s) t = String c (String.append s t).
Proof. reflexivity. Qed.

(** Reading back the groups of [u]: the bits of [u] land in [result] from
    position [shift] on, as long as they fit a positive 32-bit integer. *)
Lemma readValue_emitGroups : forall fuel u shift acc rest,
  0 <= u < 32 ^ Z.of_nat (S fuel) ->
  0 <= shift < 32 ->
  u * 2 ^ shift < 2 ^ 31 ->
  readValue (emitGroups_spec (S fuel) u ++ rest) shift acc
  = (Z.lor acc (Z.shiftl u shift), rest).
Proof.
  induction fuel as [|fuel IH]; intros u shift acc rest Hu Hs Hb.
  { cbn [emitGroups_spec]. change (32 ^ Z.of_nat 1) with 32 in Hu.
    destruct (Z.ltb_spec u 32) as [Hsmall | Hbig]; [|lia].
    rewrite append_cons. cbn [readValue].
    rewrite charCode_ascii by lia. replace (u + 63 - 63) with u by lia.
    destruct (five_bits u) as (_ & _ & ->); [lia|].
    rewrite shl32_small by lia.
    by destruct (Z.leb_spec 32 u); [lia|]. }
  remember (S fuel) as fuel1 eqn:Hfuel.
  cbn [emitGroups_spec].
  destruct (Z.ltb_spec u 32) as [Hsmall | Hbig].
  - rewrite append_cons. cbn [readValue].
    rewrite charCode_ascii by lia. replace (u + 63 - 63) with u by lia.
    destruct (five_bits u) as (_ & _ & ->); [lia|].
    rewrite shl32_small by lia.
    by destruct (Z.leb_spec 32 u); [lia|].
  - pose proof (land_31_bounds u) as Hlow.
    pose proof (land_31_le u ltac:(lia)) as Hle.
    destruct (shiftr_5_bounds u ltac:(lia)) as [Hhi0 Hhi].
    destruct (five_bits (Z.land u 31) Hlow) as (Hor & Hand & _).
    rewrite append_cons. cbn [readValue].
    rewrite Hor. rewrite charCode_ascii by lia.
    replace (32 + Z.land u 31 + 63 - 63) with (32 + Z.land u 31) by lia.
    rewrite Hand.
    destruct (Z.leb_spec 32 (32 + Z.land u 31)); [|lia].
    assert (Hpow : 0 < 2 ^ shift) by (apply Z.pow_pos_nonneg; lia).
    rewrite shl32_small by nia.
    assert (Hshift : shift + 5 < 32).
    { destruct (Z.lt_ge_cases (shift + 5) 32) as [|Hge]; [done|].
      assert (2 ^ 27 <= 2 ^ shift) by (apply Z.pow_le_mono_r; lia).
      change (2 ^ 27) with 134217728 in *. change (2 ^ 31) with 2147483648 in *.
      nia. }
    subst fuel1. rewrite IH.
    + rewrite <- Z.lor_assoc. f_equal. f_equal.
      replace (shift + 5) with (5 + shift) by lia.
      rewrite <- Z.shiftl_shiftl by lia.
      rewrite <- Z.shiftl_lor. by rewrite split_low_five.
    + split; [done|].
      rewrite (Nat2Z.inj_succ (S fuel)), Z.pow_succ_r in Hu by lia. lia.
    + lia.
    + rewrite Z.pow_add_r by lia. change (2 ^ 5) with 32. nia.
Qed.

Lemma zigzag_spec_bounds v :
  - 2 ^ 29 <= v < 2 ^ 29 -> 0 <= zigzag_spec v < 2 ^ 30.
Proof.
  intros H. unfold zigzag_spec. change (2 ^ 29) with 536870912 in H.
  change (2 ^ 30) with 1073741824.
  destruct (Z.ltb_spec v 0).
  - unfold Z.lnot. rewrite Z.shiftl_mul_pow2 by lia. lia.
  - rewrite Z.shiftl_mul_pow2 by lia. lia.
Qed.

Lemma land_1 x : Z.land x 1 = x mod 2.
Proof. exact (Z.land_ones x 1 ltac:(lia)). Qed.

Lemma unzigzag_zigzag v : unzigzag (zigzag_spec v) = v.
Proof.
  unfold unzigzag, zigzag_spec.
  destruct (Z.ltb_spec v 0).
  - rewrite land_1, Z.shiftr_div_pow2 by lia.
    unfold Z.lnot. rewrite Z.shiftl_mul_pow2 by lia. change (2 ^ 1) with 2.
    replace (Z.pred (- (v * 2))) with (1 + (- v - 1) * 2) by lia.
    rewrite Z.mod_add, Z.div_add by lia.
    change (1 mod 2) with 1. change (1 / 2) with 0. change (1 =? 0) with false.
    cbv iota. lia.
  - rewrite land_1, Z.shiftr_div_pow2 by lia.
    rewrite Z.shiftl_mul_pow2 by lia. change (2 ^ 1) with 2.
    rewrite Z.mod_mul, Z.div_mul by lia. reflexivity.
Qed.

(** One encoded value is read back as its zig-zag form. *)
Lemma readValue_encodeValue v rest :
  - 2 ^ 29 <= v < 2 ^ 29 ->
  readValue (encodeValue_spec v ++ rest) 0 0 = (zigzag_spec v, rest).
Proof.
  intros Hv. pose proof (zigzag_spec_bounds v Hv) as Hu.
  unfold encodeValue_spec.
  rewrite readValue_emitGroups.
  - by rewrite Z.lor_0_l, Z.shiftl_0_r.
  - split; [lia|].
    destruct (Z.eq_dec (zigzag_spec v) 0) as [-> | Hnz]; [done|].
    rewrite Nat2Z.inj_succ, Z2Nat.id by apply Z.log2_nonneg.
    fold (Z.succ (Z.log2 (zigzag_spec v))).
    pose proof (Z.log2_spec (zigzag_spec v) ltac:(lia)) as [_ Hlog].
    eapply Z.lt_le_trans; [exact Hlog|].
    change 32 with (2 ^ 5). rewrite <- Z.pow_mul_r by (pose proof (Z.log2_nonneg (zigzag_spec v)); lia).
    apply Z.pow_le_mono_r; [lia|]. pose proof (Z.log2_nonneg (zigzag_spec v)). lia.
  - lia.
  - change (2 ^ 0) with 1. change (2 ^ 30) with 1073741824 in Hu.
    change (2 ^ 31) with 2147483648. lia.
Qed.

Lemma encodeValue_nonempty v : exists c s, encodeValue_spec v = String c s.
Proof.
  unfold encodeValue_spec. cbn [emitGroups_spec].
  destruct (zigzag_spec v <? 32); by eauto.
Qed.

Lemma length_append s t :
  String.length (String.append s t) = (String.length s + String.length t)%nat.
Proof. induction s as [|c s IH]; simpl; [done | by rewrite IH]. Qed.

(** Reading a value never lengthens the string, and shortens a non-empty
    one. *)
Lemma readValue_length : forall s shift result,
  (String.length (snd (readValue s shift result)) <= String.length s)%nat.
Proof.
  induction s as [|c s IH]; intros shift result; simpl; [lia|].
  destruct (32 <=? charCode c - 63); simpl; [|lia].
  specialize (IH (shift + 5) (Z.lor result (shl32 (Z.land (charCode c - 63) 31) shift))).
  lia.
Qed.

Lemma readValue_length_cons c s shift result :
  (String.length (snd (readValue (String c s) shift result)) <= String.length s)%nat.
Proof.
  simpl. destruct (32 <=? charCode c - 63); simpl; [|lia].
  apply readValue_length.
Qed.

(** One round of the decoding loop on a non-empty string. *)
Lemma decodeLoop_step fuel c s lat lng :
  decodeLoop (S fuel) (String c s) lat lng
  = let '(r1, s1) := readValue (String c s) 0 0 in
    let lat' := round53 (lat + unzigzag r1) in
    let '(r2, s2) := readValue s1 0 0 in
    let lng' := round53 (lng + unzigzag r2) in
    mkLatLng (scale5 lat') (scale5 lng') :: decodeLoop fuel s2 lat' lng'.
Proof. reflexivity. Qed.

(** The loop never runs out of fuel when it starts with as many rounds as
    the string has characters: more fuel changes nothing. *)
Lemma decodeLoop_fuel : forall f1 f2 s lat lng,
  (String.length s <= f1)%nat -> (String.length s <= f2)%nat ->
  decodeLoop f1 s lat lng = decodeLoop f2 s lat lng.
Proof.
  induction f1 as [|f1 IH]; intros f2 s lat lng H1 H2.
  - destruct s; [|simpl in H1; lia]. by destruct f2.
  - destruct s as [|c s]; [by destruct f2|].
    destruct f2 as [|f2]; [simpl in H2; lia|].
    rewrite !decodeLoop_step.
    pose proof (readValue_length_cons c s 0 0) as Hl1.
    destruct (readValue (String c s) 0 0) as [r1 s1]. simpl in Hl1.
    pose proof (readValue_length s1 0 0) as Hl2.
    destruct (readValue s1 0 0) as [r2 s2]. simpl in Hl2.
    simpl in H1, H2. f_equal. apply IH; lia.
Qed.

Lemma encodeFrom_length : forall pts a0 b0,
  (length pts <= String.length (encodeFrom_spec a0 b0 pts))%nat.
Proof.
  induction pts as [|[a b] pts IH]; intros a0 b0; simpl; [lia|].
  rewrite !length_append.
  destruct (encodeValue_nonempty (a - a0)) as (c & s & ->).
  specialize (IH a b). simpl. lia.
Qed.

(** *** Rounding to binary64 *)

Lemma round_half_even_error a b :
  0 <= a -> 0 < b -> 2 * Z.abs (round_half_even a b * b - a) <= b.
Proof.
  intros Ha Hb. unfold round_half_even.
  pose proof (Z.div_mod a b ltac:(lia)) as Hdm.
  pose proof (Z.mod_pos_bound a b Hb) as Hr.
  set (q := a / b) in *. set (r := a mod b) in *.
  assert (Hq : q * b - a = - r) by lia.
  assert (Hq1 : (q + 1) * b - a = b - r) by lia.
  destruct (Z.ltb_spec (2 * r) b); [rewrite Hq; lia|].
  destruct (Z.ltb_spec b (2 * r)); [rewrite Hq1; lia|].
  destruct (Z.even q); [rewrite Hq | rewrite Hq1]; lia.
Qed.

(** An integer below 2^53 in magnitude is a binary64 number. *)
Lemma round53_small z : Z.abs z < 2 ^ 53 -> round53 z = z.
Proof.
  intros Hz. unfold round53.
  destruct (Z.leb_spec (Z.log2 (Z.abs z) - 52) 0) as [|Hs]; [done|].
  exfalso.
  assert (Hpos : 0 < Z.abs z).
  { destruct (Z.eq_dec (Z.abs z) 0) as [E|]; [|lia]. rewrite E in Hs. simpl in Hs. lia. }
  apply (Z.log2_lt_pow2 _ 53 Hpos) in Hz. lia.
Qed.

(** Rounding to 53 significant bits moves an integer by at most 2^-53 of
    its magnitude. *)
Lemma round53_error z : 2 ^ 53 * Z.abs (round53 z - z) <= Z.abs z.
Proof.
  unfold round53.
  destruct (Z.leb_spec (Z.log2 (Z.abs z) - 52) 0) as [|Hs].
  { replace (z - z) with 0 by lia. simpl. lia. }
  assert (Hpos : 0 < Z.abs z).
  { destruct (Z.eq_dec (Z.abs z) 0) as [E|]; [|lia]. rewrite E in Hs. simpl in Hs. lia. }
  pose proof (Z.log2_spec _ Hpos) as [Hlow _].
  set (L := Z.log2 (Z.abs z)) in *.
  assert (Hpow : 2 ^ L = 2 ^ 52 * 2 ^ (L - 52)).
  { rewrite <- Z.pow_add_r by lia. f_equal. lia. }
  assert (Hb : 0 < 2 ^ (L - 52)) by (apply Z.pow_pos_nonneg; lia).
  pose proof (round_half_even_error (Z.abs z) (2 ^ (L - 52)) ltac:(lia) Hb) as Herr.
  set (m := round_half_even (Z.abs z) (2 ^ (L - 52)) * 2 ^ (L - 52)) in *.
  assert (Habs : Z.abs (Z.sgn z * m - z) = Z.abs (m - Z.abs z)).
  { destruct z; simpl; lia. }
  rewrite Habs. change (2 ^ 53) with (2 ^ 52 * 2). change (2 ^ 52) with 4503599627370496 in *.
  lia.
Qed.

(** Beyond 2^53 not every integer is kept; a tie goes to the even
    significand. *)
Example round53_beyond_2_53 :
  round53 (2 ^ 53 + 1) = 2 ^ 53
  /\ round53 (2 ^ 53 + 3) = 2 ^ 53 + 4
  /\ round53 (- 2 ^ 53 - 1) = - 2 ^ 53
  /\ round53 (2 ^ 53) = 2 ^ 53.
Proof. by vm_compute. Qed.

(** The product with [1e-5] is the coordinate, up to rounding. *)
Lemma scale5_close n : close_to_e5 (scale5 n) n.
Proof.
  unfold close_to_e5, scale5, e5.
  pose proof (round53_error (n * mantissa_1e_5)) as Herr.
  set (R := round53 (n * mantissa_1e_5)) in *.
  assert (HE : Z.abs (R - n * mantissa_1e_5) <= Z.abs n).
  { unfold mantissa_1e_5 in *. change (2 ^ 53) with 9007199254740992 in Herr. lia. }
  rewrite Qred_correct.
  apply Qabs_Qle_condition. unfold mantissa_1e_5 in HE.
  split; unfold Qle, Qminus, Qplus, Qopp; cbn -[Z.mul Z.abs Z.add]; lia.
Qed.

(** *** Decoding what the documented encoding produces *)

(** From [(a0, b0)] on, the decoder recovers the integer coordinates of the
    points one after the other and scales each by [1e-5]. *)
Lemma decodeLoop_encodeFrom : forall pts fuel a0 b0,
  (length pts <= fuel)%nat ->
  small_steps a0 b0 pts ->
  Forall exact_e5 pts ->
  decodeLoop fuel (encodeFrom_spec a0 b0 pts) a0 b0 = map decoded_point pts.
Proof.
  induction pts as [|[a b] pts IH]; intros fuel a0 b0 Hfuel Hsteps Hpts.
  - by destruct fuel.
  - destruct fuel as [|fuel]; [simpl in Hfuel; lia|].
    inversion Hpts as [|? ? [Ha Hb] Hrest]; subst. cbn [fst snd] in Ha, Hb.
    cbn [small_steps] in Hsteps. destruct Hsteps as (Hda & Hdb & Hsteps).
    cbn [encodeFrom_spec].
    destruct (encodeValue_nonempty (a - a0)) as (c & s & Henc).
    assert (Hstep : forall t, String.append (encodeValue_spec (a - a0)) t
                              = String c (String.append s t)).
    { intros t. by rewrite Henc. }
    rewrite Hstep, decodeLoop_step, <- Hstep.
    rewrite readValue_encodeValue by done.
    rewrite readValue_encodeValue by done.
    rewrite !unzigzag_zigzag.
    replace (a0 + (a - a0)) with a by lia. replace (b0 + (b - b0)) with b by lia.
    rewrite !round53_small by done.
    cbn [map]. f_equal. apply IH; [simpl in Hfuel; lia | done | done].
Qed.

Lemma decodePolyline_encodePolyline pts :
  small_steps 0 0 pts ->
  Forall exact_e5 pts ->
  decodePolyline (encodePolyline_spec pts) = map decoded_point pts.
Proof.
  intros Hsteps Hpts. unfold decodePolyline, encodePolyline_spec.
  destruct (truthy (encodeFrom_spec 0 0 pts)) eqn:Ht.
  - apply decodeLoop_encodeFrom; [apply encodeFrom_length | done | done].
  - destruct pts as [|[a b] pts]; [done|].
    simpl in Ht. destruct (encodeValue_nonempty (a - 0)) as (c & s & Henc).
    by rewrite Henc in Ht.
Qed.

Lemma decoded_points_close pts : Forall2 decodes_to (map decoded_point pts) pts.
Proof.
  induction pts as [|ab pts IH]; [constructor|].
  cbn [map]. constructor; [|done].
  split; apply scale5_close.
Qed.

(** Within the WGS-84 ranges every difference is far below the 2^29 units
    that a value may take, and every coordinate far below 2^53. *)
Lemma wgs84_small_steps : forall pts a0 b0,
  wgs84_e5 (a0, b0) -> Forall wgs84_e5 pts -> small_steps a0 b0 pts.
Proof.
  induction pts as [|[a b] pts IH]; intros a0 b0 H0 Hpts; [done|].
  inversion Hpts as [|? ? Hab Hrest]; subst.
  cbn [small_steps]. unfold wgs84_e5 in H0, Hab. cbn [fst snd] in H0, Hab.
  change (2 ^ 29) with 536870912.
  split; [lia|]. split; [lia|]. by apply IH.
Qed.

Lemma wgs84_exact pts : Forall wgs84_e5 pts -> Forall exact_e5 pts.
Proof.
  intros H. eapply Forall_impl; [exact H|]. intros [a b] [Ha Hb]. cbn [fst snd] in Ha, Hb.
  unfold exact_e5. cbn [fst snd]. change (2 ^ 53) with 9007199254740992. lia.
Qed.

(** C9. [decodePolyline] inverts the documented encoding up to the
    rounding of its last step, the product with [1e-5] in binary64: for
    every sequence of coordinates given in units of 1e-5 degree, with
    latitudes within [-90, 90] and longitudes within [-180, 180], encoding
    the differences between consecutive points (zig-zag, five-bit groups
    with continuation bit, offset 63) and decoding the resulting string
    gives as many points, in the same order: the decoder recovers the
    integer coordinates [n] exactly and returns the binary64 products
    [n * 1e-5], each of them off its original [n * 10^-5] by at most
    [|n| * 2^-68]. *)
Theorem C9_decodePolyline_inverts_encoding (pts : list (Z * Z)) :
  Forall wgs84_e5 pts ->
  decodePolyline (encodePolyline_spec pts) = map decoded_point pts
  /\ Forall2 decodes_to (decodePolyline (encodePolyline_spec pts)) pts.
Proof.
  intros Hpts.
  assert (Heq : decodePolyline (encodePolyline_spec pts) = map decoded_point pts).
  { apply decodePolyline_encodePolyline.
    - apply wgs84_small_steps; [|done]. unfold wgs84_e5. simpl. lia.
    - by apply wgs84_exact. }
  split; [exact Heq|]. rewrite Heq. apply decoded_points_close.
Qed.

(** The example of the format's documentation: (38.5, -120.2),
    (40.7, -120.95), (43.252, -126.453).  The decoder returns the binary64
    numbers that JavaScript writes 38.5, -120.2, 40.7, -120.95, 43.252 and
    -126.45300000000002. *)
Lemma C9_decodePolyline_inverts_encoding_witness :
  let pts := [(3850000, -12020000); (4070000, -12095000); (4325200, -12645300)] in
  Forall wgs84_e5 pts
  /\ encodePolyline_spec pts = "_p~iF~ps|U_ulLnnqC_mqNvxq`@"%string
  /\ decodePolyline "_p~iF~ps|U_ulLnnqC_mqNvxq`@"
     = [mkLatLng (Fin (77 # 2)) (Fin (-8458323050155213 # 70368744177664));
        mkLatLng (Fin (2864007888030925 # 70368744177664))
                 (Fin (-8511099608288461 # 70368744177664));
        mkLatLng (Fin (6087177846344647 # 140737488355328))
                 (Fin (-8898338807498147 # 70368744177664))]
  /\ decodePolyline (encodePolyline_spec pts) = map decoded_point pts
  /\ Forall2 decodes_to (decodePolyline (encodePolyline_spec pts)) pts.
Proof.
  intros pts.
  assert (H : Forall wgs84_e5 pts).
  { repeat constructor; simpl; lia. }
  split; [exact H|]. split; [reflexivity|]. split; [vm_compute; reflexivity|].
  exact (C9_decodePolyline_inverts_encoding pts H).
Defined.

(** The result is not the original sequence itself.  The last longitude
    of the documented example, -126.453, comes back as
    [-8898338807498147 * 2^-46] (written -126.45300000000002), although
    its neighbour among the binary64 numbers, [-8898338807498146 * 2^-46]
    (written -126.453), is closer to the original. *)
Lemma C9_counterexample :
  let pts := [(3850000, -12020000); (4070000, -12095000); (4325200, -12645300)] in
  Forall wgs84_e5 pts
  /\ decodePolyline (encodePolyline_spec pts) <> map point_e5 pts
  /\ lng <$> decodePolyline (encodePolyline_spec pts) !! 2%nat
     = Some (Fin (-8898338807498147 # 70368744177664))
  /\ (Qabs ((-8898338807498146 # 70368744177664) - e5 (-12645300))
      < Qabs ((-8898338807498147 # 70368744177664) - e5 (-12645300)))%Q.
Proof.
  intros pts.
  split; [repeat constructor; simpl; lia|].
  split; [intros H; vm_compute in H; discriminate|].
  split; [vm_compute; reflexivity|].
  vm_compute. reflexivity.
Qed.

(* ================================================================== *)
(** * Part III. Further properties of the code                         *)
(* ================================================================== *)

(** ** The daily budget *)

Lemma consumeCalls_same_day today n : forall u k,
  usage_date u = today ->
  k = Z.to_nat (Z.min (Z.of_nat n) (usage_limit u - usage_count u)) ->
  consumeCalls (replicate n today) u
  = (replicate k true ++ replicate (n - k) false,
     mkGoogleUsage today (usage_count u + Z.of_nat k) (usage_limit u)).
Proof.
  induction n as [|n IH]; intros u k Hd Hk.
  - assert (k = 0%nat) as -> by lia. destruct u as [d c l]. simpl in *. subst.
    f_equal. f_equal. lia.
  - cbn [replicate consumeCalls]. unfold checkAndIncrementGoogleUsage.
    rewrite bool_decide_eq_true_2 by done.
    destruct (Z.leb_spec (usage_limit u) (usage_count u)) as [Hfull | Hroom].
    + rewrite (IH u 0%nat Hd) by lia.
      assert (k = 0%nat) as -> by lia.
      rewrite !Nat.sub_0_r. cbn [replicate app]. first [reflexivity | (f_equal; f_equal; lia)].
    + rewrite (IH (mkGoogleUsage (usage_date u) (usage_count u + 1) (usage_limit u))
                  (Nat.pred k) Hd) by (cbn [usage_count usage_limit]; lia).
      cbn [usage_count usage_limit].
      destruct k as [|k]; [lia|].
      cbn [replicate app Nat.pred Nat.sub]. first [reflexivity | (f_equal; f_equal; lia)].
Qed.

(** X1. On one day the governor grants exactly what is left of the budget:
    of [n] calls made on the day of the usage record, the first
    [min(n, limit - count)] are granted and all others are refused, and the
    count ends at what it was plus the number of grants. *)
Theorem X1_daily_budget_grants_what_is_left today n u :
  usage_date u = today ->
  let k := Z.to_nat (Z.min (Z.of_nat n) (usage_limit u - usage_count u)) in
  consumeCalls (replicate n today) u
  = (replicate k true ++ replicate (n - k) false,
     mkGoogleUsage today (usage_count u + Z.of_nat k) (usage_limit u)).
Proof. intros Hd k. by apply consumeCalls_same_day. Qed.

Lemma X1_daily_budget_grants_what_is_left_witness :
  let u := mkGoogleUsage "2025-01-01" 998 1000 in
  usage_date u = "2025-01-01"%string
  /\ consumeCalls (replicate 5 "2025-01-01"%string) u
     = ([true; true; false; false; false], mkGoogleUsage "2025-01-01" 1000 1000).
Proof.
  intros u. split; [reflexivity|].
  exact (X1_daily_budget_grants_what_is_left "2025-01-01" 5 u eq_refl).
Defined.

(** X2. A new day starts with the full budget, whatever the record said
    before: of [n >= 1] calls on a day other than the recorded one, the
    first [min(n, limit)] are granted and the others refused. *)
Theorem X2_new_day_full_budget today n u :
  usage_date u <> today ->
  let k := Z.to_nat (Z.min (Z.of_nat (S n)) (usage_limit u)) in
  consumeCalls (replicate (S n) today) u
  = (replicate k true ++ replicate (S n - k) false,
     mkGoogleUsage today (Z.of_nat k) (usage_limit u)).
Proof.
  intros Hd k.
  cbn [replicate consumeCalls]. unfold checkAndIncrementGoogleUsage.
  rewrite bool_decide_eq_false_2 by done. cbn [usage_count usage_limit usage_date].
  destruct (Z.leb_spec (usage_limit u) 0) as [Hfull | Hroom].
  - rewrite (consumeCalls_same_day today n (mkGoogleUsage today 0 (usage_limit u)) 0%nat)
      by (cbn [usage_count usage_limit usage_date]; (done || lia)).
    assert (k = 0%nat) as -> by (subst k; lia).
    rewrite !Nat.sub_0_r. cbn [replicate app usage_count usage_limit]. first [reflexivity | (f_equal; f_equal; lia)].
  - rewrite (consumeCalls_same_day today n (mkGoogleUsage today (0 + 1) (usage_limit u))
               (Nat.pred k))
      by (cbn [usage_count usage_limit usage_date]; (done || (subst k; lia))).
    assert (Hk : exists k', k = S k') by (exists (Nat.pred k); subst k; lia).
    destruct Hk as [k' ->].
    cbn [replicate app usage_count usage_limit Nat.pred Nat.sub].
    first [reflexivity | (f_equal; f_equal; lia)].
Qed.

Lemma X2_new_day_full_budget_witness :
  let u := mkGoogleUsage "2025-01-01" 1000 1000 in
  usage_date u <> "2025-01-02"%string
  /\ consumeCalls (replicate 3 "2025-01-02"%string) u
     = ([true; true; true], mkGoogleUsage "2025-01-02" 3 1000).
Proof.
  intros u.
  assert (H : usage_date u <> "2025-01-02"%string) by discriminate.
  split; [exact H|].
  exact (X2_new_day_full_budget "2025-01-02" 2 u H).
Defined.

(** ** The hourly limits, in general *)

Lemma truthy_toLowerCase c : truthy (toLowerCase c) = truthy c.
Proof. by destruct c. Qed.

Lemma serve_app lim l1 l2 st :
  serve lim (l1 ++ l2) st
  = let '(o1, st1) := serve lim l1 st in
    let '(o2, st2) := serve lim l2 st1 in
    (o1 ++ o2, st2).
Proof.
  revert st. induction l1 as [|r l1 IH]; intros st; simpl.
  - by destruct (serve lim l2 st).
  - destruct (availabilityGate _ _ _ _ _ st) as [o st1]. rewrite IH.
    destruct (serve lim l1 st1) as [o1 st2]. by destruct (serve lim l2 st2).
Qed.

Lemma allowed_at lim now ip key st k t0 :
  truthy key = true ->
  client_at st ip key k t0 ->
  isAvailabilityAllowed lim now ip (Some key) st
  = (k <? Z.min (AVAILABILITY_LIMIT_PER_HOUR lim)
                (AVAILABILITY_LIMIT_PER_CONTACT_PER_HOUR lim)).
Proof.
  intros Hk [Hip Hct]. unfold isAvailabilityAllowed, contact_given.
  rewrite Hk, Hip, Hct. simpl.
  destruct (Z.leb_spec (AVAILABILITY_LIMIT_PER_HOUR lim) k);
    destruct (Z.leb_spec (AVAILABILITY_LIMIT_PER_CONTACT_PER_HOUR lim) k);
    destruct (Z.ltb_spec k (Z.min (AVAILABILITY_LIMIT_PER_HOUR lim)
                                  (AVAILABILITY_LIMIT_PER_CONTACT_PER_HOUR lim)));
    (done || lia).
Qed.

Lemma allowed_without_history lim now ip key st :
  truthy key = true ->
  availabilityCounters st !! ip = None ->
  availabilityContactCounters st !! key = None ->
  isAvailabilityAllowed lim now ip (Some key) st
  = (0 <? Z.min (AVAILABILITY_LIMIT_PER_HOUR lim)
                (AVAILABILITY_LIMIT_PER_CONTACT_PER_HOUR lim)).
Proof.
  intros Hk Hip Hct. unfold isAvailabilityAllowed, contact_given.
  rewrite Hk, Hip, Hct. simpl.
  destruct (Z.leb_spec (AVAILABILITY_LIMIT_PER_HOUR lim) 0);
    destruct (Z.leb_spec (AVAILABILITY_LIMIT_PER_CONTACT_PER_HOUR lim) 0);
    destruct (Z.ltb_spec 0 (Z.min (AVAILABILITY_LIMIT_PER_HOUR lim)
                                  (AVAILABILITY_LIMIT_PER_CONTACT_PER_HOUR lim)));
    (done || lia).
Qed.

Lemma bump_open now k t0 :
  now - t0 <= hourWindow -> bump now (Some (mkCounter k t0)) = mkCounter (k + 1) t0.
Proof. intros H. unfold bump. simpl. by destruct (Z.ltb_spec hourWindow (now - t0)); [lia|]. Qed.

Lemma bump_expired now k t0 :
  hourWindow < now - t0 -> bump now (Some (mkCounter k t0)) = mkCounter 1 now.
Proof. intros H. unfold bump. simpl. by destruct (Z.ltb_spec hourWindow (now - t0)); [|lia]. Qed.

Lemma bump_fresh now : bump now None = mkCounter 1 now.
Proof.
  unfold bump. simpl. replace (now - now) with 0 by lia. reflexivity.
Qed.

(** The counters of the client after [incrementAvailability], given what
    [bump] makes of its two counters. *)
Lemma increment_client now ip key st c :
  truthy key = true ->
  bump now (availabilityCounters st !! ip) = c ->
  bump now (availabilityContactCounters st !! key) = c ->
  client_at (snd (incrementAvailability now ip (Some key) st)) ip key
            (count c) (windowStart c).
Proof.
  intros Hk Hip Hct. unfold incrementAvailability, contact_given.
  rewrite Hk, Hip, Hct. destruct c as [n t]. simpl.
  split; apply lookup_insert_eq.
Qed.

Lemma gate_accepts lim t ip contact st :
  truthy contact = true ->
  isAvailabilityAllowed lim t ip (Some (toLowerCase contact)) st = true ->
  availabilityGate lim t ip (Some contact) true st
  = (Accepted, snd (incrementAvailability t ip (Some (toLowerCase contact)) st)).
Proof.
  intros Hc Hal.
  assert (Hg : contact_given (Some contact) = Some contact) by (simpl; by rewrite Hc).
  unfold availabilityGate. rewrite Hg.
  cbn [fmap option_fmap option_map]. rewrite Hal. cbn [negb].
  by rewrite bool_decide_eq_true_2 by (by eexists).
Qed.

Lemma gate_rejects lim t ip contact wf st :
  truthy contact = true ->
  isAvailabilityAllowed lim t ip (Some (toLowerCase contact)) st = false ->
  availabilityGate lim t ip (Some contact) wf st = (RateLimited, st).
Proof.
  intros Hc Hal.
  assert (Hg : contact_given (Some contact) = Some contact) by (simpl; by rewrite Hc).
  unfold availabilityGate. rewrite Hg.
  cbn [fmap option_fmap option_map]. by rewrite Hal.
Qed.

(** One well-formed check of a client whose window is still open. *)
Lemma gate_within_window lim ip contact t st k t0 :
  truthy contact = true ->
  client_at st ip (toLowerCase contact) k t0 ->
  t - t0 <= hourWindow ->
  let cap := Z.min (AVAILABILITY_LIMIT_PER_HOUR lim)
                   (AVAILABILITY_LIMIT_PER_CONTACT_PER_HOUR lim) in
  if k <? cap
  then exists st', availabilityGate lim t ip (Some contact) true st = (Accepted, st')
                   /\ client_at st' ip (toLowerCase contact) (k + 1) t0
  else availabilityGate lim t ip (Some contact) true st = (RateLimited, st).
Proof.
  intros Hc Hst Ht cap.
  assert (Hk : truthy (toLowerCase contact) = true) by (by rewrite truthy_toLowerCase).
  pose proof (allowed_at lim t ip (toLowerCase contact) st k t0 Hk Hst) as Hal.
  fold cap in Hal. destruct (k <? cap).
  - eexists. split; [by apply gate_accepts|].
    destruct Hst as [Hip Hct].
    apply (increment_client t ip (toLowerCase contact) st (mkCounter (k + 1) t0) Hk).
    + rewrite Hip. by apply bump_open.
    + rewrite Hct. by apply bump_open.
  - by apply gate_rejects.
Qed.

(** A well-formed check of a client below both caps whose window has
    expired, or who has no counters yet: a new window starts at the time of
    the check. *)
Lemma gate_new_window lim ip contact t st :
  truthy contact = true ->
  (availabilityCounters st !! ip = None
   /\ availabilityContactCounters st !! toLowerCase contact = None)
  \/ (exists k t0, client_at st ip (toLowerCase contact) k t0
                   /\ hourWindow < t - t0
                   /\ k < Z.min (AVAILABILITY_LIMIT_PER_HOUR lim)
                                (AVAILABILITY_LIMIT_PER_CONTACT_PER_HOUR lim)) ->
  0 < Z.min (AVAILABILITY_LIMIT_PER_HOUR lim)
            (AVAILABILITY_LIMIT_PER_CONTACT_PER_HOUR lim) ->
  exists st', availabilityGate lim t ip (Some contact) true st = (Accepted, st')
              /\ client_at st' ip (toLowerCase contact) 1 t.
Proof.
  intros Hc Hst Hcap.
  assert (Hk : truthy (toLowerCase contact) = true) by (by rewrite truthy_toLowerCase).
  eexists. split.
  - apply gate_accepts; [done|].
    destruct Hst as [[Hip Hct] | (k & t0 & Hat & Hold & Hlt)].
    + rewrite allowed_without_history by done. by apply Z.ltb_lt.
    + rewrite (allowed_at lim t ip _ st k t0) by done. by apply Z.ltb_lt.
  - apply (increment_client t ip (toLowerCase contact) st (mkCounter 1 t) Hk);
      destruct Hst as [[Hip Hct] | (k & t0 & [Hip Hct] & Hold & Hlt)].
    + rewrite Hip. apply bump_fresh.
    + rewrite Hip. by apply bump_expired.
    + rewrite Hct. apply bump_fresh.
    + rewrite Hct. by apply bump_expired.
Qed.

(** Checks of one client within the hour of its window: accepted until the
    lower cap is reached, rejected from then on. *)
Lemma serve_within_window lim ip contact t0 : forall ts st k,
  truthy contact = true ->
  client_at st ip (toLowerCase contact) k t0 ->
  Forall (fun t => t - t0 <= hourWindow) ts ->
  let room := Z.to_nat (Z.min (AVAILABILITY_LIMIT_PER_HOUR lim)
                              (AVAILABILITY_LIMIT_PER_CONTACT_PER_HOUR lim) - k) in
  exists st',
    serve lim (map (fun t => mkRequest t ip (Some contact) true) ts) st
    = (replicate (Nat.min (length ts) room) Accepted
         ++ replicate (length ts - room) RateLimited, st')
    /\ client_at st' ip (toLowerCase contact)
                 (k + Z.of_nat (Nat.min (length ts) room)) t0.
Proof.
  induction ts as [|t ts IH]; intros st k Hc Hst Hts room.
  - exists st. split; [done|]. by rewrite Z.add_0_r.
  - inversion Hts as [|? ? Ht Hrest]; subst.
    pose proof (gate_within_window lim ip contact t st k t0 Hc Hst Ht) as Hstep.
    cbn [map serve req_time req_ip req_contact req_wellFormed length].
    cbv zeta in Hstep. revert Hstep.
    destruct (Z.ltb_spec k (Z.min (AVAILABILITY_LIMIT_PER_HOUR lim)
                                  (AVAILABILITY_LIMIT_PER_CONTACT_PER_HOUR lim)))
      as [Hlt | Hge]; intros Hstep.
    + destruct Hstep as (st1 & -> & Hst1).
      destruct (IH st1 (k + 1) Hc Hst1 Hrest) as (st' & -> & Hst').
      exists st'.
      set (room' := Z.to_nat (Z.min (AVAILABILITY_LIMIT_PER_HOUR lim)
                      (AVAILABILITY_LIMIT_PER_CONTACT_PER_HOUR lim) - (k + 1))) in *.
      assert (Hroom : room = S room') by (subst room room'; lia).
      rewrite Hroom. cbn [Nat.min Nat.sub replicate app]. split; [done|].
      replace (k + Z.of_nat (S (Nat.min (length ts) room')))
        with (k + 1 + Z.of_nat (Nat.min (length ts) room')) by lia.
      exact Hst'.
    + rewrite Hstep.
      destruct (IH st k Hc Hst Hrest) as (st' & -> & Hst').
      exists st'.
      assert (Hroom : room = 0%nat) by (subst room; lia).
      rewrite Hroom in *.
      assert (Hroom' : Z.to_nat (Z.min (AVAILABILITY_LIMIT_PER_HOUR lim)
                (AVAILABILITY_LIMIT_PER_CONTACT_PER_HOUR lim) - k) = 0%nat) by lia.
      rewrite Hroom' in *.
      rewrite !Nat.min_0_r, !Nat.sub_0_r in *. cbn [replicate app]. done.
Qed.

(** A window that starts with the first of the checks [t0 :: ts], all of
    them within the hour: the lower cap many are accepted. *)
Lemma serve_new_window lim ip contact t0 ts st :
  truthy contact = true ->
  (availabilityCounters st !! ip = None
   /\ availabilityContactCounters st !! toLowerCase contact = None)
  \/ (exists k t, client_at st ip (toLowerCase contact) k t
                  /\ hourWindow < t0 - t /\ k < lowerCap lim) ->
  0 < lowerCap lim ->
  Forall (fun t => t - t0 <= hourWindow) ts ->
  let cap := Z.to_nat (lowerCap lim) in
  let n := S (length ts) in
  exists st',
    serve lim (checksAt ip contact (t0 :: ts)) st
    = (replicate (Nat.min n cap) Accepted ++ replicate (n - cap) RateLimited, st')
    /\ client_at st' ip (toLowerCase contact) (Z.of_nat (Nat.min n cap)) t0.
Proof.
  intros Hc Hst Hcap Hts cap n. unfold lowerCap in *.
  destruct (gate_new_window lim ip contact t0 st Hc Hst Hcap) as (st1 & Hg & Hst1).
  destruct (serve_within_window lim ip contact t0 ts st1 1 Hc Hst1 Hts) as (st' & Hs & Hst').
  exists st'. unfold checksAt in *.
  cbn [map serve req_time req_ip req_contact req_wellFormed]. rewrite Hg, Hs.
  set (room := Z.to_nat (Z.min (AVAILABILITY_LIMIT_PER_HOUR lim)
                               (AVAILABILITY_LIMIT_PER_CONTACT_PER_HOUR lim) - 1)) in *.
  assert (Hroom : cap = S room) by (subst cap room; lia).
  subst n. rewrite Hroom. cbn [Nat.min Nat.sub replicate app]. split; [done|].
  replace (Z.of_nat (S (Nat.min (length ts) room)))
    with (1 + Z.of_nat (Nat.min (length ts) room)) by lia.
  exact Hst'.
Qed.

Lemma serve_closed lim ip contact ts st :
  truthy contact = true ->
  availabilityCounters st !! ip = None ->
  availabilityContactCounters st !! toLowerCase contact = None ->
  lowerCap lim <= 0 ->
  serve lim (checksAt ip contact ts) st = (replicate (length ts) RateLimited, st).
Proof.
  intros Hc Hip Hct Hcap. unfold lowerCap in Hcap.
  assert (Hk : truthy (toLowerCase contact) = true) by (by rewrite truthy_toLowerCase).
  induction ts as [|t ts IH]; [done|].
  unfold checksAt in *. cbn [map serve req_time req_ip req_contact req_wellFormed length].
  rewrite gate_rejects; [by rewrite IH | done |].
  rewrite allowed_without_history by done. by apply Z.ltb_ge.
Qed.

(** X3. A client without history sends well-formed checks, all within one
    hour of the first: exactly the lower of the two caps many are accepted,
    every later one is rejected, for any caps and any number of checks. *)
Theorem X3_first_hour_accepts_up_to_the_cap lim ip contact t0 ts :
  truthy contact = true ->
  Forall (fun t => t - t0 <= hourWindow) ts ->
  let cap := Z.to_nat (lowerCap lim) in
  let n := S (length ts) in
  fst (serve lim (checksAt ip contact (t0 :: ts)) no_counters)
  = replicate (Nat.min n cap) Accepted ++ replicate (n - cap) RateLimited.
Proof.
  intros Hc Hts cap n.
  destruct (Z.lt_ge_cases 0 (lowerCap lim)) as [Hpos | Hnone].
  - destruct (serve_new_window lim ip contact t0 ts no_counters Hc) as (st' & -> & _);
      [left; split; apply lookup_empty | done | done | done].
  - rewrite serve_closed by (done || apply lookup_empty || lia).
    assert (cap = 0%nat) as -> by (subst cap; lia).
    subst n. by rewrite Nat.min_0_r, Nat.sub_0_r.
Qed.

Lemma X3_first_hour_accepts_up_to_the_cap_witness :
  let lim := mkRateLimits 3 2 in
  truthy "a@b.co" = true
  /\ Forall (fun t => t - 1000 <= hourWindow) [2000; 3000; 3601000]
  /\ fst (serve lim (checksAt "203.0.113.7" "a@b.co" (1000 :: [2000; 3000; 3601000]))
                no_counters)
     = [Accepted; Accepted; RateLimited; RateLimited].
Proof.
  intros lim.
  assert (Hc : truthy "a@b.co" = true) by reflexivity.
  assert (Hts : Forall (fun t => t - 1000 <= hourWindow) [2000; 3000; 3601000]).
  { repeat constructor; vm_compute; discriminate. }
  split; [exact Hc|]. split; [exact Hts|].
  exact (X3_first_hour_accepts_up_to_the_cap lim "203.0.113.7" "a@b.co" 1000
           [2000; 3000; 3601000] Hc Hts).
Defined.

(** X4. A client that stayed below both caps during its hour gets a whole
    new allowance once the hour is over: the check that comes more than an
    hour after the first opens a new window, in which again the lower cap
    many checks are accepted. *)
Theorem X4_new_hour_new_allowance_below_the_cap lim ip contact t0 ts1 t1 ts2 :
  truthy contact = true ->
  Forall (fun t => t - t0 <= hourWindow) ts1 ->
  (S (length ts1) < Z.to_nat (lowerCap lim))%nat ->
  hourWindow < t1 - t0 ->
  Forall (fun t => t - t1 <= hourWindow) ts2 ->
  let cap := Z.to_nat (lowerCap lim) in
  let n2 := S (length ts2) in
  fst (serve lim (checksAt ip contact ((t0 :: ts1) ++ t1 :: ts2)) no_counters)
  = replicate (S (length ts1)) Accepted
      ++ replicate (Nat.min n2 cap) Accepted ++ replicate (n2 - cap) RateLimited.
Proof.
  intros Hc Hts1 Hbelow Hnew Hts2 cap n2.
  unfold checksAt. rewrite map_app. fold (checksAt ip contact (t0 :: ts1)).
  fold (checksAt ip contact (t1 :: ts2)). rewrite serve_app.
  destruct (serve_new_window lim ip contact t0 ts1 no_counters Hc) as (st1 & -> & Hst1);
    [left; split; apply lookup_empty | lia | done |].
  rewrite Nat.min_l in Hst1 by lia. rewrite Nat.min_l by lia.
  replace (S (length ts1) - Z.to_nat (lowerCap lim))%nat with 0%nat by lia.
  destruct (serve_new_window lim ip contact t1 ts2 st1 Hc) as (st2 & -> & _);
    [right; exists (Z.of_nat (S (length ts1))), t0; split; [done | split; [done | lia]]
    | lia | done |].
  cbn [fst replicate]. by rewrite app_nil_r.
Qed.

Lemma X4_new_hour_new_allowance_below_the_cap_witness :
  let lim := mkRateLimits 3 2 in
  truthy "a@b.co" = true
  /\ Forall (fun t => t - 1000 <= hourWindow) []
  /\ (S (length ([] : list Z)) < Z.to_nat (lowerCap lim))%nat
  /\ hourWindow < 3602000 - 1000
  /\ Forall (fun t => t - 3602000 <= hourWindow) [3603000; 3604000]
  /\ fst (serve lim (checksAt "203.0.113.7" "a@b.co"
                              ((1000 :: []) ++ 3602000 :: [3603000; 3604000]))
                no_counters)
     = [Accepted; Accepted; Accepted; RateLimited].
Proof.
  intros lim.
  assert (Hc : truthy "a@b.co" = true) by reflexivity.
  assert (H1 : Forall (fun t => t - 1000 <= hourWindow) []) by constructor.
  assert (Hb : (S (length ([] : list Z)) < Z.to_nat (lowerCap lim))%nat)
    by (vm_compute; lia).
  assert (Hn : hourWindow < 3602000 - 1000) by (vm_compute; reflexivity).
  assert (H2 : Forall (fun t => t - 3602000 <= hourWindow) [3603000; 3604000]).
  { repeat constructor; vm_compute; discriminate. }
  split; [exact Hc|]. split; [exact H1|]. split; [exact Hb|]. split; [exact Hn|].
  split; [exact H2|].
  exact (X4_new_hour_new_allowance_below_the_cap lim "203.0.113.7" "a@b.co" 1000 []
           3602000 [3603000; 3604000] Hc H1 Hb Hn H2).
Defined.

(** ** The login limiter *)

Lemma loginAttempt_open lim now ip m j t0 :
  m !! ip = Some (mkLoginRecord j t0) ->
  now - t0 <= LOGIN_WINDOW_MS lim ->
  loginAttempt lim now ip m
  = (if LOGIN_MAX_ATTEMPTS lim <? j + 1
     then TooManyAttempts j (retryAfter (t0 + LOGIN_WINDOW_MS lim - now))
     else Proceed,
     <[ip := mkLoginRecord (j + 1) t0]> m).
Proof.
  intros Hm Hopen. unfold loginAttempt. rewrite Hm.
  cbn [from_option id attempts firstTs].
  destruct (Z.ltb_spec (LOGIN_WINDOW_MS lim) (now - t0)); [lia|].
  cbn [attempts firstTs].
  destruct (LOGIN_MAX_ATTEMPTS lim <? j + 1); [|done].
  by replace (j + 1 - 1) with j by lia.
Qed.

Lemma loginAttempt_reset lim now ip m :
  m !! ip = None
  \/ (exists r, m !! ip = Some r /\ LOGIN_WINDOW_MS lim < now - firstTs r) ->
  loginAttempt lim now ip m
  = (if LOGIN_MAX_ATTEMPTS lim <? 1
     then TooManyAttempts 0 (retryAfter (now + LOGIN_WINDOW_MS lim - now))
     else Proceed,
     <[ip := mkLoginRecord 1 now]> m).
Proof.
  intros [Hm | (r & Hm & Hold)]; unfold loginAttempt; rewrite Hm;
    cbn [from_option id attempts firstTs].
  - destruct (LOGIN_WINDOW_MS lim <? now - now); cbn [attempts firstTs];
      change (0 + 1 - 1) with 0; change (0 + 1) with 1;
      by destruct (LOGIN_MAX_ATTEMPTS lim <? 1).
  - destruct (Z.ltb_spec (LOGIN_WINDOW_MS lim) (now - firstTs r)); [|lia].
    cbn [attempts firstTs]. change (0 + 1 - 1) with 0. change (0 + 1) with 1.
    by destruct (LOGIN_MAX_ATTEMPTS lim <? 1).
Qed.

Lemma loginAttempts_run_open lim ip t0 : forall ts m j,
  m !! ip = Some (mkLoginRecord j t0) ->
  Forall (fun t => t - t0 <= LOGIN_WINDOW_MS lim) ts ->
  let outs := fst (loginAttempts_run lim ip ts m) in
  length outs = length ts
  /\ forall i o, outs !! i = Some o ->
                 (o = Proceed <-> j + Z.of_nat i < LOGIN_MAX_ATTEMPTS lim).
Proof.
  induction ts as [|t ts IH]; intros m j Hm Hts outs.
  - split; [done|]. intros i o H. by destruct i.
  - inversion Hts as [|? ? Ht Hrest]; subst.
    subst outs. cbn [loginAttempts_run].
    rewrite (loginAttempt_open lim t ip m j t0 Hm Ht).
    specialize (IH (<[ip := mkLoginRecord (j + 1) t0]> m) (j + 1)
                   (lookup_insert_eq _ _ _) Hrest).
    destruct (loginAttempts_run lim ip ts _) as [os m2].
    cbn [fst] in *. destruct IH as [Hlen Hos].
    split; [simpl; by rewrite Hlen|].
    intros [|i] o Ho.
    + injection Ho as <-.
      destruct (Z.ltb_spec (LOGIN_MAX_ATTEMPTS lim) (j + 1)); split; (done || lia).
    + apply Hos in Ho. rewrite Ho. lia.
Qed.

(** X5. Login attempts from an address without record, all within one
    window of the first: the attempt number [i] (counted from 0) gets past
    the limiter exactly when [i < LOGIN_MAX_ATTEMPTS]; every attempt counts,
    whatever becomes of it afterwards. *)
Theorem X5_login_attempts_within_one_window lim ip t0 ts m :
  m !! ip = None ->
  Forall (fun t => t - t0 <= LOGIN_WINDOW_MS lim) ts ->
  let outs := fst (loginAttempts_run lim ip (t0 :: ts) m) in
  length outs = S (length ts)
  /\ forall i o, outs !! i = Some o ->
                 (o = Proceed <-> Z.of_nat i < LOGIN_MAX_ATTEMPTS lim).
Proof.
  intros Hm Hts outs. subst outs. cbn [loginAttempts_run].
  rewrite (loginAttempt_reset lim t0 ip m) by (by left).
  pose proof (loginAttempts_run_open lim ip t0 ts (<[ip := mkLoginRecord 1 t0]> m) 1
                (lookup_insert_eq _ _ _) Hts) as IH.
  destruct (loginAttempts_run lim ip ts _) as [os m2].
  cbn [fst] in *. destruct IH as [Hlen Hos].
  split; [simpl; by rewrite Hlen|].
  intros [|i] o Ho.
  - injection Ho as <-.
    destruct (Z.ltb_spec (LOGIN_MAX_ATTEMPTS lim) 1); split; (done || lia).
  - apply Hos in Ho. rewrite Ho. lia.
Qed.

Lemma X5_login_attempts_within_one_window_witness :
  let lim := mkLoginLimits 2 900000 in
  let outs := fst (loginAttempts_run lim "203.0.113.7" (1000 :: [2000; 3000]) ∅) in
  (∅ : gmap string LoginRecord) !! "203.0.113.7"%string = None
  /\ Forall (fun t => t - 1000 <= LOGIN_WINDOW_MS lim) [2000; 3000]
  /\ outs = [Proceed; Proceed; TooManyAttempts 2 898]
  /\ length outs = 3%nat
  /\ forall i o, outs !! i = Some o ->
                 (o = Proceed <-> Z.of_nat i < LOGIN_MAX_ATTEMPTS lim).
Proof.
  intros lim outs.
  assert (Hm : (∅ : gmap string LoginRecord) !! "203.0.113.7"%string = None)
    by reflexivity.
  assert (Hts : Forall (fun t => t - 1000 <= LOGIN_WINDOW_MS lim) [2000; 3000]).
  { repeat constructor; vm_compute; discriminate. }
  split; [exact Hm|]. split; [exact Hts|]. split; [reflexivity|].
  exact (X5_login_attempts_within_one_window lim "203.0.113.7" 1000 [2000; 3000]
           ∅ Hm Hts).
Defined.

Lemma retryAfter_covers x : x <= 1000 * retryAfter x.
Proof.
  unfold retryAfter. destruct (Z.ltb_spec 0 x); [|lia].
  pose proof (Z.div_mod (x + 999) 1000 ltac:(lia)).
  pose proof (Z.mod_pos_bound (x + 999) 1000 ltac:(lia)). lia.
Qed.

(** X6. The advertised waiting time is honoured: when an attempt is turned
    away with [retryAfterSeconds = r], any attempt of the same address made
    later than [r] seconds after it gets past the limiter (the limit being
    at least one attempt). *)
Theorem X6_login_retry_after_is_honoured lim now ip m used r m' :
  1 <= LOGIN_MAX_ATTEMPTS lim ->
  loginAttempt lim now ip m = (TooManyAttempts used r, m') ->
  forall now', now + 1000 * r < now' ->
    loginAttempt lim now' ip m' = (Proceed, <[ip := mkLoginRecord 1 now']> m').
Proof.
  intros Hmax Hblocked now' Hlater.
  assert (Hrec : exists f, m' !! ip = Some (mkLoginRecord (used + 1) f)
                           /\ r = retryAfter (f + LOGIN_WINDOW_MS lim - now)).
  { unfold loginAttempt in Hblocked.
    destruct (LOGIN_MAX_ATTEMPTS lim <? _); [|discriminate].
    injection Hblocked as <- <- <-. eexists. split; [|reflexivity].
    rewrite lookup_insert_eq. f_equal. simpl. f_equal. lia. }
  destruct Hrec as (f & Hm' & ->).
  pose proof (retryAfter_covers (f + LOGIN_WINDOW_MS lim - now)).
  rewrite loginAttempt_reset
    by (right; eexists; split; [exact Hm' | simpl; lia]).
  by destruct (Z.ltb_spec (LOGIN_MAX_ATTEMPTS lim) 1); [lia|].
Qed.

Lemma X6_login_retry_after_is_honoured_witness :
  let lim := mkLoginLimits 2 900000 in
  let m := snd (loginAttempts_run lim "203.0.113.7" [1000; 2000] ∅) in
  let m' := snd (loginAttempt lim 3000 "203.0.113.7" m) in
  1 <= LOGIN_MAX_ATTEMPTS lim
  /\ loginAttempt lim 3000 "203.0.113.7" m = (TooManyAttempts 2 898, m')
  /\ 3000 + 1000 * 898 < 901001
  /\ loginAttempt lim 901001 "203.0.113.7" m'
     = (Proceed, <["203.0.113.7"%string := mkLoginRecord 1 901001]> m').
Proof.
  intros lim m m'.
  assert (H1 : 1 <= LOGIN_MAX_ATTEMPTS lim) by (vm_compute; discriminate).
  assert (H2 : loginAttempt lim 3000 "203.0.113.7" m = (TooManyAttempts 2 898, m'))
    by reflexivity.
  assert (H3 : 3000 + 1000 * 898 < 901001) by reflexivity.
  split; [exact H1|]. split; [exact H2|]. split; [exact H3|].
  exact (X6_login_retry_after_is_honoured lim 3000 "203.0.113.7" m 2 898 m' H1 H2
           901001 H3).
Defined.

(** X7. The periodic clean-up is invisible to the limiter: an attempt made at
    or after the time of a [cleanStaleLoginAttempts] run gets the same
    answer, and leaves the same record for its address, as if the clean-up
    had not run. *)
Theorem X7_login_cleanup_is_invisible lim now now' ip m :
  now <= now' ->
  fst (loginAttempt lim now' ip (cleanStaleLoginAttempts lim now m))
  = fst (loginAttempt lim now' ip m)
  /\ snd (loginAttempt lim now' ip (cleanStaleLoginAttempts lim now m)) !! ip
     = snd (loginAttempt lim now' ip m) !! ip.
Proof.
  intros Hlater. unfold cleanStaleLoginAttempts.
  destruct (m !! ip) as [[j f]|] eqn:Hm.
  - destruct (decide (LOGIN_WINDOW_MS lim < now - f)) as [Hstale | Hfresh].
    + rewrite (loginAttempt_reset lim now' ip (filter _ m)).
      2:{ left. apply map_lookup_filter_None_2. right. intros x Hx.
          rewrite Hm in Hx. injection Hx as <-. simpl. tauto. }
      rewrite (loginAttempt_reset lim now' ip m)
        by (right; eexists; split; [exact Hm | simpl; lia]).
      split; [done|]. cbn [snd]. by rewrite !lookup_insert_eq.
    + assert (Hkept : filter (fun kv : string * LoginRecord =>
                         ~ (LOGIN_WINDOW_MS lim < now - firstTs kv.2)) m !! ip
                      = Some (mkLoginRecord j f))
        by (by apply map_lookup_filter_Some_2).
      unfold loginAttempt. rewrite Hkept, Hm. simpl.
      destruct (LOGIN_WINDOW_MS lim <? now' - f); simpl;
        destruct (LOGIN_MAX_ATTEMPTS lim <? _); split;
        (done || (cbn [snd]; by rewrite !lookup_insert_eq)).
  - rewrite (loginAttempt_reset lim now' ip (filter _ m)).
    2:{ left. apply map_lookup_filter_None_2. by left. }
    rewrite (loginAttempt_reset lim now' ip m) by (by left).
    split; [done|]. cbn [snd]. by rewrite !lookup_insert_eq.
Qed.

Lemma X7_login_cleanup_is_invisible_witness :
  let lim := mkLoginLimits 2 900000 in
  let m := snd (loginAttempts_run lim "203.0.113.7" [1000; 2000] ∅) in
  1000000 <= 1000001
  /\ fst (loginAttempt lim 1000001 "203.0.113.7" (cleanStaleLoginAttempts lim 1000000 m))
     = fst (loginAttempt lim 1000001 "203.0.113.7" m).
Proof.
  intros lim m.
  assert (H : 1000000 <= 1000001) by discriminate.
  split; [exact H|].
  exact (proj1 (X7_login_cleanup_is_invisible lim 1000000 1000001 "203.0.113.7" m H)).
Defined.

(** ** The scheduler, in general *)

Lemma schedule_later cooldown now s :
  pending_after (lastRouteBuildTs s + cooldown)
                (scheduleRouteCacheRebuild cooldown false now s).
Proof. intros f [= <-]. simpl. lia. Qed.

(** Signals that are not immediate keep the builds a cooldown apart. *)
Lemma runSignals_spaced cooldown : forall sigs s,
  Forall (fun sg => sig_immediate sg = false) sigs ->
  pending_after (lastRouteBuildTs s + cooldown) s ->
  exists new, builds (runSignals cooldown sigs s) = builds s ++ new
              /\ spaced cooldown (lastRouteBuildTs s) new.
Proof.
  induction sigs as [|sg sigs IH]; intros s Hsigs Hpend.
  - simpl. unfold settle. destruct (routeRebuildTimer s) as [f|] eqn:Ht.
    + exists [f]. split; [done|]. simpl. split; [by apply Hpend | done].
    + exists []. by rewrite app_nil_r.
  - inversion Hsigs as [|? ? Hsg Hrest]; subst. cbn [runSignals]. rewrite Hsg.
    unfold advance. destruct (routeRebuildTimer s) as [f|] eqn:Ht.
    + destruct (f <? sig_time sg).
      * destruct (IH (scheduleRouteCacheRebuild cooldown false (sig_time sg)
                        (timerFires f s)) Hrest (schedule_later _ _ _))
          as (new & Hb & Hsp).
        exists (f :: new). split.
        -- rewrite Hb. simpl. by rewrite <- app_assoc.
        -- simpl. split; [by apply Hpend | exact Hsp].
      * destruct (IH (scheduleRouteCacheRebuild cooldown false (sig_time sg) s)
                     Hrest (schedule_later _ _ _)) as (new & Hb & Hsp).
        exists new. by split.
    + destruct (IH (scheduleRouteCacheRebuild cooldown false (sig_time sg) s)
                   Hrest (schedule_later _ _ _)) as (new & Hb & Hsp).
      exists new. by split.
Qed.

(** X8. Rebuild signals that are not immediate never make the builds come
    faster than the cooldown: whatever the times of the signals, every
    build they cause starts at least one cooldown after the build before
    it (the first one after the last build before the signals). *)
Theorem X8_builds_are_a_cooldown_apart cooldown sigs s :
  Forall (fun sg => sig_immediate sg = false) sigs ->
  pending_after (lastRouteBuildTs s + cooldown) s ->
  exists new, builds (runSignals cooldown sigs s) = builds s ++ new
              /\ spaced cooldown (lastRouteBuildTs s) new.
Proof. apply runSignals_spaced. Qed.

Lemma X8_builds_are_a_cooldown_apart_witness :
  let sigs := [mkSignal 1000000 false; mkSignal 1000010 false; mkSignal 1400000 false] in
  Forall (fun sg => sig_immediate sg = false) sigs
  /\ pending_after (lastRouteBuildTs scheduler_init + ROUTE_BUILD_COOLDOWN_MS)
                   scheduler_init
  /\ builds (runSignals ROUTE_BUILD_COOLDOWN_MS sigs scheduler_init)
     = [1000000; 1300000; 1600000]
  /\ exists new, builds (runSignals ROUTE_BUILD_COOLDOWN_MS sigs scheduler_init)
                 = builds scheduler_init ++ new
                 /\ spaced ROUTE_BUILD_COOLDOWN_MS (lastRouteBuildTs scheduler_init) new.
Proof.
  intros sigs.
  assert (H1 : Forall (fun sg => sig_immediate sg = false) sigs)
    by (repeat constructor).
  assert (H2 : pending_after (lastRouteBuildTs scheduler_init + ROUTE_BUILD_COOLDOWN_MS)
                             scheduler_init) by (intros f Hf; discriminate Hf).
  split; [exact H1|]. split; [exact H2|]. split; [reflexivity|].
  exact (X8_builds_are_a_cooldown_apart ROUTE_BUILD_COOLDOWN_MS sigs scheduler_init H1 H2).
Defined.

Lemma schedule_not_before cooldown immediate now s :
  exists f, routeRebuildTimer (scheduleRouteCacheRebuild cooldown immediate now s) = Some f
            /\ now <= f /\ (immediate = true -> f = now).
Proof.
  eexists. split; [reflexivity|]. destruct immediate; split; (lia || done || (intros; lia)).
Qed.

Lemma last_of_cons {A} (a : A) l d : List.last (a :: l) d = List.last l a.
Proof.
  revert a d. induction l as [|b l IH]; intros a d; [done|].
  change (List.last (a :: b :: l) d) with (List.last (b :: l) d).
  by rewrite !IH.
Qed.

Lemma runSignals_trailing cooldown : forall sigs sg s,
  let s' := runSignals cooldown (sg :: sigs) s in
  let final := List.last sigs sg in
  routeRebuildTimer s' = None
  /\ last (builds s') = Some (lastRouteBuildTs s')
  /\ sig_time final <= lastRouteBuildTs s'
  /\ (sig_immediate final = true -> lastRouteBuildTs s' = sig_time final).
Proof.
  induction sigs as [|sg2 sigs IH]; intros sg s s' final.
  - subst s' final. cbn [runSignals List.last].
    destruct (schedule_not_before cooldown (sig_immediate sg) (sig_time sg)
                (advance (sig_time sg) s)) as (f & Hf & Hle & Himm).
    unfold settle. rewrite Hf. cbn [timerFires routeRebuildTimer builds lastRouteBuildTs].
    split; [done|]. split; [apply last_snoc|]. split; [done|]. exact Himm.
  - subst s' final.
    rewrite (last_of_cons sg2 sigs sg).
    change (runSignals cooldown (sg :: sg2 :: sigs) s)
      with (runSignals cooldown (sg2 :: sigs)
              (scheduleRouteCacheRebuild cooldown (sig_immediate sg) (sig_time sg)
                 (advance (sig_time sg) s))).
    apply IH.
Qed.

(** X9. The scheduler is trailing-edge: after any non-empty sequence of
    signals nothing stays pending, and the last build starts at or after the
    last signal; if that signal was immediate, the last build starts at the
    very time of the signal. *)
Theorem X9_last_signal_is_always_served cooldown sg sigs s :
  let s' := runSignals cooldown (sg :: sigs) s in
  let final := List.last sigs sg in
  routeRebuildTimer s' = None
  /\ last (builds s') = Some (lastRouteBuildTs s')
  /\ sig_time final <= lastRouteBuildTs s'
  /\ (sig_immediate final = true -> lastRouteBuildTs s' = sig_time final).
Proof. apply runSignals_trailing. Qed.

(** ** The persisted cache, in general *)

(** X10. What [saveRouteToCache] stores, [getRouteFromCache] returns for as
    long as the entry is at most two hours old, under any spelling of the
    period that has the same upper-case form; the entries of the other
    (bus, period) keys are read as before. *)
Theorem X10_saved_route_is_read_back {Data} (rows : gmap (Z * string) (RouteCacheRow Data))
        t0 busId period data :
  let db := saveRouteToCache (DbUp rows) t0 busId period data in
  (forall now period',
      toUpperCase period' = toUpperCase period ->
      now - t0 <= TTL_MS ->
      getRouteFromCache db now busId period' = Some data)
  /\ (forall now busId' period',
         (busId', toUpperCase period') <> (busId, toUpperCase period) ->
         getRouteFromCache db now busId' period'
         = getRouteFromCache (DbUp rows) now busId' period').
Proof.
  intros db. subst db. unfold saveRouteToCache, getRouteFromCache. split.
  - intros now period' Hp Hage. rewrite Hp, lookup_insert_eq. cbn [updatedAt routeData].
    unfold TTL_MS, ROUTE_CACHE_REFRESH_HOURS in *.
    by destruct (Z.ltb_spec (2 * 60 * 60 * 1000) (now - t0)); [lia|].
  - intros now busId' period' Hne. by rewrite lookup_insert_ne.
Qed.

Lemma X10_saved_route_is_read_back_witness :
  let db := saveRouteToCache (DbUp (∅ : gmap (Z * string) (RouteCacheRow Z)))
                             1000 7 "morning" 42 in
  toUpperCase "Morning" = toUpperCase "morning"
  /\ 5000000 - 1000 <= TTL_MS
  /\ getRouteFromCache db 5000000 7 "Morning" = Some 42.
Proof.
  intros db.
  assert (H1 : toUpperCase "Morning" = toUpperCase "morning") by reflexivity.
  assert (H2 : 5000000 - 1000 <= TTL_MS) by (vm_compute; discriminate).
  split; [exact H1|]. split; [exact H2|].
  exact (proj1 (X10_saved_route_is_read_back ∅ 1000 7 "morning" 42) 5000000
               "Morning"%string H1 H2).
Defined.

(** X11. The sweep [clearExpiredCache] removes exactly the rows that are
    older than two hours, and no reader notices it: at the time of the sweep
    and at any later time [getRouteFromCache] answers the same with and
    without the sweep. *)
Theorem X11_sweep_is_invisible_to_readers {Data}
        (rows : gmap (Z * string) (RouteCacheRow Data)) now :
  (exists rows', clearExpiredCache (DbUp rows) now = DbUp rows'
                 /\ forall key row,
                      rows' !! key = Some row
                      <-> rows !! key = Some row /\ now - updatedAt row <= TTL_MS)
  /\ (forall now' busId period,
         now <= now' ->
         getRouteFromCache (clearExpiredCache (DbUp rows) now) now' busId period
         = getRouteFromCache (DbUp rows) now' busId period).
Proof.
  unfold clearExpiredCache, TTL_MS, ROUTE_CACHE_REFRESH_HOURS. split.
  - eexists. split; [reflexivity|]. intros key row.
    rewrite map_lookup_filter_Some. simpl. split; intros [H1 H2]; (split; [done|lia]).
  - intros now' busId period Hlater. unfold getRouteFromCache.
    destruct (rows !! (busId, toUpperCase period)) as [row|] eqn:Hrow.
    + destruct (decide (updatedAt row < now - 2 * 60 * 60 * 1000)) as [Hold | Hfresh].
      * rewrite (proj2 (map_lookup_filter_None _ rows (busId, toUpperCase period))).
        2:{ right. intros x Hx. rewrite Hrow in Hx. injection Hx as <-. simpl. tauto. }
        unfold ROUTE_CACHE_REFRESH_HOURS.
        by destruct (Z.ltb_spec (2 * 60 * 60 * 1000) (now' - updatedAt row)); [|lia].
      * by rewrite (map_lookup_filter_Some_2 _ rows (busId, toUpperCase period) row).
    + by rewrite (proj2 (map_lookup_filter_None _ rows (busId, toUpperCase period)))
        by (by left).
Qed.

Lemma X11_sweep_is_invisible_to_readers_witness :
  let rows : gmap (Z * string) (RouteCacheRow Z) :=
    {[ (7, "MORNING"%string) := mkRouteCacheRow 42 1000 ]} in
  8000000 <= 8000001
  /\ getRouteFromCache (clearExpiredCache (DbUp rows) 8000000) 8000001 7 "MORNING"
     = getRouteFromCache (DbUp rows) 8000001 7 "MORNING".
Proof.
  intros rows.
  assert (H : 8000000 <= 8000001) by discriminate.
  split; [exact H|].
  exact (proj2 (X11_sweep_is_invisible_to_readers rows 8000000) 8000001 7
               "MORNING"%string H).
Defined.

(** X12. [getAllRoutesForBus] applies no age limit: every (truthy) route
    that [getRouteFromCache] returns for a bus in the morning or the evening
    it returns too, at any time. *)
Theorem X12_getAllRoutesForBus_covers_fresh_entries {Data} (falsy : Data -> bool)
        (db : RouteCacheDb Data) now busId data :
  falsy data = false ->
  (getRouteFromCache db now busId "MORNING" = Some data ->
   fst (getAllRoutesForBus falsy db busId) = Some data)
  /\ (getRouteFromCache db now busId "EVENING" = Some data ->
      snd (getAllRoutesForBus falsy db busId) = Some data).
Proof.
  intros Hf. unfold getRouteFromCache, getAllRoutesForBus.
  destruct db as [|rows]; [split; discriminate|].
  change (toUpperCase "MORNING") with "MORNING"%string.
  change (toUpperCase "EVENING") with "EVENING"%string.
  cbn [fst snd]. split.
  - destruct (rows !! (busId, "MORNING"%string)) as [row|]; [|discriminate].
    destruct (_ <? _); [discriminate|]. intros [= ->]. by rewrite Hf.
  - destruct (rows !! (busId, "EVENING"%string)) as [row|]; [|discriminate].
    destruct (_ <? _); [discriminate|]. intros [= ->]. by rewrite Hf.
Qed.

Lemma X12_getAllRoutesForBus_covers_fresh_entries_witness :
  let db := saveRouteToCache (DbUp (∅ : gmap (Z * string) (RouteCacheRow Z)))
                             1000 7 "morning" 42 in
  (fun _ : Z => false) 42 = false
  /\ getRouteFromCache db 2000 7 "MORNING" = Some 42
  /\ fst (getAllRoutesForBus (fun _ => false) db 7) = Some 42.
Proof.
  intros db.
  assert (H1 : (fun _ : Z => false) 42 = false) by reflexivity.
  assert (H2 : getRouteFromCache db 2000 7 "MORNING" = Some 42) by reflexivity.
  split; [exact H1|]. split; [exact H2|].
  exact (proj1 (X12_getAllRoutesForBus_covers_fresh_entries (fun _ => false) db 2000 7 42
                  H1) H2).
Defined.

(** ** What the geocoding operations do to the state *)

Lemma consumeGoogleCall_spec env w :
  consumeGoogleCall env w
  = (Ok (fst (checkAndIncrementGoogleUsage (today env) (googleUsage w))),
     set_googleUsage (snd (checkAndIncrementGoogleUsage (today env) (googleUsage w))) w).
Proof. unfold consumeGoogleCall. by destruct (checkAndIncrementGoogleUsage _ _). Qed.

Lemma request_spec {A} c (reply : HttpReply A) w :
  request c reply w = (Ok reply, log_call c w).
Proof. reflexivity. Qed.

Lemma googleCalls_app l1 l2 : googleCalls (l1 ++ l2) = (googleCalls l1 + googleCalls l2)%nat.
Proof. unfold googleCalls. by rewrite List.filter_app, length_app. Qed.

(** What [nominatimGeocode] does: one request to Nominatim, the budget and
    the other caches untouched, and a cache entry exactly when it resolves
    with a result. *)
Lemma nominatimGeocode_effect env name w res w' :
  nominatimGeocode env name w = (res, w') ->
  providerCalls w' = providerCalls w ++ [NominatimSearchCall name]
  /\ googleUsage w' = googleUsage w
  /\ reverseGeocodeCache w' = reverseGeocodeCache w
  /\ routePolylinesCache w' = routePolylinesCache w
  /\ ((exists out, res = Ok (Some out)
                   /\ geocodeCache w' = <[geocodeKey name := out]> (geocodeCache w))
      \/ ((forall out, res <> Ok (Some out))
          /\ geocodeCache w' = geocodeCache w
          /\ (res = Ok None <-> nominatimSearchApi env name = Body []))).
Proof.
  unfold nominatimGeocode. rewrite (bind_ok _ _ _ _ _ (request_spec _ _ w)).
  destruct (nominatimSearchApi env name) as [| |[|first rest]]; intros [= <- <-];
    (split; [done|]); (split; [done|]); (split; [done|]); (split; [done|]).
  - right. split; [done|]. split; [done|]. split; discriminate.
  - right. split; [done|]. split; [done|]. split; discriminate.
  - right. split; [done|]. split; [done|]. done.
  - left. eexists. by split.
Qed.

(** The effects of [geocodeLocation], case by case. *)
Lemma geocodeLocation_effect env name w res w' :
  geocodeLocation env name w = (res, w') ->
  reverseGeocodeCache w' = reverseGeocodeCache w
  /\ routePolylinesCache w' = routePolylinesCache w
  /\ (geocodeCache w' = geocodeCache w
      \/ exists out, res = Ok (Some out)
                     /\ geocodeCache w !! geocodeKey name = None
                     /\ geocodeCache w' = <[geocodeKey name := out]> (geocodeCache w))
  /\ ((forall out, res <> Ok (Some out)) -> geocodeCache w' = geocodeCache w)
  /\ (exists new, budget_respected env w w' new /\ (length new <= 2)%nat)
  /\ (res = Ok None ->
      GOOGLE_MAPS_KEY env = None /\ nominatimSearchApi env name = Body []).
Proof.
  unfold geocodeLocation.
  destruct (truthy name); cbn [negb].
  2:{ intros [= <- <-]. repeat split; try done; try (by left).
      exists []. split; [|simpl; lia]. split; [by rewrite app_nil_r|]. by left. }
  unfold bind at 1. unfold get_world.
  destruct (geocodeCache w !! geocodeKey name) as [hit|] eqn:Hc.
  { intros [= <- <-]. repeat split; try done; try (by left).
    exists []. split; [|simpl; lia]. split; [by rewrite app_nil_r|]. by left. }
  destruct (GOOGLE_MAPS_KEY env) as [k|] eqn:Hk.
  2:{ intros H. apply nominatimGeocode_effect in H as (Hcalls & Hu & Hr & Hp & Hcache).
      split; [done|]. split; [done|].
      split; [destruct Hcache as [(out & -> & Hc') | (_ & Hc' & _)]; [right; by eauto | by left]|].
      split; [intros Hno; destruct Hcache as [(out & -> & _) | (_ & Hc' & _)];
              [by destruct (Hno out) | done]|].
      split; [exists [NominatimSearchCall name]; split; [|simpl; lia];
              split; [done | left; by split]|].
      intros ->. split; [done|].
      destruct Hcache as [(out & Hout & _) | (_ & _ & Hnull)]; [discriminate | by apply Hnull]. }
  rewrite (bind_ok _ _ _ _ _ (consumeGoogleCall_spec env w)).
  destruct (checkAndIncrementGoogleUsage (today env) (googleUsage w)) as [ok u] eqn:Hcheck.
  cbn [fst snd]. destruct ok; cbn [negb].
  2:{ intros [= <- <-]. repeat split; try done; try (by left).
      exists []. split; [|simpl; lia]. split; [by rewrite app_nil_r|].
      right; left. split; [by eexists|]. unfold budget_exhausted. rewrite Hcheck.
      by repeat split. }
  assert (Hgranted : ~ budget_exhausted env w)
    by (unfold budget_exhausted; rewrite Hcheck; discriminate).
  assert (Hpaid : forall w2 new,
    providerCalls w2 = providerCalls w ++ new ->
    googleUsage w2 = u -> googleCalls new = 1%nat ->
    budget_respected env w w2 new).
  { intros w2 new H1 H2 H3. split; [done|]. right; right.
    split; [by eexists|]. split; [done|]. split; [done|]. by rewrite Hcheck. }
  rewrite (bind_ok _ _ _ _ _ (request_spec _ _ _)).
  set (call := GoogleGeocodeCall (geocodeRequest env name)).
  destruct (googleGeocodeApi env (geocodeRequest env name)) as [| |j].
  - intros [= <- <-]. repeat split; try done; try (by left).
    exists [call]. split; [by apply Hpaid | simpl; lia].
  - intros [= <- <-]. repeat split; try done; try (by left).
    exists [call]. split; [by apply Hpaid | simpl; lia].
  - match goal with
    | |- _ -> ?G =>
        assert (Hfallback : forall failed,
          try_catch
            (do resGeo <- nominatimGeocode env name;
             match resGeo with
             | Some out => ret (Some out)
             | None => throw failed
             end)
            (fun _ => throw failed) (log_call call (set_googleUsage u w)) = (res, w') ->
          G)
    end.
    { intros failed. unfold try_catch, bind.
      destruct (nominatimGeocode env name (log_call call (set_googleUsage u w)))
        as [r w3] eqn:Hn.
      apply nominatimGeocode_effect in Hn as (Hcalls & Hu & Hr & Hp & Hcache).
      assert (Hb : budget_respected env w w3 [call; NominatimSearchCall name]).
      { apply Hpaid; [|done|done]. rewrite Hcalls. simpl. by rewrite <- app_assoc. }
      destruct r as [[out|]|e]; unfold ret, throw; intros [= <- <-].
      - destruct Hcache as [(out' & [= <-] & Hc') | (Hno & _)]; [|by destruct (Hno out)].
        split; [done|]. split; [done|]. split; [right; by eauto|].
        split; [intros Hno; by destruct (Hno out)|].
        split; [by eexists; split; [exact Hb | simpl; lia]|]. discriminate.
      - destruct Hcache as [(out' & Hout & _) | (_ & Hc' & _)]; [discriminate|].
        split; [done|]. split; [done|]. split; [by left|]. split; [done|].
        split; [by eexists; split; [exact Hb | simpl; lia]|]. discriminate.
      - destruct Hcache as [(out' & Hout & _) | (_ & Hc' & _)]; [discriminate|].
        split; [done|]. split; [done|]. split; [by left|]. split; [done|].
        split; [by eexists; split; [exact Hb | simpl; lia]|]. discriminate. }
    destruct (bool_decide (gc_status j = "OK"%string));
      [|intros H; exact (Hfallback _ H)].
    destruct (gc_results j) as [|first others]; [intros H; exact (Hfallback _ H)|].
    unfold bind, modify, ret. intros [= <- <-].
    split; [done|]. split; [done|]. split; [right; by eauto|].
    split; [intros Hno; by edestruct Hno|].
    split; [exists [call]; split; [by apply Hpaid | simpl; lia]|]. discriminate.
Qed.

Lemma budget_respected_nothing env w : budget_respected env w w [].
Proof. split; [by rewrite app_nil_r|]. by left. Qed.

Lemma nominatimReverse_effect env lat lng w res w' :
  nominatimReverse env lat lng w = (res, w') ->
  w' = log_call (NominatimReverseCall (mkLatLng lat lng)) w.
Proof.
  unfold nominatimReverse. rewrite (bind_ok _ _ _ _ _ (request_spec _ _ w)).
  destruct (nominatimReverseApi env _) as [| |name]; by intros [= <- <-].
Qed.

(** The effects of [reverseGeocode], case by case. *)
Lemma reverseGeocode_effect env lat lng w res w' :
  reverseGeocode env lat lng w = (res, w') ->
  geocodeCache w' = geocodeCache w
  /\ routePolylinesCache w' = routePolylinesCache w
  /\ (forall key, key <> reverseKey lat lng ->
                  reverseGeocodeCache w' !! key = reverseGeocodeCache w !! key)
  /\ ((exists e, res = Err e) -> reverseGeocodeCache w' = reverseGeocodeCache w)
  /\ (forall addr, res = Ok (Some addr) ->
                   reverseGeocodeCache w' !! reverseKey lat lng = Some (Some addr))
  /\ exists new,
       budget_respected env w w' new
       /\ (new = []
           \/ (GOOGLE_MAPS_KEY env = None
               /\ new = [NominatimReverseCall (mkLatLng lat lng)])
           \/ (is_Some (GOOGLE_MAPS_KEY env)
               /\ new = [GoogleReverseCall (mkLatLng lat lng)])).
Proof.
  unfold reverseGeocode. unfold bind at 1. unfold get_world.
  destruct (reverseGeocodeCache w !! reverseKey lat lng) as [hit|] eqn:Hc.
  { intros [= <- <-]. split; [done|]. split; [done|]. split; [done|]. split; [done|].
    split; [intros addr [= ->]; exact Hc|].
    exists []. split; [apply budget_respected_nothing | by left]. }
  destruct (GOOGLE_MAPS_KEY env) as [k|] eqn:Hk.
  - rewrite (bind_ok _ _ _ _ _ (consumeGoogleCall_spec env w)).
    destruct (checkAndIncrementGoogleUsage (today env) (googleUsage w)) as [ok u] eqn:Hcheck.
    cbn [fst snd]. destruct ok; cbn [negb].
    2:{ intros [= <- <-]. split; [done|]. split; [done|]. split; [done|]. split; [done|].
        split; [discriminate|]. exists []. split; [|by left].
        split; [by rewrite app_nil_r|]. right; left. split; [by eexists|].
        unfold budget_exhausted. rewrite Hcheck. by repeat split. }
    rewrite (bind_ok _ _ _ _ _ (request_spec _ _ _)).
    set (call := GoogleReverseCall (mkLatLng lat lng)).
    assert (Hpaid : forall w2,
      providerCalls w2 = providerCalls w ++ [call] -> googleUsage w2 = u ->
      exists new, budget_respected env w w2 new
                  /\ (new = [] \/ (Some k = None /\ new = [NominatimReverseCall (mkLatLng lat lng)])
                      \/ (is_Some (Some k) /\ new = [call]))).
    { intros w2 H1 H2. exists [call]. split; [|right; right; by split].
      split; [done|]. right; right. split; [by eexists|].
      split; [unfold budget_exhausted; rewrite Hcheck; discriminate|].
      split; [done|]. by rewrite Hcheck. }
    destruct (googleReverseApi env _) as [| |j].
    + intros [= <- <-]. split; [done|]. split; [done|]. split; [done|]. split; [done|].
      split; [discriminate|]. by apply Hpaid.
    + intros [= <- <-]. split; [done|]. split; [done|]. split; [done|]. split; [done|].
      split; [discriminate|]. by apply Hpaid.
    + destruct (bool_decide (rv_status j = "OK"%string)).
      2:{ intros [= <- <-]. split; [done|]. split; [done|]. split; [done|]. split; [done|].
          split; [discriminate|]. by apply Hpaid. }
      destruct (rv_results j) as [|first rest].
      { intros [= <- <-]. split; [done|]. split; [done|]. split; [done|]. split; [done|].
        split; [discriminate|]. by apply Hpaid. }
      unfold bind, modify, ret. intros [= <- <-].
      split; [done|]. split; [done|].
      split; [intros key Hne; cbn; by rewrite lookup_insert_ne|].
      split; [intros [e He]; discriminate|].
      split; [intros addr [= ->]; cbn; apply lookup_insert_eq|]. by apply Hpaid.
  - unfold try_catch. unfold bind at 1.
    destruct (nominatimReverse env lat lng w) as [r w1] eqn:Hn.
    apply nominatimReverse_effect in Hn. subst w1.
    assert (Hfree : forall w2,
      providerCalls w2 = providerCalls w ++ [NominatimReverseCall (mkLatLng lat lng)] ->
      googleUsage w2 = googleUsage w ->
      exists new, budget_respected env w w2 new
                  /\ (new = []
                      \/ (@None string = None /\ new = [NominatimReverseCall (mkLatLng lat lng)])
                      \/ (is_Some (@None string)
                          /\ new = [GoogleReverseCall (mkLatLng lat lng)]))).
    { intros w2 H1 H2. eexists. split; [|right; left; by split].
      split; [done|]. left. by split. }
    destruct r as [[a|]|e].
    + unfold bind, modify, ret. intros [= <- <-].
      split; [done|]. split; [done|].
      split; [intros key Hne; cbn; by rewrite lookup_insert_ne|].
      split; [intros [e He]; discriminate|].
      split; [intros addr [= ->]; cbn; apply lookup_insert_eq|]. by apply Hfree.
    + unfold throw. intros [= <- <-].
      split; [done|]. split; [done|]. split; [done|]. split; [done|].
      split; [discriminate|]. by apply Hfree.
    + unfold throw. intros [= <- <-].
      split; [done|]. split; [done|]. split; [done|]. split; [done|].
      split; [discriminate|]. by apply Hfree.
Qed.

(** The effects of [geocodeLatLng], case by case. *)
Lemma geocodeLatLng_effect env lat lng w res w' :
  geocodeLatLng env lat lng w = (res, w') ->
  geocodeCache w' = geocodeCache w
  /\ reverseGeocodeCache w' = reverseGeocodeCache w
  /\ routePolylinesCache w' = routePolylinesCache w
  /\ (exists new, budget_respected env w w' new /\ (length new <= 2)%nat)
  /\ (forall e, res = Err e ->
        (e = InvalidLatLng /\ (isNaN lat = true \/ isNaN lng = true))
        \/ (e = UsageLimitExceeded /\ is_Some (GOOGLE_MAPS_KEY env)
            /\ budget_exhausted env w)
        \/ (e = ResponseUnreadable /\ is_Some (GOOGLE_MAPS_KEY env)
            /\ googleReverseApi env (mkLatLng lat lng) = Unparsable)).
Proof.
  unfold geocodeLatLng.
  destruct (isNaN lat || isNaN lng) eqn:Hnan.
  { intros [= <- <-]. split; [done|]. split; [done|]. split; [done|].
    split; [exists []; split; [apply budget_respected_nothing | simpl; lia]|].
    intros e [= <-]. left. split; [done|]. by apply orb_true_iff. }
  assert (Hvia : forall w0 r w1,
    try_catch
      (do addr <- nominatimReverse env lat lng;
       ret (mkGeoResult lat lng (orLabel env addr lat lng)))
      (fun _ => ret (mkGeoResult lat lng (coordinateLabel env lat lng))) w0 = (r, w1) ->
    w1 = log_call (NominatimReverseCall (mkLatLng lat lng)) w0 /\ exists g, r = Ok g).
  { intros w0 r w1. unfold try_catch, bind.
    destruct (nominatimReverse env lat lng w0) as [[a|e] w2] eqn:Hn;
      apply nominatimReverse_effect in Hn; subst w2; unfold ret;
      intros [= <- <-]; by eauto. }
  destruct (GOOGLE_MAPS_KEY env) as [k|] eqn:Hk.
  2:{ intros H. apply Hvia in H as (-> & g & ->).
      split; [done|]. split; [done|]. split; [done|].
      split; [|discriminate].
      exists [NominatimReverseCall (mkLatLng lat lng)]. split; [|simpl; lia].
      split; [done|]. left. by split. }
  rewrite (bind_ok _ _ _ _ _ (consumeGoogleCall_spec env w)).
  destruct (checkAndIncrementGoogleUsage (today env) (googleUsage w)) as [ok u] eqn:Hcheck.
  cbn [fst snd]. destruct ok; cbn [negb].
  2:{ intros [= <- <-]. split; [done|]. split; [done|]. split; [done|].
      assert (Hex : budget_exhausted env w) by (unfold budget_exhausted; by rewrite Hcheck).
      split.
      - exists []. split; [|simpl; lia]. split; [by rewrite app_nil_r|].
        right; left. split; [by eexists|]. rewrite Hcheck. by repeat split.
      - intros e [= <-]. right; left. split; [done|]. split; [by eexists | done]. }
  rewrite (bind_ok _ _ _ _ _ (request_spec _ _ _)).
  set (call := GoogleReverseCall (mkLatLng lat lng)).
  assert (Hpaid : forall w2 new,
    providerCalls w2 = providerCalls w ++ new -> googleUsage w2 = u ->
    googleCalls new = 1%nat -> budget_respected env w w2 new).
  { intros w2 new H1 H2 H3. split; [done|]. right; right. split; [by eexists|].
    split; [unfold budget_exhausted; rewrite Hcheck; discriminate|].
    split; [done|]. by rewrite Hcheck. }
  assert (Hfallback :
    forall r w1,
      try_catch
        (do addr <- nominatimReverse env lat lng;
         ret (mkGeoResult lat lng (orLabel env addr lat lng)))
        (fun _ => ret (mkGeoResult lat lng (coordinateLabel env lat lng)))
        (log_call call (set_googleUsage u w)) = (r, w1) ->
      geocodeCache w1 = geocodeCache w
      /\ reverseGeocodeCache w1 = reverseGeocodeCache w
      /\ routePolylinesCache w1 = routePolylinesCache w
      /\ (exists new, budget_respected env w w1 new /\ (length new <= 2)%nat)
      /\ exists g, r = Ok g).
  { intros r w1 H. apply Hvia in H as (-> & g & ->).
    split; [done|]. split; [done|]. split; [done|]. split; [|by eauto].
    exists [call; NominatimReverseCall (mkLatLng lat lng)]. split; [|simpl; lia].
    apply Hpaid; [|done|done]. simpl. by rewrite <- app_assoc. }
  destruct (googleReverseApi env (mkLatLng lat lng)) as [| |j] eqn:Hreply.
  - intros H. apply Hfallback in H as (H1 & H2 & H3 & H4 & g & ->).
    repeat (split; [done|]). discriminate.
  - intros [= <- <-]. split; [done|]. split; [done|]. split; [done|].
    split; [exists [call]; split; [by apply Hpaid | simpl; lia]|].
    intros e [= <-]. right; right. split; [done|]. split; [by eexists | done].
  - destruct (bool_decide (rv_status j = "OK"%string)).
    2:{ intros H. apply Hfallback in H as (H1 & H2 & H3 & H4 & g & ->).
        repeat (split; [done|]). discriminate. }
    destruct (rv_results j) as [|r rest].
    { intros H. apply Hfallback in H as (H1 & H2 & H3 & H4 & g & ->).
      repeat (split; [done|]). discriminate. }
    unfold ret. intros [= <- <-]. split; [done|]. split; [done|]. split; [done|].
    split; [exists [call]; split; [by apply Hpaid | simpl; lia]|]. discriminate.
Qed.

(** The effects of [getRoutePath], case by case. *)
Lemma getRoutePath_effect env o d wps w res w' :
  getRoutePath env o d wps w = (res, w') ->
  geocodeCache w' = geocodeCache w
  /\ reverseGeocodeCache w' = reverseGeocodeCache w
  /\ routePolylinesCache w' = routePolylinesCache w
  /\ (exists new, budget_respected env w w' new /\ (length new <= 1)%nat)
  /\ (res = Ok (straightLine o d wps)
      \/ exists points,
           is_Some (GOOGLE_MAPS_KEY env)
           /\ ~ budget_exhausted env w
           /\ googleDirectionsApi env (mkDirectionsRequest o d wps)
              = Body (mkDirectionsBody "OK" (Some points))
           /\ res = Ok (decodePolyline points)).
Proof.
  unfold getRoutePath.
  destruct (GOOGLE_MAPS_KEY env) as [k|] eqn:Hk.
  2:{ intros [= <- <-]. split; [done|]. split; [done|]. split; [done|].
      split; [exists []; split; [apply budget_respected_nothing | simpl; lia]|]. by left. }
  rewrite (bind_ok _ _ _ _ _ (consumeGoogleCall_spec env w)).
  destruct (checkAndIncrementGoogleUsage (today env) (googleUsage w)) as [ok u] eqn:Hcheck.
  cbn [fst snd]. destruct ok; cbn [negb].
  2:{ intros [= <- <-]. split; [done|]. split; [done|]. split; [done|].
      split; [|by left]. exists []. split; [|simpl; lia]. split; [by rewrite app_nil_r|].
      right; left. split; [by eexists|]. unfold budget_exhausted. rewrite Hcheck.
      by repeat split. }
  rewrite (bind_ok _ _ _ _ _ (request_spec _ _ _)).
  set (rq := mkDirectionsRequest o d wps).
  assert (Hgranted : ~ budget_exhausted env w)
    by (unfold budget_exhausted; rewrite Hcheck; discriminate).
  assert (Hpaid : exists new,
    budget_respected env w (log_call (GoogleDirectionsCall rq) (set_googleUsage u w)) new
    /\ (length new <= 1)%nat).
  { exists [GoogleDirectionsCall rq]. split; [|simpl; lia]. split; [done|]. right; right.
    split; [by eexists|]. split; [done|]. split; [done|]. by rewrite Hcheck. }
  destruct (googleDirectionsApi env rq) as [| |j] eqn:Hreply.
  - intros [= <- <-]. repeat (split; [done|]). by left.
  - intros [= <- <-]. repeat (split; [done|]). by left.
  - destruct j as [st poly]. cbn [dir_status overview_polyline].
    destruct (bool_decide (st = "OK"%string)) eqn:Hst.
    2:{ intros [= <- <-]. repeat (split; [done|]). by left. }
    apply bool_decide_eq_true in Hst. subst st.
    destruct poly as [points|].
    2:{ intros [= <- <-]. repeat (split; [done|]). by left. }
    intros [= <- <-]. repeat (split; [done|]). right. exists points.
    split; [by eexists|]. by repeat split.
Qed.

(** ** Caches, budget and providers of the geocoding operations *)

(** X13. [geocodeLocation] only ever adds results to its cache: an entry
    that is there stays as it is, a call that does not resolve with a result
    (an error, or [null]) leaves the cache unchanged, and the other caches
    are never touched. *)
Theorem X13_geocode_cache_only_gains_results env name w res w' :
  geocodeLocation env name w = (res, w') ->
  (forall key v, geocodeCache w !! key = Some v -> geocodeCache w' !! key = Some v)
  /\ ((forall out, res <> Ok (Some out)) -> geocodeCache w' = geocodeCache w)
  /\ reverseGeocodeCache w' = reverseGeocodeCache w
  /\ routePolylinesCache w' = routePolylinesCache w.
Proof.
  intros H. apply geocodeLocation_effect in H as (Hr & Hp & Hcache & Hfail & _ & _).
  split; [|by repeat split].
  intros key v Hv. destruct Hcache as [-> | (out & _ & Hmiss & ->)]; [done|].
  rewrite lookup_insert_ne; [done|]. intros <-. congruence.
Qed.

Lemma X13_geocode_cache_only_gains_results_witness :
  let w := snd (geocodeLocation nominatim_only_env "Benz Circle" fresh_world) in
  let r := geocodeLocation offline_env "Eluru Road" w in
  geocodeLocation offline_env "Eluru Road" w = (fst r, snd r)
  /\ fst r = Err NetworkFailure
  /\ geocodeCache (snd r) = geocodeCache w
  /\ is_Some (geocodeCache (snd r) !! "benz circle"%string).
Proof.
  intros w r.
  assert (H : geocodeLocation offline_env "Eluru Road" w = (fst r, snd r))
    by apply surjective_pairing.
  split; [exact H|]. split; [reflexivity|].
  pose proof (X13_geocode_cache_only_gains_results offline_env "Eluru Road" w (fst r) (snd r) H)
    as (Hkeep & Hfail & _).
  split; [apply Hfail; intros out; discriminate|].
  eexists. apply Hkeep. reflexivity.
Defined.

(** X14. No Google request without the governor's consent: each of
    [geocodeLocation], [reverseGeocode], [geocodeLatLng] and [getRoutePath]
    either leaves the daily budget alone and sends nothing to Google, or
    asks the governor and, when refused, sends no request at all, or is
    granted one unit and then sends exactly one request to Google. *)
Theorem X14_google_requests_are_budgeted env w :
  (forall name res w',
      geocodeLocation env name w = (res, w') -> exists new, budget_respected env w w' new)
  /\ (forall lat lng res w',
         reverseGeocode env lat lng w = (res, w') ->
         exists new, budget_respected env w w' new)
  /\ (forall lat lng res w',
         geocodeLatLng env lat lng w = (res, w') ->
         exists new, budget_respected env w w' new)
  /\ (forall o d wps res w',
         getRoutePath env o d wps w = (res, w') ->
         exists new, budget_respected env w w' new).
Proof.
  split; [|split; [|split]].
  - intros name res w' H.
    apply geocodeLocation_effect in H as (_ & _ & _ & _ & (new & Hb & _) & _). by eauto.
  - intros lat lng res w' H.
    apply reverseGeocode_effect in H as (_ & _ & _ & _ & _ & new & Hb & _). by eauto.
  - intros lat lng res w' H.
    apply geocodeLatLng_effect in H as (_ & _ & _ & (new & Hb & _) & _). by eauto.
  - intros o d wps res w' H.
    apply getRoutePath_effect in H as (_ & _ & _ & (new & Hb & _) & _). by eauto.
Qed.

Lemma X14_google_requests_are_budgeted_witness :
  let w := world_with_usage 999 1000 in
  let r := getRoutePath keyed_env (mkLatLng (num_of_Z 0) (num_of_Z 0))
                        (mkLatLng (num_of_Z 0) (num_of_Z 1)) [] w in
  getRoutePath keyed_env (mkLatLng (num_of_Z 0) (num_of_Z 0))
               (mkLatLng (num_of_Z 0) (num_of_Z 1)) [] w = (fst r, snd r)
  /\ usage_count (googleUsage (snd r)) = 1000
  /\ exists new, budget_respected keyed_env w (snd r) new.
Proof.
  intros w r.
  assert (H : getRoutePath keyed_env (mkLatLng (num_of_Z 0) (num_of_Z 0))
                (mkLatLng (num_of_Z 0) (num_of_Z 1)) [] w = (fst r, snd r))
    by apply surjective_pairing.
  split; [exact H|]. split; [reflexivity|].
  exact (proj2 (proj2 (proj2 (X14_google_requests_are_budgeted keyed_env w))) _ _ _ _ _ H).
Defined.

(** X15. [geocodeLocation] resolves with [null] in one situation only: no
    Google key is configured and Nominatim returns no hit.  With a key
    configured the outcome is a result or an error, never [null]. *)
Theorem X15_geocode_null_only_without_key env name w :
  (forall w', geocodeLocation env name w = (Ok None, w') ->
              GOOGLE_MAPS_KEY env = None /\ nominatimSearchApi env name = Body [])
  /\ (truthy name = true ->
      geocodeCache w !! geocodeKey name = None ->
      GOOGLE_MAPS_KEY env = None ->
      nominatimSearchApi env name = Body [] ->
      geocodeLocation env name w = (Ok None, log_call (NominatimSearchCall name) w)).
Proof.
  split.
  - intros w' H. apply geocodeLocation_effect in H as (_ & _ & _ & _ & _ & Hnull).
    by apply Hnull.
  - intros Hne Hmiss Hk Hnom. unfold geocodeLocation. rewrite Hne. cbn [negb].
    unfold bind at 1. unfold get_world. rewrite Hmiss, Hk.
    unfold nominatimGeocode. rewrite (bind_ok _ _ _ _ _ (request_spec _ _ w)).
    by rewrite Hnom.
Qed.

Lemma X15_geocode_null_only_without_key_witness :
  truthy "Nowhere" = true
  /\ geocodeCache fresh_world !! geocodeKey "Nowhere" = None
  /\ GOOGLE_MAPS_KEY nominatim_empty_env = None
  /\ nominatimSearchApi nominatim_empty_env "Nowhere" = Body []
  /\ geocodeLocation nominatim_empty_env "Nowhere" fresh_world
     = (Ok None, log_call (NominatimSearchCall "Nowhere") fresh_world).
Proof.
  assert (H1 : truthy "Nowhere" = true) by reflexivity.
  assert (H2 : geocodeCache fresh_world !! geocodeKey "Nowhere" = None) by reflexivity.
  assert (H3 : GOOGLE_MAPS_KEY nominatim_empty_env = None) by reflexivity.
  assert (H4 : nominatimSearchApi nominatim_empty_env "Nowhere" = Body []) by reflexivity.
  split; [exact H1|]. split; [exact H2|]. split; [exact H3|]. split; [exact H4|].
  exact (proj2 (X15_geocode_null_only_without_key nominatim_empty_env "Nowhere" fresh_world)
               H1 H2 H3 H4).
Defined.

(** X16. [reverseGeocode] asks at most one provider, and which one is
    decided by the configuration alone: Nominatim when no Google key is set,
    Google when one is set (it then never falls back to Nominatim).  It
    writes its cache at the key of the call only, and not at all when it
    fails. *)
Theorem X16_reverse_geocode_asks_one_provider env lat lng w res w' :
  reverseGeocode env lat lng w = (res, w') ->
  (exists new,
      providerCalls w' = providerCalls w ++ new
      /\ (new = []
          \/ (GOOGLE_MAPS_KEY env = None
              /\ new = [NominatimReverseCall (mkLatLng lat lng)])
          \/ (is_Some (GOOGLE_MAPS_KEY env)
              /\ new = [GoogleReverseCall (mkLatLng lat lng)])))
  /\ (forall key, key <> reverseKey lat lng ->
                  reverseGeocodeCache w' !! key = reverseGeocodeCache w !! key)
  /\ ((exists e, res = Err e) -> reverseGeocodeCache w' = reverseGeocodeCache w)
  /\ geocodeCache w' = geocodeCache w.
Proof.
  intros H.
  apply reverseGeocode_effect in H as (Hg & _ & Hloc & Herr & _ & new & [Hcalls _] & Hnew).
  split; [by exists new|]. by repeat split.
Qed.

Lemma X16_reverse_geocode_asks_one_provider_witness :
  let lat := Fin (165 # 10) in
  let lng := Fin (8065 # 100) in
  let r := reverseGeocode keyed_env lat lng fresh_world in
  reverseGeocode keyed_env lat lng fresh_world = (fst r, snd r)
  /\ providerCalls (snd r) = [GoogleReverseCall (mkLatLng lat lng)]
  /\ exists new,
      providerCalls (snd r) = providerCalls fresh_world ++ new
      /\ (new = []
          \/ (GOOGLE_MAPS_KEY keyed_env = None
              /\ new = [NominatimReverseCall (mkLatLng lat lng)])
          \/ (is_Some (GOOGLE_MAPS_KEY keyed_env)
              /\ new = [GoogleReverseCall (mkLatLng lat lng)])).
Proof.
  intros lat lng r.
  assert (H : reverseGeocode keyed_env lat lng fresh_world = (fst r, snd r))
    by apply surjective_pairing.
  split; [exact H|]. split; [reflexivity|].
  exact (proj1 (X16_reverse_geocode_asks_one_provider keyed_env lat lng fresh_world
                  (fst r) (snd r) H)).
Defined.

(** X17. [geocodeLatLng] caches nothing and fails for three reasons only: a
    coordinate that is NaN, a refused budget, or a Google reply that cannot
    be read.  In particular a failing Nominatim never makes it fail. *)
Theorem X17_geocodeLatLng_failures env lat lng w res w' :
  geocodeLatLng env lat lng w = (res, w') ->
  geocodeCache w' = geocodeCache w
  /\ reverseGeocodeCache w' = reverseGeocodeCache w
  /\ routePolylinesCache w' = routePolylinesCache w
  /\ (forall e, res = Err e ->
        (e = InvalidLatLng /\ (isNaN lat = true \/ isNaN lng = true))
        \/ (e = UsageLimitExceeded /\ is_Some (GOOGLE_MAPS_KEY env)
            /\ budget_exhausted env w)
        \/ (e = ResponseUnreadable /\ is_Some (GOOGLE_MAPS_KEY env)
            /\ googleReverseApi env (mkLatLng lat lng) = Unparsable)).
Proof.
  intros H. apply geocodeLatLng_effect in H as (H1 & H2 & H3 & _ & H5). by repeat split.
Qed.

Lemma X17_geocodeLatLng_failures_witness :
  let r := geocodeLatLng keyed_env NaN (num_of_Z 80) fresh_world in
  geocodeLatLng keyed_env NaN (num_of_Z 80) fresh_world = (fst r, snd r)
  /\ fst r = Err InvalidLatLng
  /\ geocodeCache (snd r) = geocodeCache fresh_world.
Proof.
  intros r.
  assert (H : geocodeLatLng keyed_env NaN (num_of_Z 80) fresh_world = (fst r, snd r))
    by apply surjective_pairing.
  split; [exact H|]. split; [reflexivity|].
  exact (proj1 (X17_geocodeLatLng_failures keyed_env NaN (num_of_Z 80) fresh_world
                  (fst r) (snd r) H)).
Defined.

(** X18. [getRoutePath] always resolves, with one of two paths: the
    straight line through origin, waypoints and destination, or, when a key
    is set, the budget granted and Directions answers ["OK"] with a
    polyline, the decoded polyline.  It touches no cache. *)
Theorem X18_getRoutePath_resolves_with_line_or_polyline env o d wps w :
  exists path w',
    getRoutePath env o d wps w = (Ok path, w')
    /\ (path = straightLine o d wps
        \/ exists points,
             is_Some (GOOGLE_MAPS_KEY env)
             /\ ~ budget_exhausted env w
             /\ googleDirectionsApi env (mkDirectionsRequest o d wps)
                = Body (mkDirectionsBody "OK" (Some points))
             /\ path = decodePolyline points)
    /\ geocodeCache w' = geocodeCache w
    /\ reverseGeocodeCache w' = reverseGeocodeCache w
    /\ routePolylinesCache w' = routePolylinesCache w.
Proof.
  destruct (getRoutePath_total env o d wps w) as (path & w' & H).
  exists path, w'. split; [exact H|].
  apply getRoutePath_effect in H as (H1 & H2 & H3 & _ & Hres).
  split; [|by repeat split].
  destruct Hres as [[= ->] | (points & Hk & Hb & Hrep & [= ->])]; [by left|].
  right. exists points. by repeat split.
Qed.

(** ** Choosing among Google's candidates *)

Lemma chooseLoop_spec stateNorm cityNorm : forall results chosen,
  chooseLoop stateNorm cityNorm results chosen
  = if negb (truthy stateNorm) && negb (truthy cityNorm)
    then match chosen with
         | Some c => Some c
         | None => head results
         end
    else match List.find (matchesPreferences stateNorm cityNorm) results with
         | Some r => Some r
         | None =>
             if truthy stateNorm && truthy cityNorm then chosen
             else match chosen with
                  | Some c => Some c
                  | None => head results
                  end
         end.
Proof.
  induction results as [|r rest IH]; intros chosen.
  - simpl. by destruct (truthy stateNorm), (truthy cityNorm), chosen.
  - cbn [chooseLoop List.find]. unfold matchesPreferences at 1.
    rewrite !IH.
    destruct (truthy stateNorm), (truthy cityNorm),
      (includes stateNorm _), (includes cityNorm _), chosen as [c|];
      cbn [negb orb andb bool_decide head];
      rewrite ?bool_decide_eq_true_2 by (by eexists);
      rewrite ?bool_decide_eq_false_2 by (by intros [? ?]);
      cbn [negb orb andb];
      try reflexivity;
      destruct (List.find _ rest); reflexivity.
Qed.

(** X19. Of Google's candidates [geocodeLocation] keeps the first one whose
    address components contain every configured preference (state, city),
    and the first candidate when there is none: with both preferences set, a
    candidate that matches only one of them is not preferred to the first
    one. *)
Theorem X19_first_candidate_matching_all_preferences env first others :
  chooseCandidate env first others
  = default first
      (List.find (matchesPreferences (toLowerCase (GEOCODE_STATE env))
                                     (toLowerCase (GEOCODE_CITY env)))
                 (first :: others)).
Proof.
  unfold chooseCandidate. rewrite chooseLoop_spec.
  destruct (truthy (toLowerCase (GEOCODE_STATE env))) eqn:Hs,
           (truthy (toLowerCase (GEOCODE_CITY env))) eqn:Hc; cbn [negb andb];
    try (by destruct (List.find _ (first :: others))).
  cbn [List.find]. unfold matchesPreferences. by rewrite Hs, Hc.
Qed.

(** ** Building routes and the in-memory route cache *)

Lemma check_denied_again d u u1 :
  checkAndIncrementGoogleUsage d u = (false, u1) ->
  checkAndIncrementGoogleUsage d u1 = (false, u1).
Proof.
  unfold checkAndIncrementGoogleUsage.
  destruct (bool_decide (usage_date u = d)) eqn:Hd.
  - destruct (usage_limit u <=? usage_count u) eqn:Hl; intros [= <-].
    by rewrite Hd, Hl.
  - cbn [usage_limit usage_count usage_date].
    destruct (usage_limit u <=? 0) eqn:Hl; intros [= <-].
    cbn [usage_date usage_limit usage_count].
    rewrite bool_decide_eq_true_2 by done.
    cbn [usage_date usage_limit usage_count]. by rewrite Hl.
Qed.

(** When no road path can be had, [getRoutePath] resolves with the straight
    line, and no road path can be had afterwards either. *)
Lemma getRoutePath_fallback_stable env w o d wps :
  routing_unavailable env w ->
  exists w', getRoutePath env o d wps w = (Ok (straightLine o d wps), w')
             /\ routing_unavailable env w'.
Proof.
  intros Hun. unfold getRoutePath.
  destruct (GOOGLE_MAPS_KEY env) as [k|] eqn:Hk.
  2:{ exists w. split; [done|]. by left. }
  rewrite (bind_ok _ _ _ _ _ (consumeGoogleCall_spec env w)).
  destruct (checkAndIncrementGoogleUsage (today env) (googleUsage w)) as [ok u] eqn:Hcheck.
  cbn [fst snd]. destruct ok; cbn [negb].
  2:{ eexists. split; [reflexivity|]. right; left. unfold budget_exhausted.
      cbn [googleUsage set_googleUsage]. by rewrite (check_denied_again _ _ _ Hcheck). }
  destruct Hun as [Hnone | [Hex | Hfail]].
  - congruence.
  - unfold budget_exhausted in Hex. by rewrite Hcheck in Hex.
  - rewrite (bind_ok _ _ _ _ _ (request_spec _ _ _)).
    specialize (Hfail (mkDirectionsRequest o d wps)) as Hno.
    destruct (googleDirectionsApi env _) as [| |j];
      try (eexists; split; [reflexivity | by right; right]).
    simpl in Hno.
    destruct (bool_decide (dir_status j = "OK"%string)) eqn:Hs;
      [|eexists; split; [reflexivity | by right; right]].
    destruct (overview_polyline j) as [pts|];
      [|eexists; split; [reflexivity | by right; right]].
    apply bool_decide_eq_true in Hs. exfalso. apply Hno. by split.
Qed.

Lemma buildForStops_fallback_stable env w stopsArr :
  routing_unavailable env w ->
  exists w', buildForStops env stopsArr w = (Ok (map stop_point stopsArr), w')
             /\ routing_unavailable env w'.
Proof.
  intros Hun. destruct stopsArr as [|s1 [|s2 rest]].
  - by exists w.
  - by exists w.
  - unfold buildForStops, try_catch.
    destruct (getRoutePath_fallback_stable env w (stop_point s1)
                (stop_point (List.last (s1 :: s2 :: rest) s1))
                (map stop_point (slice_inner (s1 :: s2 :: rest))) Hun)
      as (w' & -> & Hun').
    exists w'. split; [|done]. by rewrite straightLine_of_stops.
Qed.

(** [buildForStops] always resolves and touches no cache. *)
Lemma buildForStops_effect env stopsArr w :
  exists path w',
    buildForStops env stopsArr w = (Ok path, w')
    /\ geocodeCache w' = geocodeCache w
    /\ reverseGeocodeCache w' = reverseGeocodeCache w
    /\ routePolylinesCache w' = routePolylinesCache w.
Proof.
  destruct stopsArr as [|s1 [|s2 rest]].
  - exists [], w. by repeat split.
  - exists [stop_point s1], w. by repeat split.
  - unfold buildForStops, try_catch.
    destruct (getRoutePath_total env (stop_point s1)
                (stop_point (List.last (s1 :: s2 :: rest) s1))
                (map stop_point (slice_inner (s1 :: s2 :: rest))) w)
      as (path & w' & H).
    rewrite H. apply getRoutePath_effect in H as (H1 & H2 & H3 & _).
    exists path, w'. by repeat split.
Qed.

Lemma buildRouteForBus_effect env b w :
  exists routes w',
    buildRouteForBus env b w = (Ok routes, w')
    /\ geocodeCache w' = geocodeCache w
    /\ reverseGeocodeCache w' = reverseGeocodeCache w
    /\ routePolylinesCache w' = routePolylinesCache w.
Proof.
  unfold buildRouteForBus.
  destruct (buildForStops_effect env (stopsOf MORNING (bus_stops b)) w)
    as (p1 & w1 & H1 & Hg1 & Hr1 & Hp1).
  destruct (buildForStops_effect env (stopsOf EVENING (bus_stops b)) w1)
    as (p2 & w2 & H2 & Hg2 & Hr2 & Hp2).
  rewrite (bind_ok _ _ _ _ _ H1), (bind_ok _ _ _ _ _ H2).
  eexists _, w2. split; [reflexivity|]. repeat split; congruence.
Qed.

Lemma insertByOrder_perm s l : insertByOrder s l ≡ₚ s :: l.
Proof.
  induction l as [|x l IH]; simpl; [done|].
  destruct (stop_order s <=? stop_order x); [done|].
  rewrite IH. apply Permutation_swap.
Qed.

Lemma sortByOrder_perm l : sortByOrder l ≡ₚ l.
Proof.
  induction l as [|x l IH]; simpl; [done|].
  unfold sortByOrder in *. simpl. by rewrite insertByOrder_perm, IH.
Qed.

Lemma insertByOrder_sorted s l :
  StronglySorted (fun x y => stop_order x <= stop_order y) l ->
  StronglySorted (fun x y => stop_order x <= stop_order y) (insertByOrder s l).
Proof.
  induction 1 as [|x l Hl IH Hx]; simpl.
  - repeat constructor.
  - destruct (Z.leb_spec (stop_order s) (stop_order x)).
    + constructor; [by constructor|]. constructor; [done|].
      eapply Forall_impl; [exact Hx|]. simpl. intros; lia.
    + constructor; [done|].
      rewrite (insertByOrder_perm s l). constructor; [lia | done].
Qed.

Lemma sortByOrder_sorted l :
  StronglySorted (fun x y => stop_order x <= stop_order y) (sortByOrder l).
Proof.
  induction l as [|x l IH]; [constructor|]. by apply insertByOrder_sorted.
Qed.

(** X20. When no road path can be had (no key, no budget or a failing
    provider), the two routes that [buildRouteForBus] builds for a bus are
    the coordinates of its morning stops and of its evening stops, each
    direction holding exactly the stops of its period in increasing
    [order]. *)
Theorem X20_bus_routes_fall_back_to_ordered_stops env b w :
  routing_unavailable env w ->
  (exists w',
      buildRouteForBus env b w
      = (Ok (mkBusRoutes (map stop_point (stopsOf MORNING (bus_stops b)))
                         (map stop_point (stopsOf EVENING (bus_stops b)))), w')
      /\ routing_unavailable env w')
  /\ forall p,
       stopsOf p (bus_stops b)
       ≡ₚ List.filter (fun s => bool_decide (stop_period s = p)) (bus_stops b)
       /\ StronglySorted (fun x y => stop_order x <= stop_order y)
                         (stopsOf p (bus_stops b)).
Proof.
  intros Hun. split.
  - unfold buildRouteForBus.
    destruct (buildForStops_fallback_stable env w (stopsOf MORNING (bus_stops b)) Hun)
      as (w1 & H1 & Hun1).
    destruct (buildForStops_fallback_stable env w1 (stopsOf EVENING (bus_stops b)) Hun1)
      as (w2 & H2 & Hun2).
    rewrite (bind_ok _ _ _ _ _ H1), (bind_ok _ _ _ _ _ H2). by exists w2.
  - intros p. split; [apply sortByOrder_perm | apply sortByOrder_sorted].
Qed.

Lemma X20_bus_routes_fall_back_to_ordered_stops_witness :
  let b := mkBus 7 [stop_at "B" 0 1 MORNING 2; stop_at "E" 5 5 EVENING 1;
                    stop_at "A" 0 0 MORNING 1] in
  routing_unavailable offline_env fresh_world
  /\ exists w',
      buildRouteForBus offline_env b fresh_world
      = (Ok (mkBusRoutes [mkLatLng (num_of_Z 0) (num_of_Z 0);
                          mkLatLng (num_of_Z 0) (num_of_Z 1)]
                         [mkLatLng (num_of_Z 5) (num_of_Z 5)]), w')
      /\ routing_unavailable offline_env w'.
Proof.
  intros b.
  assert (Hun : routing_unavailable offline_env fresh_world) by (left; reflexivity).
  split; [exact Hun|].
  exact (proj1 (X20_bus_routes_fall_back_to_ordered_stops offline_env b fresh_world Hun)).
Defined.

(** What the loop of [buildAllRoutePolylines] does to the state: every bus
    of the list has an entry afterwards, the entries of other buses and the
    two geocoding caches are as before. *)
Lemma buildAllLoop_spec env bs : forall w,
  (forall b, b ∈ bs -> is_Some (routePolylinesCache (buildAllLoop env bs w) !! bus_id b))
  /\ (forall id, id ∉ map bus_id bs ->
        routePolylinesCache (buildAllLoop env bs w) !! id = routePolylinesCache w !! id)
  /\ geocodeCache (buildAllLoop env bs w) = geocodeCache w
  /\ reverseGeocodeCache (buildAllLoop env bs w) = reverseGeocodeCache w.
Proof.
  induction bs as [|b rest IH]; intros w.
  - simpl. repeat split; [|done..]. intros b Hb. by apply elem_of_nil in Hb.
  - destruct (buildRouteForBus_effect env b w) as (routes & w1 & Hb & Hg & Hr & Hp).
    cbn [buildAllLoop]. rewrite Hb.
    destruct (IH (set_routePolylinesCache <[bus_id b := routes]> w1))
      as (Hin & Hout & Hg' & Hr').
    cbn [set_routePolylinesCache geocodeCache reverseGeocodeCache routePolylinesCache]
      in Hout, Hg', Hr'.
    repeat split; [| |congruence..].
    + intros b' Hb'. apply elem_of_cons in Hb' as [->|Hb']; [|by apply Hin].
      destruct (decide (bus_id b ∈ map bus_id rest)) as [Hdup|Hnew].
      * apply list_elem_of_fmap in Hdup as (b2 & Heq & Hb2). specialize (Hin b2 Hb2). by rewrite <- Heq in Hin.
      * rewrite (Hout _ Hnew), lookup_insert_eq. by eexists.
    + intros id Hid. cbn [map] in Hid. apply not_elem_of_cons in Hid as [Hne Hid].
      rewrite (Hout _ Hid), lookup_insert_ne by done. by rewrite Hp.
Qed.

Lemma routing_unavailable_cache env f w :
  routing_unavailable env w -> routing_unavailable env (set_routePolylinesCache f w).
Proof. by intros Hun. Qed.

Lemma buildAllLoop_offline env bs : forall w,
  routing_unavailable env w ->
  NoDup (map bus_id bs) ->
  forall b, b ∈ bs ->
    routePolylinesCache (buildAllLoop env bs w) !! bus_id b
    = Some (mkBusRoutes (map stop_point (stopsOf MORNING (bus_stops b)))
                        (map stop_point (stopsOf EVENING (bus_stops b)))).
Proof.
  induction bs as [|b rest IH]; intros w Hun Hnd b' Hb'.
  - by apply elem_of_nil in Hb'.
  - cbn [map] in Hnd. apply NoDup_cons in Hnd as [Hnew Hnd].
    assert (Hbuild : exists w1,
      buildRouteForBus env b w
      = (Ok (mkBusRoutes (map stop_point (stopsOf MORNING (bus_stops b)))
                         (map stop_point (stopsOf EVENING (bus_stops b)))), w1)
      /\ routing_unavailable env w1).
    { unfold buildRouteForBus.
      destruct (buildForStops_fallback_stable env w (stopsOf MORNING (bus_stops b)) Hun)
        as (w1 & H1 & Hun1).
      destruct (buildForStops_fallback_stable env w1 (stopsOf EVENING (bus_stops b)) Hun1)
        as (w2 & H2 & Hun2).
      rewrite (bind_ok _ _ _ _ _ H1), (bind_ok _ _ _ _ _ H2). by exists w2. }
    destruct Hbuild as (w1 & Hb & Hun1).
    cbn [buildAllLoop]. rewrite Hb.
    apply elem_of_cons in Hb' as [->|Hb'].
    + destruct (buildAllLoop_spec env rest
                  (set_routePolylinesCache
                     <[bus_id b := mkBusRoutes
                                     (map stop_point (stopsOf MORNING (bus_stops b)))
                                     (map stop_point (stopsOf EVENING (bus_stops b)))]> w1))
        as (_ & Hout & _).
      rewrite (Hout _ Hnew).
      cbn [set_routePolylinesCache routePolylinesCache]. by rewrite lookup_insert_eq.
    + apply IH; [by apply routing_unavailable_cache | done | done].
Qed.

(** X21. After [buildAllRoutePolylines] every bus that the database
    returned has an entry in [routePolylinesCache]; the entries of other
    bus ids and the two geocoding caches are as before; the snapshot
    written to disk is the whole cache as it stands after the loop.  When
    the database query throws, nothing changes and nothing is written. *)
Theorem X21_rebuild_gives_every_bus_an_entry env bs diskWritable w :
  let w' := fst (buildAllRoutePolylines env (Some bs) diskWritable w) in
  let snapshot := snd (buildAllRoutePolylines env (Some bs) diskWritable w) in
  (forall b, b ∈ bs -> is_Some (routePolylinesCache w' !! bus_id b))
  /\ (forall id, id ∉ map bus_id bs ->
        routePolylinesCache w' !! id = routePolylinesCache w !! id)
  /\ geocodeCache w' = geocodeCache w
  /\ reverseGeocodeCache w' = reverseGeocodeCache w
  /\ snapshot = (if diskWritable then Some (routePolylinesCache w') else None)
  /\ buildAllRoutePolylines env None diskWritable w = (w, None).
Proof.
  cbn [buildAllRoutePolylines fst snd].
  destruct (buildAllLoop_spec env bs w) as (H1 & H2 & H3 & H4).
  by repeat split.
Qed.

(** X22. When no road path can be had and the buses have distinct ids,
    [buildAllRoutePolylines] caches for every bus the straight lines
    through its morning stops and through its evening stops, in the order
    of the stops. *)
Theorem X22_offline_rebuild_caches_straight_lines env bs diskWritable w b :
  routing_unavailable env w ->
  NoDup (map bus_id bs) ->
  b ∈ bs ->
  routePolylinesCache (fst (buildAllRoutePolylines env (Some bs) diskWritable w))
    !! bus_id b
  = Some (mkBusRoutes (map stop_point (stopsOf MORNING (bus_stops b)))
                      (map stop_point (stopsOf EVENING (bus_stops b)))).
Proof.
  intros Hun Hnd Hb. cbn [buildAllRoutePolylines fst].
  by apply buildAllLoop_offline.
Qed.

Lemma X22_offline_rebuild_caches_straight_lines_witness :
  let b1 := mkBus 1 [stop_at "B" 0 1 MORNING 2; stop_at "A" 0 0 MORNING 1] in
  let b2 := mkBus 2 [stop_at "E" 5 5 EVENING 1] in
  routing_unavailable offline_env fresh_world
  /\ NoDup (map bus_id [b1; b2])
  /\ b1 ∈ [b1; b2]
  /\ routePolylinesCache
       (fst (buildAllRoutePolylines offline_env (Some [b1; b2]) true fresh_world)) !! 1
     = Some (mkBusRoutes [mkLatLng (num_of_Z 0) (num_of_Z 0);
                          mkLatLng (num_of_Z 0) (num_of_Z 1)] []).
Proof.
  intros b1 b2.
  assert (Hun : routing_unavailable offline_env fresh_world) by (left; reflexivity).
  assert (Hnd : NoDup (map bus_id [b1; b2])).
  { simpl. apply NoDup_cons. split; [|apply NoDup_singleton].
    intros H. apply list_elem_of_singleton in H. discriminate. }
  assert (Hb : b1 ∈ [b1; b2]) by (apply elem_of_cons; by left).
  split; [exact Hun|]. split; [exact Hnd|]. split; [exact Hb|].
  exact (X22_offline_rebuild_caches_straight_lines
           offline_env [b1; b2] true fresh_world b1 Hun Hnd Hb).
Defined.

(** ** [checkRouteStops] and [findNearbyBusesDb] *)

Section NearbyProperties.

Variable getDistance : LatLng -> LatLng -> jsnum.

Lemma countStopsWithin_acc u r stopsArr : forall acc,
  fold_left (fun acc s =>
               acc + (if num_le (getDistance u (stop_point s)) r then 1 else 0))
            stopsArr acc
  = acc + countStopsWithin getDistance u r stopsArr.
Proof.
  unfold countStopsWithin.
  induction stopsArr as [|s rest IH]; intros acc; simpl; [lia|].
  rewrite (IH (acc + _)), (IH (0 + _)). lia.
Qed.

Lemma countStopsWithin_cons u r s rest :
  countStopsWithin getDistance u r (s :: rest)
  = (if num_le (getDistance u (stop_point s)) r then 1 else 0)
    + countStopsWithin getDistance u r rest.
Proof.
  unfold countStopsWithin at 1. simpl. by rewrite countStopsWithin_acc.
Qed.

Lemma countStopsWithin_bounds u r stopsArr :
  0 <= countStopsWithin getDistance u r stopsArr <= Z.of_nat (length stopsArr).
Proof.
  induction stopsArr as [|s rest IH]; [done|].
  rewrite countStopsWithin_cons. cbn [length]. destruct (num_le _ _); lia.
Qed.

Lemma countStopsWithin_mono u r1 r2 stopsArr :
  num_le r1 r2 = true ->
  countStopsWithin getDistance u r1 stopsArr <= countStopsWithin getDistance u r2 stopsArr.
Proof.
  intros Hr. induction stopsArr as [|s rest IH]; [done|].
  rewrite !countStopsWithin_cons.
  destruct (num_le (getDistance u (stop_point s)) r1) eqn:H1.
  - rewrite (num_le_mono_r _ _ _ Hr H1). cbv iota. lia.
  - pose proof (countStopsWithin_bounds u r1 rest).
    destruct (num_le (getDistance u (stop_point s)) r2); lia.
Qed.

(** What a result of [checkRouteStops] can look like. *)
Lemma checkRouteStops_result env u r busId stopsArr routeType w res w' :
  checkRouteStops getDistance env u r busId stopsArr routeType w = (Ok res, w') ->
  0 <= stopCount res <= Z.of_nat (length stopsArr)
  /\ (intersects res = false -> stopCount res = 0)
  /\ (intersects res = true -> stopsArr <> []).
Proof.
  destruct stopsArr as [|s1 [|s2 rest]].
  - intros [= <- _]. by repeat split.
  - unfold checkRouteStops, ret. destruct (num_le _ _); intros [= <- _];
      cbn [stopCount intersects length]; repeat split; done || lia.
  - destruct (route_lookup_total env w busId routeType s1 s2 rest) as (path & w1 & Hpath).
    destruct (getMinDistanceAlongPath_points getDistance u path) as [md Hmd].
    rewrite (checkRouteStops_several _ _ _ _ _ _ _ _ _ _ _ _ _ Hpath Hmd).
    destruct (num_le (minDist md) r); intros [= <- _]; cbn [stopCount intersects].
    + split; [apply countStopsWithin_bounds|]. by split.
    + cbn [length]. repeat split; done || lia.
Qed.

(** The same check with a larger radius: same state afterwards, same path,
    and whatever intersected still does, with at least as many stops. *)
Lemma checkRouteStops_radius env u r1 r2 busId stopsArr routeType w :
  num_le r1 r2 = true ->
  exists res1 res2 w',
    checkRouteStops getDistance env u r1 busId stopsArr routeType w = (Ok res1, w')
    /\ checkRouteStops getDistance env u r2 busId stopsArr routeType w = (Ok res2, w')
    /\ routePath res1 = routePath res2
    /\ (intersects res1 = true -> intersects res2 = true)
    /\ stopCount res1 <= stopCount res2.
Proof.
  intros Hr. destruct stopsArr as [|s1 [|s2 rest]].
  - do 3 eexists. by repeat split.
  - unfold checkRouteStops, ret.
    destruct (num_le (getDistance u (stop_point s1)) r1) eqn:H1.
    + rewrite (num_le_mono_r _ _ _ Hr H1). do 3 eexists.
      repeat split; try done; cbn [stopCount]; lia.
    + destruct (num_le (getDistance u (stop_point s1)) r2); do 3 eexists;
        repeat split; try done; cbn [stopCount]; lia.
  - destruct (route_lookup_total env w busId routeType s1 s2 rest) as (path & w1 & Hpath).
    destruct (getMinDistanceAlongPath_points getDistance u path) as [md Hmd].
    rewrite !(checkRouteStops_several _ _ _ _ _ _ _ _ _ _ _ _ _ Hpath Hmd).
    destruct (num_le (minDist md) r1) eqn:H1.
    + rewrite (num_le_mono_r _ _ _ Hr H1). do 3 eexists.
      repeat split; [done..|]. cbn [stopCount]. by apply countStopsWithin_mono.
    + destruct (num_le (minDist md) r2); do 3 eexists; repeat split; try done.
      cbn [stopCount]. apply countStopsWithin_bounds.
Qed.

(** X23. For a route with several stops whose bus has a non-empty path of
    that direction in [routePolylinesCache], [checkRouteStops] takes the
    cached path and leaves the state as it is: no provider is asked and no
    budget is spent. *)
Theorem X23_cached_path_is_used_without_provider
        env w u r busId stopsArr routeType c :
  routePolylinesCache w !! busId = Some c ->
  cachedRoute routeType c <> [] ->
  (2 <= length stopsArr)%nat ->
  exists res,
    checkRouteStops getDistance env u r busId stopsArr routeType w = (Ok res, w)
    /\ routePath res = cachedRoute routeType c.
Proof. apply checkRouteStops_cached. Qed.

Lemma tallyBus_eq env u r b w :
  exists mc ec w1 w2,
    checkRouteStops getDistance env u r (bus_id (row_bus b))
                    (stopsOf MORNING (bus_stops (row_bus b))) MORNING w = (Ok mc, w1)
    /\ checkRouteStops getDistance env u r (bus_id (row_bus b))
                       (stopsOf EVENING (bus_stops (row_bus b))) EVENING w1 = (Ok ec, w2)
    /\ tallyBus getDistance env u r b w
       = (tally_evening ec (tally_morning mc tally_init), w2).
Proof.
  destruct (checkRouteStops_never_fails getDistance env w u r (bus_id (row_bus b))
              (stopsOf MORNING (bus_stops (row_bus b))) MORNING) as (mc & w1 & H1).
  destruct (checkRouteStops_never_fails getDistance env w1 u r (bus_id (row_bus b))
              (stopsOf EVENING (bus_stops (row_bus b))) EVENING) as (ec & w2 & H2).
  exists mc, ec, w1, w2. unfold tallyBus. by rewrite H1, H2.
Qed.

Lemma tally_intersects mc ec :
  t_intersects (tally_evening ec (tally_morning mc tally_init))
  = intersects mc || intersects ec.
Proof. unfold tally_evening, tally_morning. by destruct (intersects mc), (intersects ec). Qed.

Lemma tally_count mc ec :
  (intersects mc = false -> stopCount mc = 0) ->
  (intersects ec = false -> stopCount ec = 0) ->
  t_nearbyStopCount (tally_evening ec (tally_morning mc tally_init))
  = stopCount mc + stopCount ec.
Proof.
  unfold tally_evening, tally_morning.
  destruct (intersects mc), (intersects ec); cbn; intros H1 H2;
    rewrite ?H1, ?H2 by done; lia.
Qed.

Lemma tally_routes mc ec :
  t_morningRoute (tally_evening ec (tally_morning mc tally_init))
  = (if intersects mc then Some (routePath mc) else None)
  /\ t_eveningRoute (tally_evening ec (tally_morning mc tally_init))
     = (if intersects ec then Some (routePath ec) else None).
Proof. unfold tally_evening, tally_morning. by destruct (intersects mc), (intersects ec). Qed.

Lemma nearbyLoop_radius env u r1 r2 buses : forall w,
  num_le r1 r2 = true ->
  snd (nearbyLoop getDistance env u r1 buses w)
  = snd (nearbyLoop getDistance env u r2 buses w)
  /\ map nb_busNumber (fst (nearbyLoop getDistance env u r1 buses w))
     `sublist_of` map nb_busNumber (fst (nearbyLoop getDistance env u r2 buses w)).
Proof.
  intros w Hr. revert w. induction buses as [|b rest IH]; intros w.
  - split; [done|]. simpl. constructor.
  - cbn [nearbyLoop].
    destruct (checkRouteStops_radius env u r1 r2 (bus_id (row_bus b))
                (stopsOf MORNING (bus_stops (row_bus b))) MORNING w Hr)
      as (mc1 & mc2 & wa & Hm1 & Hm2 & _ & Hmi & _).
    destruct (checkRouteStops_radius env u r1 r2 (bus_id (row_bus b))
                (stopsOf EVENING (bus_stops (row_bus b))) EVENING wa Hr)
      as (ec1 & ec2 & wb & He1 & He2 & _ & Hei & _).
    unfold tallyBus. rewrite Hm1, Hm2, He1, He2.
    destruct (IH wb) as [Hw Hsub].
    destruct (nearbyLoop getDistance env u r1 rest wb) as [f1 w1'].
    destruct (nearbyLoop getDistance env u r2 rest wb) as [f2 w2'].
    cbn [fst snd] in *. split; [done|].
    rewrite !tally_intersects.
    destruct (intersects mc1 || intersects ec1) eqn:Hi.
    + assert (Hi2 : intersects mc2 || intersects ec2 = true).
      { apply orb_true_iff in Hi as [Hi|Hi]; apply orb_true_iff; auto. }
      rewrite Hi2. cbn [map nearbyBus nb_busNumber]. by constructor.
    + destruct (intersects mc2 || intersects ec2); [|done].
      cbn [map nearbyBus nb_busNumber]. by constructor.
Qed.

Lemma times1000_mono a b : num_le a b = true -> num_le (times1000 a) (times1000 b) = true.
Proof.
  destruct a, b; simpl; intros H; try discriminate; auto.
  apply Qle_bool_iff. apply Qle_bool_iff in H.
  apply Qmult_le_compat_r; [done|]. by compute.
Qed.

(** X24. Widening the search radius never loses a bus: the buses that
    [findNearbyBusesDb] reports for a radius are reported, in the same
    order, for every larger radius, and both searches leave the caches,
    the budget and the request log in the same state. *)
Theorem X24_larger_radius_keeps_every_bus env u km1 km2 buses w :
  num_le km1 km2 = true ->
  snd (findNearbyBusesDb getDistance env u km1 buses w)
  = snd (findNearbyBusesDb getDistance env u km2 buses w)
  /\ map nb_busNumber (fst (findNearbyBusesDb getDistance env u km1 buses w))
     `sublist_of` map nb_busNumber (fst (findNearbyBusesDb getDistance env u km2 buses w)).
Proof.
  intros Hr. unfold findNearbyBusesDb.
  apply nearbyLoop_radius. by apply times1000_mono.
Qed.

Lemma nearbyLoop_reported env u r buses : forall w,
  map nb_busNumber (fst (nearbyLoop getDistance env u r buses w))
  `sublist_of` map bus_number buses
  /\ Forall (fun nb =>
               1 <= totalNearbyStops nb + 1
                 <= Z.of_nat (length (nb_morningStops nb) + length (nb_eveningStops nb)) + 1
               /\ (is_Some (details_morningRoute nb) -> nb_morningStops nb <> [])
               /\ (is_Some (details_eveningRoute nb) -> nb_eveningStops nb <> [])
               /\ (is_Some (details_morningRoute nb) \/ is_Some (details_eveningRoute nb)))
            (fst (nearbyLoop getDistance env u r buses w)).
Proof.
  induction buses as [|b rest IH]; intros w.
  - simpl. split; constructor.
  - cbn [nearbyLoop].
    destruct (tallyBus_eq env u r b w) as (mc & ec & wa & wb & Hm & He & ->).
    destruct (IH wb) as [Hsub Hall].
    destruct (nearbyLoop getDistance env u r rest wb) as [found w2].
    cbn [fst] in *.
    destruct (checkRouteStops_result _ _ _ _ _ _ _ _ _ Hm) as (Hmb & Hm0 & Hmne).
    destruct (checkRouteStops_result _ _ _ _ _ _ _ _ _ He) as (Heb & He0 & Hene).
    rewrite tally_intersects.
    destruct (intersects mc || intersects ec) eqn:Hi.
    + split; [cbn [map nearbyBus nb_busNumber]; by constructor|].
      constructor; [|done].
      cbn [nearbyBus totalNearbyStops nb_morningStops nb_eveningStops
           details_morningRoute details_eveningRoute].
      rewrite (tally_count _ _ Hm0 He0).
      destruct (tally_routes mc ec) as [-> ->].
      rewrite !length_map, Nat2Z.inj_add.
      split; [lia|].
      split; [|split].
      * destruct (intersects mc); [|by intros [? [=]]].
        intros _ Hnil. apply Hmne; [done|]. by destruct (stopsOf MORNING _).
      * destruct (intersects ec); [|by intros [? [=]]].
        intros _ Hnil. apply Hene; [done|]. by destruct (stopsOf EVENING _).
      * apply orb_true_iff in Hi as [->| ->]; [left|right]; by eexists.
    + split; [|done]. cbn [map]. by constructor.
Qed.

(** X25. The buses that [findNearbyBusesDb] reports come in the order of
    the database rows, each row at most once.  Every reported bus carries
    the path of at least one direction, a direction with a path has stops,
    and [totalNearbyStops] lies between 0 and the number of stops of the
    bus in both directions. *)
Theorem X25_reported_buses_are_rows_with_a_route env u radiusKm buses w :
  map nb_busNumber (fst (findNearbyBusesDb getDistance env u radiusKm buses w))
  `sublist_of` map bus_number buses
  /\ forall nb, nb ∈ fst (findNearbyBusesDb getDistance env u radiusKm buses w) ->
       0 <= totalNearbyStops nb
         <= Z.of_nat (length (nb_morningStops nb) + length (nb_eveningStops nb))
       /\ (is_Some (details_morningRoute nb) -> nb_morningStops nb <> [])
       /\ (is_Some (details_eveningRoute nb) -> nb_eveningStops nb <> [])
       /\ (is_Some (details_morningRoute nb) \/ is_Some (details_eveningRoute nb)).
Proof.
  unfold findNearbyBusesDb.
  destruct (nearbyLoop_reported env u (times1000 radiusKm) buses w) as [Hsub Hall].
  split; [done|]. intros nb Hnb.
  rewrite Forall_forall in Hall. destruct (Hall nb Hnb) as (Hc & H1 & H2 & H3).
  repeat split; try done; lia.
Qed.

End NearbyProperties.

Lemma X23_cached_path_is_used_without_provider_witness :
  let line := [mkLatLng (num_of_Z 0) (num_of_Z 0); mkLatLng (num_of_Z 0) (num_of_Z 2)] in
  let c := mkBusRoutes line [] in
  let w := mkWorld ∅ ∅ (mkGoogleUsage "2025-01-01" 0 1000) {[ 7 := c ]} [] in
  let stops := [stop_at "A" 0 0 MORNING 1; stop_at "B" 0 1 MORNING 2] in
  routePolylinesCache w !! 7 = Some c
  /\ cachedRoute MORNING c <> []
  /\ (2 <= length stops)%nat
  /\ exists res,
       checkRouteStops sample_getDistance directions_env
                       (mkLatLng (num_of_Z 0) (num_of_Z 0)) (num_of_Z 500)
                       7 stops MORNING w = (Ok res, w)
       /\ routePath res = cachedRoute MORNING c.
Proof.
  intros line c w stops.
  assert (H1 : routePolylinesCache w !! 7 = Some c) by reflexivity.
  assert (H2 : cachedRoute MORNING c <> []) by discriminate.
  assert (H3 : (2 <= length stops)%nat) by (simpl; lia).
  split; [exact H1|]. split; [exact H2|]. split; [exact H3|].
  exact (X23_cached_path_is_used_without_provider sample_getDistance directions_env w
           (mkLatLng (num_of_Z 0) (num_of_Z 0)) (num_of_Z 500) 7 stops MORNING c H1 H2 H3).
Defined.

Lemma X24_larger_radius_keeps_every_bus_witness :
  let u := mkLatLng (num_of_Z 0) (num_of_Z 0) in
  let buses := [mkBusRow (mkBus 1 [stop_at "A" 0 0 MORNING 1; stop_at "B" 0 1 MORNING 2])
                         "B1" "One" "North";
                mkBusRow (mkBus 2 [stop_at "C" 3 3 EVENING 1]) "B2" "Two" "South"] in
  num_le (num_of_Z 1) (num_of_Z 1000) = true
  /\ snd (findNearbyBusesDb sample_getDistance offline_env u (num_of_Z 1) buses fresh_world)
     = snd (findNearbyBusesDb sample_getDistance offline_env u (num_of_Z 1000) buses
                              fresh_world)
  /\ map nb_busNumber
         (fst (findNearbyBusesDb sample_getDistance offline_env u (num_of_Z 1) buses
                                 fresh_world))
     `sublist_of`
     map nb_busNumber
         (fst (findNearbyBusesDb sample_getDistance offline_env u (num_of_Z 1000) buses
                                 fresh_world)).
Proof.
  intros u buses.
  assert (H : num_le (num_of_Z 1) (num_of_Z 1000) = true) by reflexivity.
  split; [exact H|].
  exact (X24_larger_radius_keeps_every_bus sample_getDistance offline_env u
           (num_of_Z 1) (num_of_Z 1000) buses fresh_world H).
Defined.

(** ** More on [decodePolyline] *)

(** X26. [decodePolyline] inverts the documented encoding, up to the
    rounding of the product with [1e-5], for every sequence of points,
    within the coordinate ranges of the earth or not, whose consecutive
    points (the first one and the origin) differ by less than 2^29 units of
    1e-5 degree in each coordinate and whose coordinates are below 2^53
    units: it recovers the integer coordinates [n] exactly and returns, in
    order, the binary64 products [n * 1e-5], each off its original
    [n * 10^-5] by at most [|n| * 2^-68]. *)
Theorem X26_decodePolyline_inverts_small_steps (pts : list (Z * Z)) :
  small_steps 0 0 pts ->
  Forall exact_e5 pts ->
  decodePolyline (encodePolyline_spec pts) = map decoded_point pts
  /\ Forall2 decodes_to (decodePolyline (encodePolyline_spec pts)) pts.
Proof.
  intros Hsteps Hpts.
  rewrite decodePolyline_encodePolyline by done.
  split; [done | apply decoded_points_close].
Qed.

(** Two points far outside the ranges of the earth; the decoder returns
    the numbers that JavaScript writes 500.00000000000006,
    -3000.0000000000005, -4000.0000000000005 and 1000.0000000000001. *)
Lemma X26_decodePolyline_inverts_small_steps_witness :
  let pts := [(50000000, -300000000); (-400000000, 100000000)] in
  small_steps 0 0 pts
  /\ Forall exact_e5 pts
  /\ decodePolyline (encodePolyline_spec pts)
     = [mkLatLng (Fin (8796093022208001 # 17592186044416))
                 (Fin (-6597069766656001 # 2199023255552));
        mkLatLng (Fin (-8796093022208001 # 2199023255552))
                 (Fin (8796093022208001 # 8796093022208))]
  /\ decodePolyline (encodePolyline_spec pts) = map decoded_point pts
  /\ Forall2 decodes_to (decodePolyline (encodePolyline_spec pts)) pts.
Proof.
  intros pts.
  assert (H : small_steps 0 0 pts).
  { simpl. change (2 ^ 29) with 536870912. lia. }
  assert (Hx : Forall exact_e5 pts).
  { repeat constructor; simpl; change (2 ^ 53) with 9007199254740992; lia. }
  split; [exact H|]. split; [exact Hx|]. split; [vm_compute; reflexivity|].
  exact (X26_decodePolyline_inverts_small_steps pts H Hx).
Defined.

Lemma decodeLoop_facts : forall fuel s a b,
  (length (decodeLoop fuel s a b) <= String.length s)%nat
  /\ Forall (fun p => skipped p = false) (decodeLoop fuel s a b).
Proof.
  induction fuel as [|fuel IH]; intros s a b.
  - simpl. split; [lia | constructor].
  - destruct s as [|c s]; [simpl; split; [lia | constructor]|].
    rewrite decodeLoop_step.
    pose proof (readValue_length_cons c s 0 0) as Hl1.
    destruct (readValue (String c s) 0 0) as [r1 s1]. simpl in Hl1.
    pose proof (readValue_length s1 0 0) as Hl2.
    destruct (readValue s1 0 0) as [r2 s2]. simpl in Hl2.
    destruct (IH s2 (round53 (a + unzigzag r1)) (round53 (b + unzigzag r2)))
      as [Hlen Hfin].
    split; [simpl; lia|]. by constructor.
Qed.

(** X27. Whatever string it is given, [decodePolyline] returns at most as
    many points as the string has characters, returns no point only for
    the empty string, and every coordinate it returns is a number: no
    vertex of a decoded path is passed over by the intersection loops. *)
Theorem X27_decodePolyline_on_any_string (encoded : string) :
  (length (decodePolyline encoded) <= String.length encoded)%nat
  /\ (decodePolyline encoded = [] <-> encoded = EmptyString)
  /\ Forall (fun p => skipped p = false) (decodePolyline encoded).
Proof.
  unfold decodePolyline. destruct encoded as [|c s].
  - simpl. repeat split; auto.
  - cbn [truthy].
    destruct (decodeLoop_facts (String.length (String c s)) (String c s) 0 0) as [Hl Hf].
    split; [done|]. split; [|done].
    cbn [String.length]. rewrite decodeLoop_step.
    destruct (readValue (String c s) 0 0) as [r1 s1].
    destruct (readValue s1 0 0) as [r2 s2]. by split.
Qed.
